(** * ai-text: the message relay of [index.js]

    A shallow embedding of the relay's pipeline (poller, dedup ledgers,
    processing queue, command interpreter, backend gateway, reply
    resolution) and the properties its specification states about it.

    Conventions of the embedding.
    - A JavaScript string is the list of its UTF-16 code units.
    - Module-level [let]/[const] bindings and the locals captured by the
      poller's closure are the fields of one [State] record.
    - Every [await] on an outside service (OpenAI, Ollama, the BlueBubbles
      bridge, the image download) is a [call]: the request is appended to
      the trace and the answer is chosen by an environment, a function of
      the history so far.  A rejected promise or a response of an
      unexpected shape is a thrown exception.
    - [console.log]/[console.error] have no effect on the program and are
      left out, except the "Processing message" line, which is kept as the
      trace event that marks the start of an item.
    - The [tempGuid] of an outbound message (clock and random digits) is
      not part of the modelled payload.
    - The poller and the drain loop are two blocks.  [queueMessageProcessing]
      starts the drain without awaiting it, and from there on the drain
      runs between the poller's own steps, in an order that depends on
      when the services answer.  The embedding does not pick such an
      order: [pollCycle] is what the poller itself reads and writes
      (ledgers, queue tail, context store clean-up), [processMessageQueue]
      is what the drain itself reads and writes, and a statement about
      one of them speaks of that block's own steps. *)

From Stdlib Require Import NArith String Ascii List Bool Lia.
From stdpp Require Import gmap list.
Import ListNotations.

Local Open Scope N_scope.
Local Open Scope list_scope.

(** ** JavaScript strings *)

Module JsString.

Abbreviation jsstring := (list N).

(** A literal of Basic Latin characters. *)
Definition lit (s : string) : jsstring :=
  List.map N_of_ascii (list_ascii_of_string s).

(** [WhiteSpace] and [LineTerminator] code units: what [String.prototype.trim]
    strips and what [\s] matches. *)
Definition isWhiteSpace (c : N) : bool :=
  (c =? 9) || (c =? 10) || (c =? 11) || (c =? 12) || (c =? 13) || (c =? 32)
  || (c =? 160) || (c =? 5760) || ((8192 <=? c) && (c <=? 8202))
  || (c =? 8232) || (c =? 8233) || (c =? 8239) || (c =? 8287)
  || (c =? 12288) || (c =? 65279).

(** [LineTerminator] code units: what [.] refuses. *)
Definition isLineTerminator (c : N) : bool :=
  (c =? 10) || (c =? 13) || (c =? 8232) || (c =? 8233).

Fixpoint trimStart (s : jsstring) : jsstring :=
  match s with
  | c :: s' => if isWhiteSpace c then trimStart s' else s
  | [] => []
  end.

Definition trimEnd (s : jsstring) : jsstring := rev (trimStart (rev s)).

Definition trim (s : jsstring) : jsstring := trimEnd (trimStart s).

(** [String.prototype.toLowerCase], code unit by code unit.  Basic Latin
    and Latin-1 capitals are mapped exactly, as are the two code points
    outside Latin-1 whose lower case reaches Basic Latin (KELVIN SIGN and
    LATIN CAPITAL LETTER I WITH DOT ABOVE).  Every other code unit is kept,
    where JavaScript lowers the capitals of the other scripts too.  What
    is kept never lowers into Basic Latin, so the embedding agrees with
    the program wherever lowered text is searched for a Basic Latin word:
    the literals "@character", "@unhinge" and "true", and a configured
    trigger spelt in Basic Latin, as the default "@ava" is.  For a trigger
    with letters beyond Latin-1 it agrees only on texts that spell those
    letters in lower case. *)
Definition lowerUnit (c : N) : jsstring :=
  if (65 <=? c) && (c <=? 90) then [c + 32]
  else if (192 <=? c) && (c <=? 222) && negb (c =? 215) then [c + 32]
  else if c =? 8490 then [107]
  else if c =? 304 then [105; 775]
  else [c].

Definition toLowerCase (s : jsstring) : jsstring := concat (List.map lowerUnit s).

Fixpoint startsWith (p s : jsstring) : bool :=
  match p, s with
  | [], _ => true
  | a :: p', b :: s' => (a =? b) && startsWith p' s'
  | _ :: _, [] => false
  end.

(** [s.includes(p)] *)
Fixpoint includes (p s : jsstring) : bool :=
  startsWith p s ||
  match s with
  | [] => false
  | _ :: s' => includes p s'
  end.

(** [s.replace(p, '')] for a string pattern: the first occurrence goes. *)
Fixpoint removeFirst (p s : jsstring) : jsstring :=
  if startsWith p s then drop (length p) s
  else match s with
       | [] => []
       | c :: s' => c :: removeFirst p s'
       end.

Definition eqb (a b : jsstring) : bool := bool_decide (a = b).

(** *** The two command patterns

    [/KW\s+(.+)/i] for a Basic Latin keyword [KW].  The matcher follows
    the backtracking order of the regular expression: leftmost start,
    [\s+] greedy and giving back one unit at a time, [(.+)] greedy to the
    end of the line. *)

(** Canonicalisation of the [i] flag (no [u] flag): upper case, and a code
    unit outside Basic Latin never folds into it. *)
Definition canonicalize (c : N) : N :=
  if (97 <=? c) && (c <=? 122) then c - 32 else c.

Fixpoint matchKeyword (kw s : jsstring) : option jsstring :=
  match kw, s with
  | [], _ => Some s
  | a :: kw', b :: s' =>
      if canonicalize a =? canonicalize b then matchKeyword kw' s' else None
  | _ :: _, [] => None
  end.

(** [(.+)] at the end of the pattern: the longest run of units that are
    not line terminators, at least one. *)
Fixpoint dotRun (s : jsstring) : jsstring :=
  match s with
  | c :: s' => if isLineTerminator c then [] else c :: dotRun s'
  | [] => []
  end.

Definition captureDotPlus (s : jsstring) : option jsstring :=
  match dotRun s with
  | [] => None
  | r => Some r
  end.

(** [\s*] then the continuation [k]: longest first. *)
Fixpoint spaceStarThen {A} (k : jsstring -> option A) (s : jsstring) : option A :=
  match s with
  | c :: s' =>
      if isWhiteSpace c then
        match spaceStarThen k s' with
        | Some r => Some r
        | None => k s
        end
      else k s
  | [] => k []
  end.

Definition spacePlusThen {A} (k : jsstring -> option A) (s : jsstring) : option A :=
  match s with
  | c :: s' => if isWhiteSpace c then spaceStarThen k s' else None
  | [] => None
  end.

Definition matchAt (kw s : jsstring) : option jsstring :=
  match matchKeyword kw s with
  | Some rest => spacePlusThen captureDotPlus rest
  | None => None
  end.

(** [text.match(/KW\s+(.+)/i)]: capture group 1 of the leftmost match. *)
Fixpoint matchCommand (kw text : jsstring) : option jsstring :=
  match matchAt kw text with
  | Some r => Some r
  | None =>
      match text with
      | [] => None
      | _ :: text' => matchCommand kw text'
      end
  end.

End JsString.
Export JsString.

(** ** Literals of the program *)

Definition SIGNATURE : jsstring := 8212 :: lit " MyAI".

Definition KW_CHARACTER : jsstring := lit "@character".
Definition KW_UNHINGE : jsstring := lit "@unhinge".
Definition SENTINEL : jsstring := lit "[REQUEST_PICTURE]".


(** The fixed meta-prompt of [generateCharacterPrompt]. *)
Definition META_PROMPT : jsstring :=
  lit "You are a prompt engineer. Generate a detailed system prompt for an AI character based on the user's description. The prompt should:"
  ++ [10] ++ lit "1. Define the character's personality, mannerisms, and speaking style"
  ++ [10] ++ lit "2. Include specific behavioral traits and quirks"
  ++ [10] ++ lit "3. Be detailed enough to create a consistent character persona"
  ++ [10] ++ lit "4. Start with " ++ [34] ++ lit "You are [character description]..." ++ [34]
  ++ [10; 10] ++ lit "Keep it concise but comprehensive. Return only the system prompt, nothing else.".

Definition DEFAULT_PERSONA : jsstring :=
  lit "You are MyAI, a casual assistant in a private friend group chat. Be brief and natural unless asked to elaborate. Match the group's tone and energy.".

Definition OLLAMA_PICTURE_HINT : jsstring :=
  lit " If you want to generate and send a picture, just say [REQUEST_PICTURE] followed by your description.".

Definition OPENAI_PICTURE_HINT : jsstring :=
  lit " If you want to generate and send a picture or image, use the request_picture tool with a detailed description of what image you want to create.".

Definition REQUEST_PICTURE : jsstring := lit "request_picture".

Definition PICTURE_SENT : jsstring :=
  9989 :: lit " Generated and sent a picture! " ++ SIGNATURE.

Definition PICTURE_FAILED : jsstring :=
  10060 :: lit " Failed to generate image. Please try again. " ++ SIGNATURE.

Definition PROCESSING_FAILED : jsstring :=
  10060 :: lit " Error processing message. Please try again. " ++ SIGNATURE.

Definition characterUpdated (description : jsstring) : jsstring :=
  9989 :: lit " Character updated! I'm now: " ++ description ++ lit " " ++ SIGNATURE.

Definition fallbackPersona (description : jsstring) : jsstring :=
  lit "You are " ++ description ++ lit ". Embody this character fully in your responses.".

(** The three trigger words of the poller; [TRIGGER] is the configured
    (already lowered) bot trigger. *)
Definition TRIGGERS (TRIGGER : jsstring) : list jsstring :=
  [TRIGGER; KW_CHARACTER; KW_UNHINGE].

(** ** Data model *)

Inductive Role := system | user | assistant.

Record Turn := { role : Role; content : jsstring }.

(** [toolCall.function.arguments] is JSON text; it is carried as what
    [JSON.parse] makes of it. *)
Inductive JsonArgs :=
| Malformed
| Parsed (description : option jsstring).

Record ToolCall := { fn_name : jsstring; fn_arguments : JsonArgs }.

(** [completion.choices[0].message] *)
Record ChatMessage := {
  msg_content : option jsstring;
  tool_calls : option (list ToolCall)
}.

(** A message as the bridge lists it.  [None] stands for a missing or
    [null] field. *)
Record BridgeMessage := {
  guid : option jsstring;
  dateCreated : option N;
  dateDelivered : option N;
  text : option jsstring
}.

(** The queue item [{ chatGuid, text, timestamp, chatContexts }].  The
    timestamp is never read; [chatContexts] is a reference to the one map
    the poller owns, the [chatContexts] field of [State]. *)
Record QueueItem := { chatGuid : jsstring; itemText : jsstring }.

Inductive Request :=
| OpenAIChat (messages : list Turn) (tools : bool)
| OllamaChat (messages : list Turn)
| OpenAIImage (prompt : option jsstring)
| Download (url : jsstring)
| BridgeText (chat message : jsstring)
| BridgeAttachment (chat image : jsstring)
| BridgeChats
| BridgeMessages (chat : jsstring).

Inductive Response :=
| Rejected
| Completion (m : ChatMessage)
| OllamaContent (c : jsstring)
| ImageUrl (url : jsstring)
| Body (bytes : jsstring)
| Accepted
| Chats (guids : list jsstring)
| Messages (msgs : list BridgeMessage).

Inductive Event :=
| Called (q : Request) (r : Response)
| Processing (item : QueueItem)
| Sleep (ms : N).

(** The outside world: the answer to a request, given the history. *)
Definition Env := list Event -> Request -> Response.

Record State := mkState {
  USE_OLLAMA : bool;
  messageQueue : list QueueItem;
  isProcessingQueue : bool;
  chatCharacters : gmap (list N) (list N);
  chatContexts : list (jsstring * list Turn);
  seen : list jsstring;
  processedMessages : list jsstring;
  trace : list Event
}.

Definition set_USE_OLLAMA (b : bool) (s : State) : State :=
  mkState b (messageQueue s) (isProcessingQueue s) (chatCharacters s)
          (chatContexts s) (seen s) (processedMessages s) (trace s).

Definition set_messageQueue (q : list QueueItem) (s : State) : State :=
  mkState (USE_OLLAMA s) q (isProcessingQueue s) (chatCharacters s)
          (chatContexts s) (seen s) (processedMessages s) (trace s).

Definition set_isProcessingQueue (b : bool) (s : State) : State :=
  mkState (USE_OLLAMA s) (messageQueue s) b (chatCharacters s)
          (chatContexts s) (seen s) (processedMessages s) (trace s).

Definition set_chatCharacters (m : gmap (list N) (list N)) (s : State) : State :=
  mkState (USE_OLLAMA s) (messageQueue s) (isProcessingQueue s) m
          (chatContexts s) (seen s) (processedMessages s) (trace s).

Definition set_chatContexts (m : list (jsstring * list Turn)) (s : State) : State :=
  mkState (USE_OLLAMA s) (messageQueue s) (isProcessingQueue s) (chatCharacters s)
          m (seen s) (processedMessages s) (trace s).

Definition set_seen (l : list jsstring) (s : State) : State :=
  mkState (USE_OLLAMA s) (messageQueue s) (isProcessingQueue s) (chatCharacters s)
          (chatContexts s) l (processedMessages s) (trace s).

Definition set_processedMessages (l : list jsstring) (s : State) : State :=
  mkState (USE_OLLAMA s) (messageQueue s) (isProcessingQueue s) (chatCharacters s)
          (chatContexts s) (seen s) l (trace s).

Definition set_trace (t : list Event) (s : State) : State :=
  mkState (USE_OLLAMA s) (messageQueue s) (isProcessingQueue s) (chatCharacters s)
          (chatContexts s) (seen s) (processedMessages s) t.

Definition initialState : State :=
  mkState false [] false ∅ [] [] [] [].

(** ** Insertion-ordered containers

    A JavaScript [Set] and [Map] iterate in insertion order, and the
    pruning code depends on it. *)

Module Ordered.

Definition has (g : jsstring) (l : list jsstring) : bool := bool_decide (g ∈ l).

(** [set.add(g)] *)
Definition add (g : jsstring) (l : list jsstring) : list jsstring :=
  if has g l then l else l ++ [g].

(** [Array.from(x).slice(-n)] *)
Definition lastN {A} (n : nat) (l : list A) : list A := drop (length l - n) l.

(** [set.clear(); xs.forEach(g => set.add(g))] *)
Definition refill (xs : list jsstring) : list jsstring :=
  fold_left (fun acc g => add g acc) xs [].

(** The ledger clean-up of the poll cycle. *)
Definition prune (l : list jsstring) : list jsstring :=
  if (1000 <? length l)%nat then refill (lastN 500 l) else l.

Section Map.
Context {V : Type}.

Fixpoint get (k : jsstring) (m : list (jsstring * V)) : option V :=
  match m with
  | [] => None
  | (k', v) :: m' => if bool_decide (k = k') then Some v else get k m'
  end.

(** [map.set(k, v)]: an existing key keeps its place. *)
Fixpoint set (k : jsstring) (v : V) (m : list (jsstring * V)) : list (jsstring * V) :=
  match m with
  | [] => [(k, v)]
  | (k', v') :: m' =>
      if bool_decide (k = k') then (k, v) :: m' else (k', v') :: set k v m'
  end.

Fixpoint delete (k : jsstring) (m : list (jsstring * V)) : list (jsstring * V) :=
  match m with
  | [] => []
  | (k', v') :: m' =>
      if bool_decide (k = k') then m' else (k', v') :: delete k m'
  end.

(** The chat-context clean-up: all keys but the last 20 are deleted. *)
Definition pruneMap (m : list (jsstring * V)) : list (jsstring * V) :=
  if (20 <? length m)%nat then
    let chatKeys := List.map fst m in
    let oldestChats := take (length chatKeys - 20) chatKeys in
    fold_left (fun acc k => delete k acc) oldestChats m
  else m.
End Map.

End Ordered.

(** ** Effects: state, exceptions and calls to the outside *)

Inductive Outcome (A : Type) :=
| Returned (a : A)
| Thrown
| OutOfFuel.
Arguments Returned {A} a.
Arguments Thrown {A}.
Arguments OutOfFuel {A}.

Definition M (A : Type) := State -> Outcome A * State.

Definition ret {A} (a : A) : M A := fun s => (Returned a, s).

Definition bind {A B} (m : M A) (k : A -> M B) : M B :=
  fun s =>
    match m s with
    | (Returned a, s') => k a s'
    | (Thrown, s') => (Thrown, s')
    | (OutOfFuel, s') => (OutOfFuel, s')
    end.

Definition throw {A} : M A := fun s => (Thrown, s).

(** [try { m } catch { h }] *)
Definition tryCatch {A} (m h : M A) : M A :=
  fun s =>
    match m s with
    | (Thrown, s') => h s'
    | r => r
    end.

Definition get : M State := fun s => (Returned s, s).

Definition modify (f : State -> State) : M unit := fun s => (Returned tt, f s).

Definition emit (e : Event) : M unit :=
  modify (fun s => set_trace (trace s ++ [e]) s).

Notation "x <- m ;; k" := (bind m (fun x => k))
  (at level 100, m at next level, right associativity).
Notation "m ;;; k" := (bind m (fun _ => k))
  (at level 100, right associativity).

Section Program.

Variable env : Env.

(** An awaited request: logged with its answer; a rejection throws. *)
Definition call (q : Request) : M Response :=
  fun s =>
    let r := env (trace s) q in
    let s' := set_trace (trace s ++ [Called q r]) s in
    match r with
    | Rejected => (Thrown, s')
    | _ => (Returned r, s')
    end.

(** *** generateCharacterPrompt *)

Definition characterMessages (description : jsstring) : list Turn :=
  [ {| role := system; content := META_PROMPT |};
    {| role := user; content := description |} ].

Definition generateCharacterPrompt (description : jsstring) : M jsstring :=
  tryCatch
    (s <- get ;;
     completion <-
       (if USE_OLLAMA s then
          r <- call (OllamaChat (characterMessages description)) ;;
          match r with
          | OllamaContent c => ret c
          | _ => throw
          end
        else
          r <- call (OpenAIChat (characterMessages description) false) ;;
          match r with
          | Completion m =>
              match msg_content m with
              | Some c => ret c
              | None => throw
              end
          | _ => throw
          end) ;;
     ret (trim completion))
    (ret (fallbackPersona description)).

(** *** parseCommand

    [context] is the array [chatContexts.get(chatGuid)]; clearing it in
    place ([context.length = 0]) is an update of that entry. *)

Definition sendText (chat message : jsstring) : M unit :=
  call (BridgeText chat message) ;;; ret tt.

Definition parseCommand (text chat : jsstring) : M bool :=
  match matchCommand KW_CHARACTER text with
  | Some characterMatch =>
      let description := trim characterMatch in
      characterPrompt <- generateCharacterPrompt description ;;
      modify (fun s => set_chatCharacters (<[chat := characterPrompt]> (chatCharacters s)) s) ;;;
      modify (fun s => set_chatContexts (Ordered.set chat [] (chatContexts s)) s) ;;;
      sendText chat (characterUpdated description) ;;;
      ret true
  | None =>
      match matchCommand KW_UNHINGE text with
      | Some val =>
          let flag := eqb (toLowerCase (trim val)) (lit "true") in
          modify (set_USE_OLLAMA flag) ;;;
          ret true
      | None => ret false
      end
  end.

(** *** queueMessageProcessing

    The item is pushed, and [processMessageQueue()] is started without
    [await].  What follows here is the poller's own write, the push; the
    drain it starts is the separate block [processMessageQueue] below,
    whose steps (the guard, the shift, the item's processing) fall
    between the poller's later steps and are not part of this function's
    effect.  Nothing the drain throws reaches the caller. *)
Definition queueMessageProcessing (chat text : jsstring) : M unit :=
  modify (fun s =>
    set_messageQueue (messageQueue s ++ [ {| chatGuid := chat; itemText := text |} ]) s).

(** *** generateAndSendPicture *)

Definition generateAndSendPicture (chat : jsstring) (description : option jsstring) : M bool :=
  tryCatch
    (r <- call (OpenAIImage description) ;;
     match r with
     | ImageUrl imageUrl =>
         d <- call (Download imageUrl) ;;
         match d with
         | Body imageBuffer =>
             call (BridgeAttachment chat imageBuffer) ;;;
             ret true
         | _ => throw
         end
     | _ => throw
     end)
    (ret false).

(** *** processMessageQueue *)

Definition getContext (chat : jsstring) (s : State) : list Turn :=
  match Ordered.get chat (chatContexts s) with
  | Some c => c
  | None => []
  end.

(** [context.push(t)] *)
Definition pushed (chat : jsstring) (t : Turn) (s : State) : State :=
  set_chatContexts (Ordered.set chat (getContext chat s ++ [t]) (chatContexts s)) s.

Definition pushTurn (chat : jsstring) (t : Turn) : M unit := modify (pushed chat t).

(** [if (context.length > 10) context.splice(0, context.length - 10)] *)
Definition spliced (chat : jsstring) (s : State) : State :=
  let context := getContext chat s in
  if (10 <? length context)%nat
  then set_chatContexts (Ordered.set chat (drop (length context - 10) context) (chatContexts s)) s
  else s.

Definition trimContext (chat : jsstring) : M unit := modify (spliced chat).

(** [chatCharacters.get(chatGuid) || DEFAULT]: an empty persona is falsy. *)
Definition personaOf (chat : jsstring) (s : State) : jsstring :=
  match chatCharacters s !! chat with
  | Some (c :: p) => c :: p
  | _ => DEFAULT_PERSONA
  end.

(** The Ollama branch: the reply text, and a synthesized tool call when
    the sentinel occurs in it. *)
Definition ollamaCompletion (c : jsstring) : ChatMessage :=
  if includes SENTINEL c then
    let description := trim (removeFirst SENTINEL c) in
    {| msg_content := Some c;
       tool_calls := Some [ {| fn_name := REQUEST_PICTURE;
                               fn_arguments := Parsed (Some description) |} ] |}
  else {| msg_content := Some c; tool_calls := None |}.

Definition complete (chat : jsstring) : M ChatMessage :=
  s <- get ;;
  let characterPrompt := personaOf chat s in
  let context := getContext chat s in
  if USE_OLLAMA s then
    let systemContent := characterPrompt ++ OLLAMA_PICTURE_HINT in
    r <- call (OllamaChat ({| role := system; content := systemContent |} :: context)) ;;
    match r with
    | OllamaContent c => ret (ollamaCompletion c)
    | _ => throw
    end
  else
    let systemContent := characterPrompt ++ OPENAI_PICTURE_HINT in
    r <- call (OpenAIChat ({| role := system; content := systemContent |} :: context) true) ;;
    match r with
    | Completion m => ret m
    | _ => throw
    end.

(** [for (const toolCall of response.tool_calls) ...], threading [reply]. *)
Fixpoint resolveToolCalls (chat : jsstring) (calls : list ToolCall) (reply : jsstring) : M jsstring :=
  match calls with
  | [] => ret reply
  | toolCall :: calls' =>
      if eqb (fn_name toolCall) REQUEST_PICTURE then
        match fn_arguments toolCall with
        | Malformed => throw
        | Parsed description =>
            success <- generateAndSendPicture chat description ;;
            resolveToolCalls chat calls' (if success then PICTURE_SENT else PICTURE_FAILED)
        end
      else resolveToolCalls chat calls' reply
  end.

(** The text that goes out for [reply]. *)
Definition signed (reply : jsstring) : jsstring :=
  if includes SIGNATURE reply then reply else reply ++ lit " " ++ SIGNATURE.

(** How the [try] block of one iteration ends: by [continue] or by
    running off its end. *)
Inductive Exit := Continue | FellThrough.

(** [if (!chatContexts.has(chatGuid)) chatContexts.set(chatGuid, [])] *)
Definition ensureContext (chat : jsstring) : M unit :=
  modify (fun s =>
    match Ordered.get chat (chatContexts s) with
    | Some _ => s
    | None => set_chatContexts (Ordered.set chat [] (chatContexts s)) s
    end).

(** [response.content?.trim() || ""] *)
Definition replyText (response : ChatMessage) : jsstring :=
  match msg_content response with
  | Some c => trim c
  | None => []
  end.

(** [if (response.tool_calls) { for ... }] *)
Definition resolve (chat : jsstring) (response : ChatMessage) : M jsstring :=
  match tool_calls response with
  | Some calls => resolveToolCalls chat calls (replyText response)
  | None => ret (replyText response)
  end.

(** The assistant turn is pushed, then the text is posted. *)
Definition deliver (chat reply : jsstring) : M Exit :=
  pushTurn chat {| role := assistant; content := reply |} ;;;
  sendText chat (signed reply) ;;;
  ret FellThrough.

(** Everything after the gateway's answer. *)
Definition respond (chat : jsstring) (response : ChatMessage) : M Exit :=
  reply <- resolve chat response ;;
  deliver chat reply.

(** The path of a message that is not a command. *)
Definition converse (item : QueueItem) : M Exit :=
  let chat := chatGuid item in
  pushTurn chat {| role := user; content := itemText item |} ;;;
  trimContext chat ;;;
  response <- complete chat ;;
  respond chat response.

(** The part of [converse] that computes the reply. *)
Definition answer (item : QueueItem) : M jsstring :=
  let chat := chatGuid item in
  pushTurn chat {| role := user; content := itemText item |} ;;;
  trimContext chat ;;;
  response <- complete chat ;;
  resolve chat response.

(** The state in which [parseCommand] is entered. *)
Definition prepared (item : QueueItem) (s : State) : State :=
  snd ((emit (Processing item) ;;; ensureContext (chatGuid item)) s).

Definition tryBlock (item : QueueItem) : M Exit :=
  let chat := chatGuid item in
  emit (Processing item) ;;;
  ensureContext chat ;;;
  isCommand <- parseCommand (itemText item) chat ;;
  if isCommand then ret Continue else converse item.

Definition catchBlock (item : QueueItem) : M Exit :=
  sendText (chatGuid item) PROCESSING_FAILED ;;;
  ret FellThrough.

(** One iteration of the [while] loop, after the [shift]. *)
Definition iteration (item : QueueItem) : M unit :=
  e <- tryCatch (tryBlock item) (catchBlock item) ;;
  match e with
  | Continue => ret tt
  | FellThrough => emit (Sleep 500)
  end.

(** [while (messageQueue.length > 0) { ... }].  Each iteration shifts one
    item and none is pushed meanwhile, so the length of the queue is
    fuel enough ([drain_run]). *)
Fixpoint drain (fuel : nat) : M unit :=
  fun s =>
    match messageQueue s with
    | [] => (Returned tt, s)
    | item :: rest =>
        match fuel with
        | O => (OutOfFuel, s)
        | S fuel' =>
            (iteration item ;;; drain fuel') (set_messageQueue rest s)
        end
    end.

Definition processMessageQueue : M unit :=
  fun s =>
    if isProcessingQueue s || bool_decide (messageQueue s = []) then (Returned tt, s)
    else
      (modify (set_isProcessingQueue true) ;;;
       drain (length (messageQueue s)) ;;;
       modify (set_isProcessingQueue false)) s.

End Program.

(** ** The poller *)

Section Poller.

Variable env : Env.

(** [TRIGGER]: the configured bot trigger, lowered at start-up. *)
Variable TRIGGER : jsstring.

(** [startupTime]: the clock when [pollMessages] was entered. *)
Variable startupTime : N.

(** [msg.dateCreated || msg.dateDelivered || 0] *)
Definition messageTime (msg : BridgeMessage) : N :=
  match dateCreated msg with
  | Some (N.pos p) => N.pos p
  | _ =>
      match dateDelivered msg with
      | Some (N.pos p) => N.pos p
      | _ => 0
      end
  end.

(** [TRIGGERS.some(trigger => lowerText.includes(trigger.toLowerCase()))] *)
Definition containsTrigger (text : jsstring) : bool :=
  existsb (fun trigger => includes (toLowerCase trigger) (toLowerCase text))
          (TRIGGERS TRIGGER).

(** The body of the inner [for] loop. *)
Definition visitMessage (chat : jsstring) (msg : BridgeMessage) : M unit :=
  fun s =>
    match guid msg with
    | Some (c :: g') =>
        let g := c :: g' in
        if Ordered.has g (seen s) then (Returned tt, s)
        else
          let s1 := set_seen (Ordered.add g (seen s)) s in
          if messageTime msg <? startupTime then (Returned tt, s1)
          else
            let text := match text msg with Some t => t | None => [] end in
            if containsTrigger text && negb (Ordered.has g (processedMessages s1)) then
              (modify (fun s => set_processedMessages (Ordered.add g (processedMessages s)) s) ;;;
               queueMessageProcessing chat text) s1
            else (Returned tt, s1)
    | _ => (Returned tt, s)
    end.

Fixpoint forEach {A} (f : A -> M unit) (l : list A) : M unit :=
  match l with
  | [] => ret tt
  | x :: l' => f x ;;; forEach f l'
  end.

(** The body of the outer [for] loop. *)
Definition visitChat (chat : jsstring) : M unit :=
  r <- call env (BridgeMessages chat) ;;
  let messages := match r with Messages l => l | _ => [] end in
  forEach (visitMessage chat) (rev messages).

Definition cleanUp : M unit :=
  modify (fun s => set_seen (Ordered.prune (seen s)) s) ;;;
  modify (fun s => set_processedMessages (Ordered.prune (processedMessages s)) s) ;;;
  modify (fun s => set_chatContexts (Ordered.pruneMap (chatContexts s)) s).

(** One firing of the interval callback of [pollMessages]: the two nested
    loops, the [try] block they form with the clean-up, and the callback
    with its [catch]. *)
Definition pollScan : M unit :=
  r <- call env BridgeChats ;;
  let chats := match r with Chats l => l | _ => [] end in
  forEach visitChat chats.

Definition pollBody : M unit := pollScan ;;; cleanUp.

Definition pollCycle : M unit := tryCatch pollBody (ret tt).

End Poller.

(** ** Observations on states and traces *)

(** The request that persona synthesis issues under a given backend flag. *)
Definition personaRequest (flag : bool) (description : jsstring) : Request :=
  if flag then OllamaChat (characterMessages description)
  else OpenAIChat (characterMessages description) false.

(** The request the gateway issues for a chat under a given backend flag. *)
Definition chatRequest (flag : bool) (persona : jsstring) (context : list Turn) : Request :=
  if flag then
    OllamaChat ({| role := system; content := persona ++ OLLAMA_PICTURE_HINT |} :: context)
  else
    OpenAIChat ({| role := system; content := persona ++ OPENAI_PICTURE_HINT |} :: context) true.

(** The event is a request to the image backend. *)
Definition isImageRequest (e : Event) : bool :=
  match e with
  | Called (OpenAIImage _) _ => true
  | _ => false
  end.

(** The number of image-generation attempts in a stretch of the trace. *)
Definition imageAttempts (t : list Event) : nat := length (filter isImageRequest t).

(** The text messages posted to the bridge, in order: [(chat, message)]. *)
Fixpoint textsSent (t : list Event) : list (jsstring * jsstring) :=
  match t with
  | [] => []
  | Called (BridgeText chat message) _ :: t' => (chat, message) :: textsSent t'
  | _ :: t' => textsSent t'
  end.

(** The items whose processing started, in order. *)
Fixpoint itemsStarted (t : list Event) : list QueueItem :=
  match t with
  | [] => []
  | Processing item :: t' => item :: itemsStarted t'
  | _ :: t' => itemsStarted t'
  end.

(** The event is a pacing delay. *)
Definition isSleep (e : Event) : bool :=
  match e with
  | Sleep _ => true
  | _ => false
  end.

(** The pacing delays in a stretch of the trace. *)
Definition delays (t : list Event) : nat := length (filter isSleep t).

(** What the synthesis code reads out of a backend's answer; [None] when it
    is rejected or has not the expected shape. *)
Definition completionText (flag : bool) (r : Response) : option jsstring :=
  if flag then
    match r with
    | OllamaContent c => Some c
    | _ => None
    end
  else
    match r with
    | Completion m => msg_content m
    | _ => None
    end.

(** The fallback persona in the words of the specification. *)
Definition fallbackPersonaAsSpecified (description : jsstring) : jsstring :=
  lit "You are " ++ description ++ lit ". Embody this character fully.".

(** ** Vocabulary of the statements *)

(** [quiet ok m]: running [m] appends events satisfying [ok] to the trace
    and changes nothing else, however it ends; it does not run out of
    fuel. *)
Definition quiet {A} (ok : Event -> Prop) (m : M A) : Prop :=
  forall s,
    fst (m s) <> OutOfFuel
    /\ exists evs, snd (m s) = set_trace (trace s ++ evs) s /\ Forall ok evs.

(** The events one item may cause besides its start mark and its pacing
    delay: requests, and among them texts to the item's own chat only. *)
Definition requestFor (chat : jsstring) (e : Event) : Prop :=
  match e with
  | Called (BridgeText c _) _ => c = chat
  | Called _ _ => True
  | _ => False
  end.

(** [triple P m Q E]: from a state satisfying [P], [m] either returns [a]
    in a state satisfying [Q a], or stops early in a state satisfying [E]. *)
Definition triple {A} (P : State -> Prop) (m : M A)
           (Q : A -> State -> Prop) (E : State -> Prop) : Prop :=
  forall s, P s ->
    match m s with
    | (Returned a, s') => Q a s'
    | (_, s') => E s'
    end.

(** A predicate that does not look at the trace. *)
Definition traceBlind (I : State -> Prop) : Prop :=
  forall t s, I s -> I (set_trace t s).

(** Every stored context holds at most [n] turns. *)
Definition windowed (n : nat) (s : State) : Prop :=
  Forall (fun kv => (length (snd kv) <= n)%nat) (chatContexts s).

(** Ten at most for the chat at hand, eleven at most for every chat. *)
Definition cut (chat : jsstring) (s : State) : Prop :=
  windowed 11 s /\ (length (getContext chat s) <= 10)%nat.

(** [emits ok m]: running [m] appends events satisfying [ok] to the trace,
    however it ends (the rest of the state may change); it does not run
    out of fuel. *)
Definition emits {A} (ok : Event -> Prop) (m : M A) : Prop :=
  forall s,
    fst (m s) <> OutOfFuel
    /\ exists evs, trace (snd (m s)) = trace s ++ evs /\ Forall ok evs.

(** What the gateway reads out of a backend's answer. *)
Definition gatewayResult (flag : bool) (r : Response) : option ChatMessage :=
  if flag then
    match r with
    | OllamaContent c => Some (ollamaCompletion c)
    | _ => None
    end
  else
    match r with
    | Completion m => Some m
    | _ => None
    end.

(** A structural [request_picture] tool call, as the hosted backend
    returns it. *)
Definition pictureCall (description : jsstring) : ToolCall :=
  {| fn_name := REQUEST_PICTURE; fn_arguments := Parsed (Some description) |}.

(** A hosted-backend message carrying one such call beside any text. *)
Definition structuralReply (content : option jsstring) (description : jsstring) : ChatMessage :=
  {| msg_content := content; tool_calls := Some [pictureCall description] |}.

(** The reply that replaces the model's text after a picture attempt. *)
Definition confirmation (success : bool) : jsstring :=
  if success then PICTURE_SENT else PICTURE_FAILED.

(** A predicate on states that ignores the trace, the contexts and the
    character registry. *)
Definition settled (I : State -> Prop) : Prop :=
  traceBlind I
  /\ (forall m s, I s -> I (set_chatContexts m s))
  /\ (forall m s, I s -> I (set_chatCharacters m s)).

(** A predicate on states that ignores the backend flag. *)
Definition flagBlind (I : State -> Prop) : Prop :=
  forall b s, I s -> I (set_USE_OLLAMA b s).

(** The text makes [parseCommand] take its [@unhinge] branch. *)
Definition isUnhingeCommand (text : jsstring) : bool :=
  match matchCommand KW_CHARACTER text with
  | Some _ => false
  | None =>
      match matchCommand KW_UNHINGE text with
      | Some _ => true
      | None => false
      end
  end.

(** The text makes [parseCommand] take one of its command branches. *)
Definition isCommandText (text : jsstring) : bool :=
  match matchCommand KW_CHARACTER text with
  | Some _ => true
  | None =>
      match matchCommand KW_UNHINGE text with
      | Some _ => true
      | None => false
      end
  end.

(** A predicate on states that ignores everything a poll cycle writes. *)
Definition pollBlind (I : State -> Prop) : Prop :=
  traceBlind I
  /\ (forall l s, I s -> I (set_seen l s))
  /\ (forall l s, I s -> I (set_processedMessages l s))
  /\ (forall q s, I s -> I (set_messageQueue q s))
  /\ (forall s, I s -> I (set_chatContexts (Ordered.pruneMap (chatContexts s)) s)).

(** The events of an item the loop got through: the start mark, requests
    (texts only to the item's chat), and the pacing delay, which only an
    item whose text is a command may go without. *)
Definition servedBlock (item : QueueItem) (block : list Event) : Prop :=
  exists evs tail,
    block = Processing item :: evs ++ tail
    /\ Forall (requestFor (chatGuid item)) evs
    /\ (tail = [Sleep 500] \/ (tail = [] /\ isCommandText (itemText item) = true)).

(** The events of an item whose failure reply the bridge rejected. *)
Definition abortedBlock (item : QueueItem) (block : list Event) : Prop :=
  exists evs,
    block = Processing item
            :: evs ++ [Called (BridgeText (chatGuid item) PROCESSING_FAILED) Rejected]
    /\ Forall (requestFor (chatGuid item)) evs.

(** Both ledgers hold each identifier once. *)
Definition ledgersDistinct (s : State) : Prop :=
  NoDup (seen s) /\ NoDup (processedMessages s).

(** [k] spells the keyword [kw], letter case apart. *)
Definition sameLetters (kw k : jsstring) : Prop :=
  Forall2 (fun a b => canonicalize a = canonicalize b) kw k.

(** Every unit of [ws] is white space. *)
Definition whiteSpaces (ws : jsstring) : Prop :=
  Forall (fun w => isWhiteSpace w = true) ws.

(** The keyword, then white space, then a unit that is no line terminator,
    at the front of [s]. *)
Definition describedAt (kw s : jsstring) : Prop :=
  exists k ws c rest,
    s = k ++ ws ++ c :: rest
    /\ sameLetters kw k /\ ws <> [] /\ whiteSpaces ws /\ isLineTerminator c = false.

(** The same somewhere in [text]: the keyword is followed by a description. *)
Definition described (kw text : jsstring) : Prop :=
  exists pre s, text = pre ++ s /\ describedAt kw s.


(** The state after the loop body has served [items], one after another. *)
Fixpoint served (env : Env) (items : list QueueItem) (s : State) : State :=
  match items with
  | [] => s
  | item :: rest => served env rest (snd (iteration env item s))
  end.

(** ** Vocabulary of the further properties *)

(** The event is one of the poller's two bridge queries. *)
Definition isQuery (e : Event) : Prop :=
  match e with
  | Called BridgeChats _ => True
  | Called (BridgeMessages _) _ => True
  | _ => False
  end.

(** Since [s0], the processed ledger has grown by [ids] and the queue by as
    many items, each carrying a trigger. *)
Definition enqueuedSince (TRIGGER : jsstring) (s0 s : State) : Prop :=
  exists ids items,
    processedMessages s = processedMessages s0 ++ ids
    /\ messageQueue s = messageQueue s0 ++ items
    /\ length ids = length items
    /\ Forall (fun it => containsTrigger TRIGGER (itemText it) = true) items.

(** The message predates the start of the poller. *)
Definition isOld (startupTime : N) (msg : BridgeMessage) : Prop :=
  messageTime msg < startupTime.

(** The identifier of a message, when it has a usable one, is in [l]. *)
Definition guidIn (l : list jsstring) (msg : BridgeMessage) : Prop :=
  match guid msg with
  | Some (c :: g) => (c :: g) ∈ l
  | _ => True
  end.

(** The events of the picture pipeline: the image request, the download,
    and an attachment for the chat at hand. *)
Definition pictureEvent (chat : jsstring) (e : Event) : Prop :=
  match e with
  | Called (OpenAIImage _) _ => True
  | Called (Download _) _ => True
  | Called (BridgeAttachment c _) _ => c = chat
  | _ => False
  end.

(** The tool call asks for a picture. *)
Definition isPictureCall (c : ToolCall) : bool := eqb (fn_name c) REQUEST_PICTURE.

(** The number of picture requests among tool calls. *)
Definition pictureCalls (calls : list ToolCall) : nat :=
  length (List.filter isPictureCall calls).

(** Every picture request among the calls has arguments that parse. *)
Definition parsable (calls : list ToolCall) : Prop :=
  Forall (fun c => isPictureCall c = true -> fn_arguments c <> Malformed) calls.

(** The message asks for no picture. *)
Definition plain (m : ChatMessage) : Prop :=
  match tool_calls m with
  | Some calls => pictureCalls calls = 0%nat
  | None => True
  end.

(** A predicate on states that ignores the trace, the backend flag and
    the context stored for [chat]. *)
Definition chatLocal (chat : jsstring) (I : State -> Prop) : Prop :=
  traceBlind I
  /\ flagBlind I
  /\ (forall v s, I s -> I (set_chatContexts (Ordered.set chat v (chatContexts s)) s)).

(** A predicate on states that ignores the persona registered for [chat]. *)
Definition registryLocal (chat : jsstring) (I : State -> Prop) : Prop :=
  forall p s, I s -> I (set_chatCharacters (<[chat := p]> (chatCharacters s)) s).

(** A predicate on states that ignores the queue and its guard. *)
Definition queueBlind (I : State -> Prop) : Prop :=
  (forall q s, I s -> I (set_messageQueue q s))
  /\ (forall b s, I s -> I (set_isProcessingQueue b s)).

(** What is stored about [chat], and the two ledgers. *)
Definition aboutChat (chat : jsstring) (s : State)
  : option (list Turn) * option jsstring * list jsstring * list jsstring :=
  (Ordered.get chat (chatContexts s), chatCharacters s !! chat, seen s, processedMessages s).

(** The text does not make [parseCommand] take its [@character] branch. *)
Definition noCharacterCommand (it : QueueItem) : Prop :=
  matchCommand KW_CHARACTER (itemText it) = None.

(** No unit of [l] is a line terminator. *)
Definition oneLine (l : jsstring) : Prop :=
  Forall (fun c => isLineTerminator c = false) l.

(** [l] is empty or begins with a line terminator. *)
Definition atLineEnd (l : jsstring) : Prop :=
  match l with
  | [] => True
  | c :: _ => isLineTerminator c = true
  end.

(** Every unit of [kw] is the at sign or a small Basic Latin letter. *)
Definition smallLetters (kw : jsstring) : Prop :=
  Forall (fun a => a = 64 \/ (97 <= a /\ a <= 122)) kw.

(** ** Scenarios

    Concrete worlds and inputs used to run the definitions. *)

Module Scenario.

(** Every service answers. *)
Definition worldUp : Env := fun _ q =>
  match q with
  | OpenAIChat _ _ => Completion {| msg_content := Some (lit "hi there"); tool_calls := None |}
  | OllamaChat _ => OllamaContent (lit "Arr, matey.")
  | OpenAIImage _ => ImageUrl (lit "https://img/1")
  | Download _ => Body (lit "PNG")
  | BridgeText _ _ => Accepted
  | BridgeAttachment _ _ => Accepted
  | BridgeChats => Chats []
  | BridgeMessages _ => Messages []
  end.

(** Both chat backends reject every request. *)
Definition backendsDown : Env := fun h q =>
  match q with
  | OpenAIChat _ _ => Rejected
  | OllamaChat _ => Rejected
  | _ => worldUp h q
  end.

(** The bridge rejects every outbound text. *)
Definition bridgeDown : Env := fun h q =>
  match q with
  | BridgeText _ _ => Rejected
  | _ => worldUp h q
  end.

Definition chatA : jsstring := lit "iMessage;+;chat-a".
Definition chatB : jsstring := lit "iMessage;+;chat-b".
Definition chatC : jsstring := lit "iMessage;+;chat-c".

Definition unhinged : State := set_USE_OLLAMA true initialState.

Definition item (chat : jsstring) (t : string) : QueueItem :=
  {| chatGuid := chat; itemText := lit t |}.

Definition hello : QueueItem := item chatA "@ava hello".

(** Six plain messages from one chat, queued. *)
Definition sixQueued : State :=
  set_messageQueue
    [ item chatA "@ava 1"; item chatA "@ava 2"; item chatA "@ava 3";
      item chatA "@ava 4"; item chatA "@ava 5"; item chatA "@ava 6" ]
    initialState.

(** Two plain messages queued, from two chats. *)
Definition twoQueued : State :=
  set_messageQueue [ hello; item chatB "@ava second" ] initialState.

(** A handled command queued ahead of a plain message. *)
Definition commandThenMessage : State :=
  set_messageQueue [ item chatA "@unhinge true"; item chatB "@ava hi" ] initialState.

(** A ledger at its threshold: a thousand identifiers. *)
Definition fullLedger : list jsstring :=
  List.map (fun n => [N.of_nat n]) (seq 1 1000).

Definition ledgerFull : State := set_seen fullLedger initialState.

Definition goodMorning : BridgeMessage :=
  {| guid := Some (lit "fresh"); dateCreated := Some 10; dateDelivered := None;
     text := Some (lit "good morning") |}.

(** The bridge lists two chats, answers for the first and rejects the
    message query of the second. *)
Definition flakyBridge : Env := fun h q =>
  match q with
  | BridgeChats => Chats [chatA; chatB]
  | BridgeMessages c => if eqb c chatA then Messages [goodMorning] else Rejected
  | _ => worldUp h q
  end.

(** The bridge lists one chat holding that one new message. *)
Definition oneFresh : Env := fun h q =>
  match q with
  | BridgeChats => Chats [chatA]
  | BridgeMessages _ => Messages [goodMorning]
  | _ => worldUp h q
  end.

(** The bridge lists one chat holding one message, a bare "@character". *)
Definition bareCharacterListed : Env := fun h q =>
  match q with
  | BridgeChats => Chats [chatA]
  | BridgeMessages _ =>
      Messages [ {| guid := Some (lit "m1"); dateCreated := Some 5;
                    dateDelivered := None; text := Some (lit "@character") |} ]
  | _ => worldUp h q
  end.

(** A message sent before the poller started. *)
Definition yesterday : BridgeMessage :=
  {| guid := Some (lit "old-1"); dateCreated := Some 2; dateDelivered := None;
     text := Some (lit "@ava are you there") |}.

(** The bridge lists that one old message for every chat. *)
Definition historyOnly : Env := fun h q =>
  match q with
  | BridgeChats => Chats [chatA]
  | BridgeMessages _ => Messages [yesterday]
  | _ => worldUp h q
  end.

(** Two tool calls: one for a tool the program does not know, one for a
    picture. *)
Definition mixedCalls : list ToolCall :=
  [ {| fn_name := lit "get_weather"; fn_arguments := Malformed |};
    {| fn_name := REQUEST_PICTURE; fn_arguments := Parsed (Some (lit "a red bicycle")) |} ].

End Scenario.

Ltac run :=
  repeat (progress (unfold bind, ret, throw, modify, get, emit, tryCatch, call, sendText; simpl)).

(** ** Facts about the insertion-ordered containers *)

Module OrderedFacts.
Import Ordered.

Lemma get_set_eq {V} k (v : V) m : get k (set k v m) = Some v.
Proof.
  induction m as [| [k' v'] m IH]; simpl.
  - rewrite bool_decide_eq_true_2; reflexivity.
  - destruct (bool_decide (k = k')) eqn:E; simpl.
    + rewrite bool_decide_eq_true_2; reflexivity.
    + rewrite E. exact IH.
Qed.

Lemma get_set_ne {V} k k' (v : V) m : k <> k' -> get k' (set k v m) = get k' m.
Proof.
  intros Hne. induction m as [| [k0 v0] m IH]; simpl.
  - rewrite bool_decide_eq_false_2; [reflexivity | congruence].
  - destruct (bool_decide (k = k0)) eqn:E; simpl.
    + apply bool_decide_eq_true_1 in E. subst k0.
      rewrite !bool_decide_eq_false_2 by congruence. reflexivity.
    + destruct (bool_decide (k' = k0)); [reflexivity | exact IH].
Qed.

Lemma set_set {V} k (v1 v2 : V) m : set k v2 (set k v1 m) = set k v2 m.
Proof.
  induction m as [| [k' v'] m IH]; simpl.
  - rewrite bool_decide_eq_true_2; reflexivity.
  - destruct (bool_decide (k = k')) eqn:E; simpl.
    + rewrite bool_decide_eq_true_2; reflexivity.
    + rewrite E, IH. reflexivity.
Qed.

End OrderedFacts.

(** ** Persona synthesis and the [@character] command *)

Section CharacterCommand.

Variable env : Env.

(** What [parseCommand] does once persona synthesis has returned [p]. *)
Lemma parseCommand_character text chat s cap p s1 :
  matchCommand KW_CHARACTER text = Some cap ->
  generateCharacterPrompt env (trim cap) s = (Returned p, s1) ->
  let q := BridgeText chat (characterUpdated (trim cap)) in
  let r := env (trace s1) q in
  parseCommand env text chat s
  = (match r with Rejected => Thrown | _ => Returned true end,
     set_trace (trace s1 ++ [Called q r])
       (set_chatContexts (Ordered.set chat [] (chatContexts s1))
          (set_chatCharacters (<[chat := p]> (chatCharacters s1)) s1))).
Proof.
  intros Hm Hg. unfold parseCommand. rewrite Hm.
  unfold bind at 1. rewrite Hg. run.
  destruct (env (trace s1) (BridgeText chat (characterUpdated (trim cap))));
    reflexivity.
Qed.

Lemma generateCharacterPrompt_value description s :
  let q := personaRequest (USE_OLLAMA s) description in
  let r := env (trace s) q in
  generateCharacterPrompt env description s
  = (Returned (match completionText (USE_OLLAMA s) r with
               | Some c => trim c
               | None => fallbackPersona description
               end),
     set_trace (trace s ++ [Called q r]) s).
Proof.
  unfold generateCharacterPrompt, personaRequest, completionText. run.
  destruct (USE_OLLAMA s) eqn:Hflag; run.
  - destruct (env (trace s) (OllamaChat (characterMessages description)));
      reflexivity.
  - destruct (env (trace s) (OpenAIChat (characterMessages description) false))
      as [| m | | | | | |]; try reflexivity.
    simpl. destruct (msg_content m); reflexivity.
Qed.

(** C1, amended.  A [@character] command sends the fixed meta-prompt to
    the backend the Backend Selection Flag selects: to Ollama when the
    flag is set, to OpenAI when it is clear.  It is the only chat request
    of the command; the confirmation to the bridge follows it. *)
Theorem character_synthesis_uses_selected_backend text chat s cap :
  matchCommand KW_CHARACTER text = Some cap ->
  let q := personaRequest (USE_OLLAMA s) (trim cap) in
  exists r,
    trace (snd (parseCommand env text chat s))
    = trace s ++ [ Called q (env (trace s) q);
                   Called (BridgeText chat (characterUpdated (trim cap))) r ].
Proof.
  intros Hm q.
  pose proof (generateCharacterPrompt_value (trim cap) s) as Hg. simpl in Hg.
  rewrite (parseCommand_character text chat s cap _ _ Hm Hg). simpl.
  eexists. rewrite <- app_assoc. reflexivity.
Qed.

(** C5, amended.  When persona synthesis fails (the backend rejects the
    request or answers without usable text), [generateCharacterPrompt]
    returns the persona "You are <description>. Embody this character
    fully in your responses." without raising; the command stores it as
    the chat's override, clears the chat's context and posts the
    confirmation, and it returns handled when the bridge accepts that
    post. *)
Theorem character_fallback_completes_command text chat s cap :
  matchCommand KW_CHARACTER text = Some cap ->
  let d := trim cap in
  let q := personaRequest (USE_OLLAMA s) d in
  completionText (USE_OLLAMA s) (env (trace s) q) = None ->
  fst (generateCharacterPrompt env d s) = Returned (fallbackPersona d)
  /\ chatCharacters (snd (parseCommand env text chat s)) !! chat = Some (fallbackPersona d)
  /\ getContext chat (snd (parseCommand env text chat s)) = []
  /\ exists r,
       trace (snd (parseCommand env text chat s))
       = trace s ++ [ Called q (env (trace s) q);
                      Called (BridgeText chat (characterUpdated d)) r ]
       /\ fst (parseCommand env text chat s)
          = match r with Rejected => Thrown | _ => Returned true end.
Proof.
  intros Hm d q Hfail.
  pose proof (generateCharacterPrompt_value d s) as Hg. simpl in Hg.
  fold q in Hg. rewrite Hfail in Hg.
  rewrite (parseCommand_character text chat s cap _ _ Hm Hg). simpl.
  rewrite Hg. simpl. repeat split.
  - apply lookup_insert_eq.
  - unfold getContext. simpl. rewrite OrderedFacts.get_set_eq. reflexivity.
  - eexists. split; [rewrite <- app_assoc; reflexivity | reflexivity].
Qed.

End CharacterCommand.

Lemma character_synthesis_uses_selected_backend_witness :
  matchCommand KW_CHARACTER (lit "@character pirate") = Some (lit "pirate")
  /\ exists r,
       trace (snd (parseCommand Scenario.worldUp (lit "@character pirate")
                     Scenario.chatA Scenario.unhinged))
       = trace Scenario.unhinged
         ++ [ Called (personaRequest true (trim (lit "pirate")))
                (Scenario.worldUp [] (personaRequest true (trim (lit "pirate"))));
              Called (BridgeText Scenario.chatA (characterUpdated (trim (lit "pirate")))) r ].
Proof.
  split.
  - vm_compute. reflexivity.
  - apply (character_synthesis_uses_selected_backend Scenario.worldUp
             (lit "@character pirate") Scenario.chatA Scenario.unhinged (lit "pirate")).
    vm_compute. reflexivity.
Defined.

(** C1 as stated fails: with the flag set, the meta-prompt of
    [@character pirate] goes to Ollama and no request reaches OpenAI. *)
Lemma character_synthesis_not_always_hosted :
  trace (snd (parseCommand Scenario.worldUp (lit "@character pirate")
                Scenario.chatA Scenario.unhinged))
  = [ Called (OllamaChat (characterMessages (lit "pirate"))) (OllamaContent (lit "Arr, matey."));
      Called (BridgeText Scenario.chatA (characterUpdated (lit "pirate"))) Accepted ]
  /\ ~ (exists r,
          In (Called (OpenAIChat (characterMessages (lit "pirate")) false) r)
             (trace (snd (parseCommand Scenario.worldUp (lit "@character pirate")
                            Scenario.chatA Scenario.unhinged)))).
Proof.
  assert (Ht : trace (snd (parseCommand Scenario.worldUp (lit "@character pirate")
                             Scenario.chatA Scenario.unhinged))
               = [ Called (OllamaChat (characterMessages (lit "pirate")))
                     (OllamaContent (lit "Arr, matey."));
                   Called (BridgeText Scenario.chatA (characterUpdated (lit "pirate"))) Accepted ])
    by (vm_compute; reflexivity).
  split; [exact Ht |].
  rewrite Ht. intros [r [H | [H | []]]]; discriminate H.
Qed.

Lemma character_fallback_completes_command_witness :
  matchCommand KW_CHARACTER (lit "@character pirate") = Some (lit "pirate")
  /\ completionText (USE_OLLAMA initialState)
       (Scenario.backendsDown (trace initialState)
          (personaRequest (USE_OLLAMA initialState) (trim (lit "pirate")))) = None
  /\ chatCharacters (snd (parseCommand Scenario.backendsDown (lit "@character pirate")
                            Scenario.chatA initialState)) !! Scenario.chatA
     = Some (fallbackPersona (trim (lit "pirate"))).
Proof.
  assert (Hm : matchCommand KW_CHARACTER (lit "@character pirate") = Some (lit "pirate"))
    by (vm_compute; reflexivity).
  assert (Hf : completionText (USE_OLLAMA initialState)
                 (Scenario.backendsDown (trace initialState)
                    (personaRequest (USE_OLLAMA initialState) (trim (lit "pirate")))) = None)
    by (vm_compute; reflexivity).
  split; [exact Hm | split; [exact Hf |]].
  exact (proj1 (proj2 (character_fallback_completes_command Scenario.backendsDown
                         (lit "@character pirate") Scenario.chatA initialState
                         (lit "pirate") Hm Hf))).
Defined.

(** C5 as stated fails: the fallback persona is not the text the
    specification quotes. *)
Lemma character_fallback_text_differs :
  fst (generateCharacterPrompt Scenario.backendsDown (lit "pirate") initialState)
  = Returned (lit "You are pirate. Embody this character fully in your responses.")
  /\ fst (generateCharacterPrompt Scenario.backendsDown (lit "pirate") initialState)
     <> Returned (fallbackPersonaAsSpecified (lit "pirate")).
Proof.
  split.
  - vm_compute. reflexivity.
  - vm_compute. intros H. discriminate H.
Qed.

(** ** Programs that only talk to the outside *)

Lemma set_trace_nil s : set_trace (trace s ++ []) s = s.
Proof. destruct s. unfold set_trace. simpl. rewrite app_nil_r. reflexivity. Qed.

Lemma set_trace_app t1 t2 s :
  set_trace (trace (set_trace (trace s ++ t1) s) ++ t2) (set_trace (trace s ++ t1) s)
  = set_trace (trace s ++ t1 ++ t2) s.
Proof. unfold set_trace. simpl. rewrite app_assoc. reflexivity. Qed.

Section Quiet.

Variable env : Env.
Context {ok : Event -> Prop}.

Lemma quiet_ret {A} (a : A) : quiet ok (ret a).
Proof.
  intros s. split; [discriminate |]. exists []. simpl. rewrite set_trace_nil. auto.
Qed.

Lemma quiet_throw {A} : quiet ok (@throw A).
Proof.
  intros s. split; [discriminate |]. exists []. simpl. rewrite set_trace_nil. auto.
Qed.

Lemma quiet_get : quiet ok get.
Proof.
  intros s. split; [discriminate |]. exists []. simpl. rewrite set_trace_nil. auto.
Qed.

Lemma quiet_bind {A B} (m : M A) (k : A -> M B) :
  quiet ok m -> (forall a, quiet ok (k a)) -> quiet ok (bind m k).
Proof.
  intros Hm Hk s. destruct (Hm s) as (N1 & e1 & E1 & F1).
  unfold bind. destruct (m s) as [[a | |] s1]; simpl in E1, N1; subst s1.
  - destruct (Hk a (set_trace (trace s ++ e1) s)) as (N2 & e2 & E2 & F2).
    split; [exact N2 |].
    exists (e1 ++ e2). rewrite E2, set_trace_app. split; [reflexivity |].
    apply Forall_app; auto.
  - split; [discriminate |]. exists e1. auto.
  - contradiction.
Qed.

Lemma quiet_tryCatch {A} (m h : M A) :
  quiet ok m -> quiet ok h -> quiet ok (tryCatch m h).
Proof.
  intros Hm Hh s. destruct (Hm s) as (N1 & e1 & E1 & F1).
  unfold tryCatch. destruct (m s) as [[a | |] s1]; simpl in E1, N1; subst s1.
  - split; [discriminate |]. exists e1. auto.
  - destruct (Hh (set_trace (trace s ++ e1) s)) as (N2 & e2 & E2 & F2).
    split; [exact N2 |].
    exists (e1 ++ e2). rewrite E2, set_trace_app. split; [reflexivity |].
    apply Forall_app; auto.
  - contradiction.
Qed.

Lemma quiet_call q : (forall r, ok (Called q r)) -> quiet ok (call env q).
Proof.
  intros Hq s. unfold call.
  split; [destruct (env (trace s) q); discriminate |].
  exists [Called q (env (trace s) q)].
  destruct (env (trace s) q); simpl; split; auto.
Qed.

End Quiet.

Section QuietPrograms.

Variable env : Env.
Variable chat : jsstring.

Ltac quiet_step :=
  first [ apply quiet_ret | apply quiet_throw | apply quiet_get
        | apply quiet_call; intros; exact I
        | apply quiet_call; intros; reflexivity
        | apply quiet_bind; [| intros ?]
        | apply quiet_tryCatch ].

Lemma quiet_sendText message : quiet (requestFor chat) (sendText env chat message).
Proof. unfold sendText. repeat quiet_step. Qed.

Lemma quiet_generateCharacterPrompt description :
  quiet (requestFor chat) (generateCharacterPrompt env description).
Proof.
  unfold generateCharacterPrompt. repeat quiet_step.
  destruct (USE_OLLAMA a); repeat quiet_step.
  - destruct a0; repeat quiet_step.
  - destruct a0 as [| m | | | | | |]; repeat quiet_step.
    destruct (msg_content m); repeat quiet_step.
Qed.

Lemma quiet_generateAndSendPicture description :
  quiet (requestFor chat) (generateAndSendPicture env chat description).
Proof.
  unfold generateAndSendPicture. repeat quiet_step.
  destruct a; repeat quiet_step.
  destruct a; repeat quiet_step.
Qed.

Lemma quiet_resolveToolCalls calls reply :
  quiet (requestFor chat) (resolveToolCalls env chat calls reply).
Proof.
  revert reply. induction calls as [| c calls IH]; intros reply; simpl.
  - apply quiet_ret.
  - destruct (eqb (fn_name c) REQUEST_PICTURE); [| apply IH].
    destruct (fn_arguments c); [apply quiet_throw |].
    apply quiet_bind; [apply quiet_generateAndSendPicture | intros ?; apply IH].
Qed.

Lemma quiet_resolve response : quiet (requestFor chat) (resolve env chat response).
Proof.
  unfold resolve. destruct (tool_calls response);
    [apply quiet_resolveToolCalls | apply quiet_ret].
Qed.

Lemma quiet_complete : quiet (requestFor chat) (complete env chat).
Proof.
  unfold complete. repeat quiet_step.
  destruct (USE_OLLAMA a); repeat quiet_step.
  - destruct a0; repeat quiet_step.
  - destruct a0; repeat quiet_step.
Qed.

End QuietPrograms.

(** ** A small program logic *)

Section Triples.

Lemma triple_ret {A} (a : A) (P : State -> Prop) E : triple P (ret a) (fun _ => P) E.
Proof. intros s H. exact H. Qed.

Lemma triple_modify f (P Q : State -> Prop) E :
  (forall s, P s -> Q (f s)) -> triple P (modify f) (fun _ => Q) E.
Proof. intros H s Hs. apply H, Hs. Qed.

Lemma triple_bind {A B} (m : M A) (k : A -> M B) P Q R E :
  triple P m Q E -> (forall a, triple (Q a) (k a) R E) -> triple P (bind m k) R E.
Proof.
  intros Hm Hk s Hs. specialize (Hm s Hs). unfold bind.
  destruct (m s) as [[a | |] s1]; auto. apply Hk, Hm.
Qed.

Lemma triple_tryCatch {A} (m h : M A) P Q E1 E :
  triple P m Q E1 -> triple E1 h Q E -> (forall s, E1 s -> E s) ->
  triple P (tryCatch m h) Q E.
Proof.
  intros Hm Hh Hw s Hs. specialize (Hm s Hs). unfold tryCatch.
  destruct (m s) as [[a | |] s1]; auto. apply Hh, Hm.
Qed.

Lemma triple_weaken {A} (m : M A) (P P' : State -> Prop) (Q Q' : A -> State -> Prop)
      (E E' : State -> Prop) :
  triple P m Q E ->
  (forall s, P' s -> P s) -> (forall a s, Q a s -> Q' a s) -> (forall s, E s -> E' s) ->
  triple P' m Q' E'.
Proof.
  intros Hm HP HQ HE s Hs. specialize (Hm s (HP s Hs)).
  destruct (m s) as [[a | |] s1]; auto.
Qed.

Lemma triple_quiet {A} ok (m : M A) (I : State -> Prop) :
  quiet ok m -> traceBlind I -> triple I m (fun _ => I) I.
Proof.
  intros Hq Hb s Hs. destruct (Hq s) as (_ & evs & E & _).
  destruct (m s) as [[a | |] s1]; simpl in E; subst s1; apply Hb, Hs.
Qed.

(** The state a triple promises, whatever the outcome. *)
Lemma triple_final {A} (m : M A) (P I : State -> Prop) :
  triple P m (fun _ => I) I -> forall s, P s -> I (snd (m s)).
Proof.
  intros Hm s Hs. specialize (Hm s Hs). destruct (m s) as [[a | |] s1]; exact Hm.
Qed.

End Triples.

(** ** The context window *)

Section ContextWindow.

Variable env : Env.

Lemma forall_set {V} (P : jsstring * V -> Prop) k v m :
  Forall P m -> P (k, v) -> Forall P (Ordered.set k v m).
Proof.
  intros Hm Hv. induction Hm as [| [k' v'] m Hx Hm IH]; simpl.
  - constructor; [exact Hv | constructor].
  - destruct (bool_decide (k = k')); constructor; auto.
Qed.

Lemma forall_delete {V} (P : jsstring * V -> Prop) k m :
  Forall P m -> Forall P (Ordered.delete k m).
Proof.
  intros Hm. induction Hm as [| [k' v'] m Hx Hm IH]; simpl.
  - constructor.
  - destruct (bool_decide (k = k')); [exact Hm | constructor; auto].
Qed.

Lemma forall_get {V} (P : jsstring * V -> Prop) k v m :
  Forall P m -> Ordered.get k m = Some v -> P (k, v).
Proof.
  intros Hm. induction Hm as [| [k' v'] m Hx Hm IH]; simpl; [discriminate |].
  destruct (bool_decide (k = k')) eqn:Ek.
  - apply bool_decide_eq_true_1 in Ek. subst k'. intros [= ->]. exact Hx.
  - exact IH.
Qed.

Lemma windowed_getContext n chat s :
  windowed n s -> (length (getContext chat s) <= n)%nat.
Proof.
  intros Hw. unfold getContext. destruct (Ordered.get chat (chatContexts s)) eqn:Hg.
  - exact (forall_get _ _ _ _ Hw Hg).
  - simpl. lia.
Qed.

Lemma windowed_traceBlind n : traceBlind (windowed n).
Proof. intros t s H. exact H. Qed.

Lemma windowed_set n chat v s :
  windowed n s -> (length v <= n)%nat ->
  windowed n (set_chatContexts (Ordered.set chat v (chatContexts s)) s).
Proof. intros Hw Hv. unfold windowed. simpl. apply forall_set; auto. Qed.

Lemma getContext_set chat v m s :
  getContext chat (set_chatContexts (Ordered.set chat v m) s) = v.
Proof. unfold getContext. simpl. rewrite OrderedFacts.get_set_eq. reflexivity. Qed.

Lemma lastN_length {A} n (l : list A) : (length (Ordered.lastN n l) <= n)%nat.
Proof. unfold Ordered.lastN. rewrite length_drop. lia. Qed.

(** The user turn is pushed and the window is cut back to ten. *)
Lemma pushTrim_context chat t s :
  getContext chat (spliced chat (pushed chat t s))
  = Ordered.lastN 10 (getContext chat s ++ [t]).
Proof.
  unfold spliced, pushed. rewrite getContext_set.
  unfold Ordered.lastN.
  destruct (10 <? length (getContext chat s ++ [t]))%nat eqn:Hlen.
  - rewrite getContext_set. reflexivity.
  - rewrite getContext_set. apply Nat.ltb_ge in Hlen.
    replace (length (getContext chat s ++ [t]) - 10)%nat with 0%nat by lia.
    reflexivity.
Qed.

Lemma pushTrim_cut chat t s : windowed 11 s -> cut chat (spliced chat (pushed chat t s)).
Proof.
  intros Hw. split; [| rewrite pushTrim_context; apply lastN_length].
  unfold spliced, pushed. rewrite getContext_set.
  destruct (10 <? length (getContext chat s ++ [t]))%nat eqn:Hlen.
  - simpl. unfold windowed. simpl. rewrite OrderedFacts.set_set.
    apply forall_set; [exact Hw |]. simpl. rewrite length_drop. lia.
  - apply Nat.ltb_ge in Hlen. apply windowed_set; [exact Hw | lia].
Qed.

Lemma cut_traceBlind chat : traceBlind (cut chat).
Proof. intros t s H. exact H. Qed.

Lemma cut_pushed chat t s : cut chat s -> windowed 11 (pushed chat t s).
Proof.
  intros [Hw Hl]. unfold pushed. apply windowed_set; [exact Hw |].
  rewrite length_app. simpl. lia.
Qed.

Ltac inv_bind I := apply triple_bind with (Q := fun _ => I); [| intros ?].
Ltac inv_modify := apply triple_modify; intros ? ?.
Ltac inv_quiet lem := eapply triple_quiet; [apply lem | intros ? ? H; exact H].

Lemma parseCommand_windowed text chat :
  triple (windowed 11) (parseCommand env text chat) (fun _ => windowed 11) (windowed 11).
Proof.
  unfold parseCommand. destruct (matchCommand KW_CHARACTER text) as [cap |].
  - inv_bind (windowed 11); [inv_quiet (quiet_generateCharacterPrompt env chat) |].
    inv_bind (windowed 11); [inv_modify; assumption |].
    inv_bind (windowed 11);
      [inv_modify; apply windowed_set; [assumption | simpl; lia] |].
    inv_bind (windowed 11); [inv_quiet (quiet_sendText env chat) |].
    apply triple_ret.
  - destruct (matchCommand KW_UNHINGE text) as [val |]; [| apply triple_ret].
    inv_bind (windowed 11); [inv_modify; assumption |].
    apply triple_ret.
Qed.

Lemma respond_windowed chat response :
  triple (cut chat) (respond env chat response) (fun _ => windowed 11) (windowed 11).
Proof.
  unfold respond. apply triple_bind with (Q := fun _ => cut chat).
  { eapply triple_weaken;
      [eapply triple_quiet; [apply (quiet_resolve env chat) | apply (cut_traceBlind chat)]
      | auto | intros a s H; exact H | intros s [H _]; exact H]. }
  intros reply. unfold deliver, pushTurn.
  inv_bind (windowed 11); [inv_modify; apply cut_pushed; assumption |].
  inv_bind (windowed 11); [inv_quiet (quiet_sendText env chat) |].
  apply triple_ret.
Qed.

Lemma converse_windowed item :
  triple (windowed 11) (converse env item) (fun _ => windowed 11) (windowed 11).
Proof.
  unfold converse, pushTurn, trimContext.
  apply triple_bind with (Q := fun _ s => exists s0, windowed 11 s0 /\
     s = pushed (chatGuid item) {| role := user; content := itemText item |} s0).
  { intros s Hs. simpl. eauto. }
  intros _. apply triple_bind with (Q := fun _ => cut (chatGuid item)).
  { intros s (s0 & H0 & ->). simpl. apply pushTrim_cut, H0. }
  intros _. apply triple_bind with (Q := fun _ => cut (chatGuid item)).
  { eapply triple_weaken;
      [eapply triple_quiet;
         [apply (quiet_complete env (chatGuid item)) | apply (cut_traceBlind (chatGuid item))]
      | auto | intros a s H; exact H | intros s [H _]; exact H]. }
  intros response. apply respond_windowed.
Qed.

Lemma iteration_windowed item :
  triple (windowed 11) (iteration env item) (fun _ => windowed 11) (windowed 11).
Proof.
  unfold iteration. inv_bind (windowed 11).
  - apply triple_tryCatch with (E1 := windowed 11); [| | auto].
    + unfold tryBlock, emit, ensureContext.
      inv_bind (windowed 11); [inv_modify; assumption |].
      inv_bind (windowed 11).
      { inv_modify. destruct (Ordered.get (chatGuid item) (chatContexts s)); [assumption |].
        apply windowed_set; [assumption | simpl; lia]. }
      inv_bind (windowed 11); [apply parseCommand_windowed |].
      destruct a1; [apply triple_ret | apply converse_windowed].
    + unfold catchBlock.
      inv_bind (windowed 11); [inv_quiet (quiet_sendText env (chatGuid item)) |].
      apply triple_ret.
  - destruct a; [apply triple_ret |]. unfold emit. inv_modify. assumption.
Qed.

Lemma drain_windowed fuel :
  triple (windowed 11) (drain env fuel) (fun _ => windowed 11) (windowed 11).
Proof.
  induction fuel as [| fuel IH]; intros s Hs; simpl.
  - destruct (messageQueue s); exact Hs.
  - destruct (messageQueue s) as [| item rest]; [exact Hs |].
    assert (Ht : triple (windowed 11) (iteration env item ;;; drain env fuel)
                   (fun _ => windowed 11) (windowed 11)).
    { inv_bind (windowed 11); [apply iteration_windowed | exact IH]. }
    apply Ht. exact Hs.
Qed.

Lemma processMessageQueue_windowed :
  triple (windowed 11) (processMessageQueue env) (fun _ => windowed 11) (windowed 11).
Proof.
  intros s Hs. unfold processMessageQueue.
  destruct (isProcessingQueue s || bool_decide (messageQueue s = [])); [exact Hs |].
  assert (Ht : triple (windowed 11)
                 (modify (set_isProcessingQueue true) ;;;
                  drain env (length (messageQueue s)) ;;;
                  modify (set_isProcessingQueue false))
                 (fun _ => windowed 11) (windowed 11)).
  { inv_bind (windowed 11); [inv_modify; assumption |].
    inv_bind (windowed 11); [apply drain_windowed |].
    inv_modify. assumption. }
  apply Ht. exact Hs.
Qed.

End ContextWindow.

(** ** What a poll cycle leaves alone *)

Section PollKeeps.

Variable env : Env.
Variable TRIGGER : jsstring.
Variable startupTime : N.
Variable I : State -> Prop.
Hypothesis I_blind : pollBlind I.

Lemma triple_forEach {A} (f : A -> M unit) (l : list A) (J : State -> Prop) :
  (forall x, triple J (f x) (fun _ => J) J) -> triple J (forEach f l) (fun _ => J) J.
Proof.
  intros Hf. induction l as [| x l IH]; simpl.
  - apply triple_ret.
  - apply triple_bind with (Q := fun _ => J); [apply Hf | intros _; exact IH].
Qed.

Lemma visitMessage_keeps chat msg :
  triple I (visitMessage TRIGGER startupTime chat msg) (fun _ => I) I.
Proof.
  destruct I_blind as (Ht & Hseen & Hproc & Hq & Hctx).
  intros s Hs. unfold visitMessage.
  destruct (guid msg) as [[| c g] |]; try exact Hs.
  destruct (Ordered.has (c :: g) (seen s)); [exact Hs |].
  destruct (messageTime msg <? startupTime); [apply Hseen, Hs |].
  match goal with |- context [if ?b then _ else _] => destruct b end;
    [| apply Hseen, Hs].
  unfold queueMessageProcessing. run. apply Hq, Hproc, Hseen, Hs.
Qed.

Lemma visitChat_keeps chat :
  triple I (visitChat env TRIGGER startupTime chat) (fun _ => I) I.
Proof.
  unfold visitChat. apply triple_bind with (Q := fun _ => I).
  - eapply triple_quiet;
      [apply (@quiet_call env (fun _ => True)); intros; exact Logic.I
      | apply (proj1 I_blind)].
  - intros r. apply triple_forEach. intros msg. apply visitMessage_keeps.
Qed.

Lemma pollCycle_keeps : triple I (pollCycle env TRIGGER startupTime) (fun _ => I) I.
Proof.
  destruct I_blind as (Ht & Hseen & Hproc & Hq & Hctx).
  unfold pollCycle. apply triple_tryCatch with (E1 := I); [| apply triple_ret | auto].
  unfold pollBody. apply triple_bind with (Q := fun _ => I).
  - unfold pollScan. apply triple_bind with (Q := fun _ => I).
    + eapply triple_quiet;
        [apply (@quiet_call env (fun _ => True)); intros; exact Logic.I | exact Ht].
    + intros r. apply triple_forEach. intros chat. apply visitChat_keeps.
  - intros _. unfold cleanUp.
    apply triple_bind with (Q := fun _ => I);
      [apply triple_modify; intros s Hs; apply Hseen, Hs | intros _].
    apply triple_bind with (Q := fun _ => I);
      [apply triple_modify; intros s Hs; apply Hproc, Hs | intros _].
    apply triple_modify. intros s Hs. apply Hctx, Hs.
Qed.

End PollKeeps.

Section PollWindow.

Lemma pruneMap_forall {V} (P : jsstring * V -> Prop) m :
  Forall P m -> Forall P (Ordered.pruneMap m).
Proof.
  intros Hm. unfold Ordered.pruneMap. destruct (20 <? length m)%nat; [| exact Hm].
  generalize (take (length (List.map fst m) - 20) (List.map fst m)). intros keys.
  revert m Hm. induction keys as [| k keys IH]; intros m Hm; simpl; [exact Hm |].
  apply IH. apply forall_delete. exact Hm.
Qed.

Lemma windowed_pollBlind n : pollBlind (windowed n).
Proof.
  unfold pollBlind, traceBlind.
  repeat split; try (intros ? ? H; exact H).
  intros s H. unfold windowed. simpl. apply pruneMap_forall. exact H.
Qed.

End PollWindow.

(** ** What a program adds to the trace *)

Section Emits.

Variable env : Env.
Context {ok : Event -> Prop}.

Lemma emits_ret {A} (a : A) : emits ok (ret a).
Proof. intros s. split; [discriminate |]. exists []. simpl. rewrite app_nil_r. auto. Qed.

Lemma emits_quiet {A} (m : M A) : quiet ok m -> emits ok m.
Proof.
  intros Hq s. destruct (Hq s) as (N1 & evs & E & F). split; [exact N1 |].
  exists evs. rewrite E. auto.
Qed.

Lemma emits_modify f : (forall s, trace (f s) = trace s) -> emits ok (modify f).
Proof.
  intros Hf s. split; [discriminate |]. exists []. simpl. rewrite Hf, app_nil_r. auto.
Qed.

Lemma emits_bind {A B} (m : M A) (k : A -> M B) :
  emits ok m -> (forall a, emits ok (k a)) -> emits ok (bind m k).
Proof.
  intros Hm Hk s. destruct (Hm s) as (N1 & e1 & E1 & F1).
  unfold bind. destruct (m s) as [[a | |] s1]; simpl in E1, N1.
  - destruct (Hk a s1) as (N2 & e2 & E2 & F2). split; [exact N2 |].
    exists (e1 ++ e2). rewrite E2, E1, app_assoc. split; [reflexivity |].
    apply Forall_app; auto.
  - split; [discriminate |]. exists e1. auto.
  - contradiction.
Qed.

Lemma emits_tryCatch {A} (m h : M A) :
  emits ok m -> emits ok h -> emits ok (tryCatch m h).
Proof.
  intros Hm Hh s. destruct (Hm s) as (N1 & e1 & E1 & F1).
  unfold tryCatch. destruct (m s) as [[a | |] s1]; simpl in E1, N1.
  - split; [discriminate |]. exists e1. auto.
  - destruct (Hh s1) as (N2 & e2 & E2 & F2). split; [exact N2 |].
    exists (e1 ++ e2). rewrite E2, E1, app_assoc. split; [reflexivity |].
    apply Forall_app; auto.
  - contradiction.
Qed.

End Emits.

Section Conversation.

Variable env : Env.

Lemma complete_value chat s :
  let q := chatRequest (USE_OLLAMA s) (personaOf chat s) (getContext chat s) in
  let r := env (trace s) q in
  complete env chat s
  = (match gatewayResult (USE_OLLAMA s) r with
     | Some m => Returned m
     | None => Thrown
     end,
     set_trace (trace s ++ [Called q r]) s).
Proof.
  unfold complete, chatRequest, gatewayResult. run.
  destruct (USE_OLLAMA s); run.
  - destruct (env (trace s)
                (OllamaChat ({| role := system;
                                content := personaOf chat s ++ OLLAMA_PICTURE_HINT |}
                             :: getContext chat s))); reflexivity.
  - destruct (env (trace s)
                (OpenAIChat ({| role := system;
                                content := personaOf chat s ++ OPENAI_PICTURE_HINT |}
                             :: getContext chat s) true)); reflexivity.
Qed.

Lemma emits_deliver chat reply : emits (requestFor chat) (deliver env chat reply).
Proof.
  unfold deliver, pushTurn.
  apply emits_bind; [apply emits_modify; reflexivity | intros _].
  apply emits_bind; [apply emits_quiet, quiet_sendText | intros _].
  apply emits_ret.
Qed.

Lemma emits_respond chat response : emits (requestFor chat) (respond env chat response).
Proof.
  unfold respond.
  apply emits_bind; [apply emits_quiet, quiet_resolve | intros reply].
  apply emits_deliver.
Qed.

Lemma emits_converse item : emits (requestFor (chatGuid item)) (converse env item).
Proof.
  unfold converse, pushTurn, trimContext.
  apply emits_bind; [apply emits_modify; reflexivity | intros _].
  apply emits_bind.
  { apply emits_modify. intros s. unfold spliced.
    destruct (10 <? length (getContext (chatGuid item) s))%nat; reflexivity. }
  intros _. apply emits_bind; [apply emits_quiet, quiet_complete | intros response].
  apply emits_respond.
Qed.

Lemma emits_parseCommand text chat : emits (requestFor chat) (parseCommand env text chat).
Proof.
  unfold parseCommand. destruct (matchCommand KW_CHARACTER text) as [cap |].
  - apply emits_bind; [apply emits_quiet, quiet_generateCharacterPrompt | intros p].
    apply emits_bind; [apply emits_modify; reflexivity | intros _].
    apply emits_bind; [apply emits_modify; reflexivity | intros _].
    apply emits_bind; [apply emits_quiet, quiet_sendText | intros _].
    apply emits_ret.
  - destruct (matchCommand KW_UNHINGE text) as [val |]; [| apply emits_ret].
    apply emits_bind; [apply emits_modify; reflexivity | intros _].
    apply emits_ret.
Qed.

(** The request a conversation turn opens with: the persona, then the
    window of the ten most recent turns ending in the new user turn. *)
Lemma converse_request item s :
  let chat := chatGuid item in
  let sent := Ordered.lastN 10 (getContext chat s ++ [ {| role := user; content := itemText item |} ]) in
  let q := chatRequest (USE_OLLAMA s) (personaOf chat s) sent in
  exists rest,
    trace (snd (converse env item s)) = trace s ++ Called q (env (trace s) q) :: rest.
Proof.
  intros chat sent q. unfold converse, pushTurn, trimContext.
  set (t := {| role := user; content := itemText item |}).
  set (s2 := spliced chat (pushed chat t s)).
  change (exists rest,
            trace (snd ((response <- complete env chat ;; respond env chat response) s2))
            = trace s ++ Called q (env (trace s) q) :: rest).
  assert (Hctx : getContext chat s2 = sent) by apply pushTrim_context.
  assert (Hsame : USE_OLLAMA s2 = USE_OLLAMA s /\ chatCharacters s2 = chatCharacters s
                  /\ trace s2 = trace s).
  { unfold s2, spliced, pushed.
    destruct (10 <? length _)%nat; simpl; auto. }
  destruct Hsame as (Hflag & Hchar & Htrace).
  assert (Hq : chatRequest (USE_OLLAMA s2) (personaOf chat s2) (getContext chat s2) = q).
  { unfold q, personaOf. rewrite Hflag, Hchar, Hctx. reflexivity. }
  pose proof (complete_value chat s2) as Hc. simpl in Hc. rewrite Hq, Htrace in Hc.
  unfold bind. rewrite Hc.
  destruct (gatewayResult (USE_OLLAMA s2) (env (trace s) q)) as [m |].
  - destruct (emits_respond chat m (set_trace (trace s ++ [Called q (env (trace s) q)]) s2))
      as (_ & evs & E & _).
    exists evs. rewrite E. simpl. rewrite <- app_assoc. reflexivity.
  - exists []. reflexivity.
Qed.

(** C4, amended.  A context of at most eleven turns stays so over every
    item, every drain and every poll cycle; the window cut after the user
    turn is the ten most recent turns, oldest first, and it is this window
    of at most ten that accompanies the request to the backend.  (The
    assistant turn is appended after the cut, which is how a stored
    context reaches eleven.) *)
Theorem context_window_is_ten_when_sent item s :
  windowed 11 s ->
  windowed 11 (snd (iteration env item s))
  /\ windowed 11 (snd (processMessageQueue env s))
  /\ (forall TRIGGER startupTime, windowed 11 (snd (pollCycle env TRIGGER startupTime s)))
  /\ let chat := chatGuid item in
     let sent := Ordered.lastN 10
                   (getContext chat s ++ [ {| role := user; content := itemText item |} ]) in
     let q := chatRequest (USE_OLLAMA s) (personaOf chat s) sent in
     (length sent <= 10)%nat
     /\ exists rest,
          trace (snd (converse env item s)) = trace s ++ Called q (env (trace s) q) :: rest.
Proof.
  intros Hw. split; [| split; [| split; [| split]]].
  - exact (triple_final _ _ _ (iteration_windowed env item) s Hw).
  - exact (triple_final _ _ _ (processMessageQueue_windowed env) s Hw).
  - intros TRIGGER startupTime.
    exact (triple_final _ _ _
             (pollCycle_keeps env TRIGGER startupTime _ (windowed_pollBlind 11)) s Hw).
  - apply lastN_length.
  - apply converse_request.
Qed.

Lemma includes_self_suffix p a : includes p (a ++ p) = true.
Proof.
  induction a as [| c a IH]; simpl.
  - assert (H : startsWith p p = true).
    { induction p as [| x p IHp]; simpl; [reflexivity |].
      rewrite N.eqb_refl. exact IHp. }
    destruct p; simpl in *; [reflexivity |]. rewrite H. reflexivity.
  - rewrite IH. apply orb_true_r.
Qed.

(** [deliver]: the turn is stored as computed, the text goes out signed. *)
Lemma deliver_stores_then_signs chat reply s :
  let q := BridgeText chat (signed reply) in
  snd (deliver env chat reply s)
  = set_trace (trace s ++ [Called q (env (trace s) q)])
      (pushed chat {| role := assistant; content := reply |} s)
  /\ getContext chat (snd (deliver env chat reply s))
     = getContext chat s ++ [ {| role := assistant; content := reply |} ]
  /\ textsSent (drop (length (trace s)) (trace (snd (deliver env chat reply s))))
     = [ (chat, signed reply) ]
  /\ includes SIGNATURE (signed reply) = true
  /\ (signed reply = reply <-> includes SIGNATURE reply = true).
Proof.
  intros q.
  assert (Hs : snd (deliver env chat reply s)
               = set_trace (trace s ++ [Called q (env (trace s) q)])
                   (pushed chat {| role := assistant; content := reply |} s)).
  { subst q. unfold deliver, pushTurn. run.
    destruct (env (trace s) (BridgeText chat (signed reply))); reflexivity. }
  split; [exact Hs |]. rewrite Hs. split; [| split; [| split]].
  - unfold pushed. apply getContext_set.
  - simpl. rewrite drop_app_length. reflexivity.
  - unfold signed. destruct (includes SIGNATURE reply) eqn:Hi; [exact Hi |].
    rewrite app_assoc. apply includes_self_suffix.
  - unfold signed. destruct (includes SIGNATURE reply) eqn:Hi.
    + split; reflexivity.
    + split; [| discriminate]. intros H.
      apply (f_equal (@length N)) in H. rewrite !length_app in H. simpl in H. lia.
Qed.

Lemma deliver_value chat reply s :
  let q := BridgeText chat (signed reply) in
  let r := env (trace s) q in
  deliver env chat reply s
  = (match r with Rejected => Thrown | _ => Returned FellThrough end,
     set_trace (trace s ++ [Called q r])
       (pushed chat {| role := assistant; content := reply |} s)).
Proof.
  unfold deliver, pushTurn. run.
  destruct (env (trace s) (BridgeText chat (signed reply))); reflexivity.
Qed.

Lemma converse_answer item s :
  converse env item s
  = (reply <- answer env item ;; deliver env (chatGuid item) reply) s.
Proof.
  unfold converse, answer, respond, pushTurn, trimContext, bind, modify. simpl.
  destruct (complete env (chatGuid item) _) as [[m | |] s3]; reflexivity.
Qed.

Lemma tryBlock_not_command item s :
  matchCommand KW_CHARACTER (itemText item) = None ->
  matchCommand KW_UNHINGE (itemText item) = None ->
  tryBlock env item s = converse env item (prepared item s).
Proof.
  intros Hc Hu. unfold tryBlock, prepared, parseCommand. rewrite Hc, Hu.
  unfold emit, ensureContext. run. reflexivity.
Qed.

(** C3, amended.  For an item that is not a command and whose reply has
    been computed, the [try] block ends in [deliver]: the reply, as
    computed and without the signature added, is first pushed onto the
    chat's context as an assistant turn (it is there even if the bridge
    then rejects the post), and then the reply with " — MyAI" appended,
    unless it already contains "— MyAI", is posted to the bridge.  The
    posted text always carries the signature; it equals the stored turn
    exactly when the reply already contained the signature. *)
Theorem reply_stored_then_delivered_signed item s reply s2 :
  matchCommand KW_CHARACTER (itemText item) = None ->
  matchCommand KW_UNHINGE (itemText item) = None ->
  answer env item (prepared item s) = (Returned reply, s2) ->
  let chat := chatGuid item in
  let q := BridgeText chat (signed reply) in
  tryBlock env item s = deliver env chat reply s2
  /\ snd (tryBlock env item s)
     = set_trace (trace s2 ++ [Called q (env (trace s2) q)])
         (pushed chat {| role := assistant; content := reply |} s2)
  /\ getContext chat (snd (tryBlock env item s))
     = getContext chat s2 ++ [ {| role := assistant; content := reply |} ]
  /\ textsSent (drop (length (trace s2)) (trace (snd (tryBlock env item s))))
     = [ (chat, signed reply) ]
  /\ includes SIGNATURE (signed reply) = true
  /\ (signed reply = reply <-> includes SIGNATURE reply = true).
Proof.
  intros Hc Hu Ha chat q.
  assert (Ht : tryBlock env item s = deliver env chat reply s2).
  { rewrite (tryBlock_not_command item s Hc Hu), converse_answer.
    unfold bind. rewrite Ha. reflexivity. }
  split; [exact Ht |]. rewrite Ht. apply deliver_stores_then_signs.
Qed.

End Conversation.

Lemma reply_stored_then_delivered_signed_witness :
  matchCommand KW_CHARACTER (itemText Scenario.hello) = None
  /\ matchCommand KW_UNHINGE (itemText Scenario.hello) = None
  /\ answer Scenario.worldUp Scenario.hello (prepared Scenario.hello initialState)
     = (Returned (lit "hi there"),
        snd (answer Scenario.worldUp Scenario.hello (prepared Scenario.hello initialState)))
  /\ tryBlock Scenario.worldUp Scenario.hello initialState
     = deliver Scenario.worldUp Scenario.chatA (lit "hi there")
         (snd (answer Scenario.worldUp Scenario.hello (prepared Scenario.hello initialState))).
Proof.
  assert (Hc : matchCommand KW_CHARACTER (itemText Scenario.hello) = None)
    by (vm_compute; reflexivity).
  assert (Hu : matchCommand KW_UNHINGE (itemText Scenario.hello) = None)
    by (vm_compute; reflexivity).
  assert (Ha : answer Scenario.worldUp Scenario.hello (prepared Scenario.hello initialState)
               = (Returned (lit "hi there"),
                  snd (answer Scenario.worldUp Scenario.hello
                         (prepared Scenario.hello initialState))))
    by (vm_compute; reflexivity).
  split; [exact Hc | split; [exact Hu | split; [exact Ha |]]].
  exact (proj1 (reply_stored_then_delivered_signed Scenario.worldUp Scenario.hello
                  initialState (lit "hi there") _ Hc Hu Ha)).
Defined.

(** C3 as stated fails: for "@ava hello" answered "hi there", the stored
    assistant turn is "hi there" and the delivered text is
    "hi there — MyAI". *)
Lemma stored_turn_differs_from_delivered_text :
  last (getContext Scenario.chatA (snd (tryBlock Scenario.worldUp Scenario.hello initialState)))
  = Some {| role := assistant; content := lit "hi there" |}
  /\ textsSent (trace (snd (tryBlock Scenario.worldUp Scenario.hello initialState)))
     = [ (Scenario.chatA, lit "hi there " ++ SIGNATURE) ]
  /\ lit "hi there" <> lit "hi there " ++ SIGNATURE.
Proof.
  split; [vm_compute; reflexivity | split; [vm_compute; reflexivity |]].
  vm_compute. intros H. discriminate H.
Qed.

Lemma context_window_is_ten_when_sent_witness :
  windowed 11 initialState
  /\ windowed 11 (snd (iteration Scenario.worldUp Scenario.hello initialState)).
Proof.
  assert (Hw : windowed 11 initialState) by (unfold windowed; simpl; constructor).
  split; [exact Hw |].
  exact (proj1 (context_window_is_ten_when_sent Scenario.worldUp Scenario.hello
                  initialState Hw)).
Defined.

(** C4 as stated fails: after six exchanges in one chat the stored context
    holds eleven turns. *)
Lemma context_holds_eleven_after_six_exchanges :
  length (getContext Scenario.chatA
            (snd (processMessageQueue Scenario.worldUp Scenario.sixQueued))) = 11%nat
  /\ ~ (length (getContext Scenario.chatA
                  (snd (processMessageQueue Scenario.worldUp Scenario.sixQueued))) <= 10)%nat.
Proof.
  assert (H : length (getContext Scenario.chatA
                        (snd (processMessageQueue Scenario.worldUp Scenario.sixQueued)))
              = 11%nat) by (vm_compute; reflexivity).
  split; [exact H | rewrite H; lia].
Qed.

(** ** The sentinel convention of the local backend *)

Section Sentinel.

Variable env : Env.

Lemma startsWith_app p rest : startsWith p (p ++ rest) = true.
Proof.
  induction p as [| a p IH]; simpl; [reflexivity |].
  rewrite N.eqb_refl. exact IH.
Qed.

Lemma removeFirst_unfold p s :
  removeFirst p s
  = if startsWith p s then drop (length p) s
    else match s with
         | [] => []
         | c :: s' => c :: removeFirst p s'
         end.
Proof. destruct s; reflexivity. Qed.

Lemma removeFirst_prefix p rest : removeFirst p (p ++ rest) = rest.
Proof.
  rewrite removeFirst_unfold, startsWith_app. apply drop_app_length.
Qed.

(** One picture attempt: the image request comes first, and neither a
    second one nor a text to the bridge follows inside it. *)
Lemma generateAndSendPicture_trace chat description s :
  exists success evs,
    generateAndSendPicture env chat description s
    = (Returned success,
       set_trace (trace s ++ Called (OpenAIImage description)
                                 (env (trace s) (OpenAIImage description)) :: evs) s)
    /\ imageAttempts evs = 0%nat /\ textsSent evs = [].
Proof.
  unfold generateAndSendPicture. run.
  destruct (env (trace s) (OpenAIImage description)) as [| | | url | | | |] eqn:Hr;
    simpl; try (exists false, []; repeat split; reflexivity).
  run.
  match goal with
  | |- context [env ?h (Download url)] => destruct (env h (Download url)) as [| | | | b | | |] eqn:Hd
  end; simpl;
    try (exists false, [Called (Download url) (env (trace s ++ [Called (OpenAIImage description) (ImageUrl url)]) (Download url))];
         rewrite Hd, <- app_assoc; repeat split; reflexivity).
  run.
  match goal with
  | |- context [env ?h (BridgeAttachment chat b)] =>
      destruct (env h (BridgeAttachment chat b)) eqn:Hb
  end; simpl;
    first [ solve [ exists true;
                    eexists [Called (Download url) _; Called (BridgeAttachment chat b) _];
                    rewrite <- !app_assoc; simpl; repeat split; reflexivity ]
          | solve [ exists false;
                    eexists [Called (Download url) _; Called (BridgeAttachment chat b) _];
                    rewrite <- !app_assoc; simpl; repeat split; reflexivity ] ].
Qed.

Lemma respond_structural chat x d s :
  exists success evs r,
    snd (respond env chat (structuralReply x d) s)
    = set_trace
        (trace s ++ Called (OpenAIImage (Some d)) (env (trace s) (OpenAIImage (Some d)))
                 :: evs ++ [Called (BridgeText chat (confirmation success)) r])
        (pushed chat {| role := assistant; content := confirmation success |} s)
    /\ imageAttempts evs = 0%nat /\ textsSent evs = [].
Proof.
  destruct (generateAndSendPicture_trace chat (Some d) s) as (ok & evs & Hg & Hi & Ht).
  exists ok, evs.
  unfold respond, resolve, structuralReply, pictureCall. simpl.
  unfold bind at 1 2. rewrite Hg. unfold ret at 1.
  pose proof (deliver_stores_then_signs env chat (confirmation ok)
                (set_trace (trace s ++ Called (OpenAIImage (Some d))
                                          (env (trace s) (OpenAIImage (Some d))) :: evs) s))
    as (Hd & _).
  fold (confirmation ok). rewrite Hd. simpl.
  assert (Hsig : signed (confirmation ok) = confirmation ok)
    by (destruct ok; vm_compute; reflexivity).
  rewrite Hsig. eexists. split; [| split; assumption].
  unfold pushed, set_trace. simpl. rewrite <- app_assoc. reflexivity.
Qed.

Lemma textsSent_split t1 t2 : textsSent (t1 ++ t2) = textsSent t1 ++ textsSent t2.
Proof.
  induction t1 as [| e t1 IH]; simpl; [reflexivity |].
  destruct e as [q r | |]; simpl; try exact IH.
  destruct q; simpl; rewrite ?IH; reflexivity.
Qed.







End Sentinel.



(** ** What one item leaves alone *)

Section Settled.

Variable env : Env.
Variable I : State -> Prop.
Hypothesis I_settled : settled I.

Ltac keep_bind := apply triple_bind with (Q := fun _ => I); [| intros ?].
Ltac keep_quiet lem :=
  eapply triple_quiet; [apply lem | apply (proj1 I_settled)].
Ltac keep_contexts :=
  apply triple_modify; intros ? ?; apply (proj1 (proj2 I_settled)); assumption.

Lemma parseCommand_settled text chat :
  isUnhingeCommand text = false \/ flagBlind I ->
  triple I (parseCommand env text chat) (fun _ => I) I.
Proof.
  intros Hu. unfold parseCommand, isUnhingeCommand in *.
  destruct (matchCommand KW_CHARACTER text) as [cap |].
  - keep_bind; [keep_quiet (quiet_generateCharacterPrompt env chat) |].
    keep_bind.
    { apply triple_modify. intros s Hs. apply (proj2 (proj2 I_settled)), Hs. }
    keep_bind; [keep_contexts |].
    keep_bind; [keep_quiet (quiet_sendText env chat) |].
    apply triple_ret.
  - destruct (matchCommand KW_UNHINGE text) as [val |]; [| apply triple_ret].
    destruct Hu as [Hu | Hu]; [discriminate Hu |].
    keep_bind; [apply triple_modify; intros s Hs; apply Hu, Hs |].
    apply triple_ret.
Qed.

Lemma converse_settled item : triple I (converse env item) (fun _ => I) I.
Proof.
  unfold converse, pushTurn, trimContext.
  keep_bind; [unfold pushed; keep_contexts |].
  keep_bind.
  { apply triple_modify. intros s Hs. unfold spliced.
    destruct (10 <? length (getContext (chatGuid item) s))%nat; [| exact Hs].
    apply (proj1 (proj2 I_settled)), Hs. }
  keep_bind; [keep_quiet (quiet_complete env (chatGuid item)) |].
  unfold respond.
  keep_bind; [keep_quiet (quiet_resolve env (chatGuid item)) |].
  unfold deliver, pushTurn.
  keep_bind; [unfold pushed; keep_contexts |].
  keep_bind; [keep_quiet (quiet_sendText env (chatGuid item)) |].
  apply triple_ret.
Qed.

Lemma iteration_settled item :
  isUnhingeCommand (itemText item) = false \/ flagBlind I ->
  triple I (iteration env item) (fun _ => I) I.
Proof.
  intros Hu. unfold iteration. keep_bind.
  - apply triple_tryCatch with (E1 := I); [| | auto].
    + unfold tryBlock, emit, ensureContext.
      keep_bind; [apply triple_modify; intros s Hs; apply (proj1 I_settled), Hs |].
      keep_bind.
      { apply triple_modify. intros s Hs.
        destruct (Ordered.get (chatGuid item) (chatContexts s)); [exact Hs |].
        apply (proj1 (proj2 I_settled)), Hs. }
      keep_bind; [apply parseCommand_settled, Hu |].
      destruct a1; [apply triple_ret | apply converse_settled].
    + unfold catchBlock.
      keep_bind; [keep_quiet (quiet_sendText env (chatGuid item)) |].
      apply triple_ret.
  - destruct a; [apply triple_ret |].
    unfold emit. apply triple_modify. intros s Hs. apply (proj1 I_settled), Hs.
Qed.

End Settled.

(** ** The [@unhinge] command and the backend flag *)

Section Unhinge.

Variable env : Env.

Lemma flag_settled b : settled (fun s => USE_OLLAMA s = b).
Proof. unfold settled, traceBlind. repeat split; intros ? ? H; exact H. Qed.

End Unhinge.

(** ** The drain loop *)

Section Drain.

Variable env : Env.

Lemma tryBlock_emits item s :
  fst (tryBlock env item s) <> OutOfFuel
  /\ exists evs,
       trace (snd (tryBlock env item s)) = trace s ++ Processing item :: evs
       /\ Forall (requestFor (chatGuid item)) evs.
Proof.
  assert (Hbody : emits (requestFor (chatGuid item))
                    (ensureContext (chatGuid item) ;;;
                     isCommand <- parseCommand env (itemText item) (chatGuid item) ;;
                     if isCommand then ret Continue else converse env item)).
  { apply emits_bind.
    { apply emits_modify. intros s0.
      destruct (Ordered.get (chatGuid item) (chatContexts s0)); reflexivity. }
    intros _. apply emits_bind; [apply emits_parseCommand |].
    intros [|]; [apply emits_ret | apply emits_converse]. }
  destruct (Hbody (set_trace (trace s ++ [Processing item]) s)) as (N1 & evs & E & F).
  split; [exact N1 |]. exists evs. split; [| exact F].
  unfold tryBlock. unfold bind at 1. unfold emit, modify.
  rewrite E. simpl. rewrite <- app_assoc. reflexivity.
Qed.

Lemma deliver_not_continue chat reply s :
  fst (deliver env chat reply s) <> Returned Continue.
Proof.
  unfold deliver, pushTurn. run.
  destruct (env (trace s) (BridgeText chat (signed reply))); discriminate.
Qed.

Lemma tryBlock_continue item s :
  fst (tryBlock env item s) = Returned Continue -> isCommandText (itemText item) = true.
Proof.
  unfold isCommandText.
  destruct (matchCommand KW_CHARACTER (itemText item)) eqn:Hc; [reflexivity |].
  destruct (matchCommand KW_UNHINGE (itemText item)) eqn:Hu; [reflexivity |].
  rewrite (tryBlock_not_command env item s Hc Hu), converse_answer.
  unfold bind. destruct (answer env item (prepared item s)) as [[reply | |] s2];
    simpl; try discriminate.
  intros H. exfalso. exact (deliver_not_continue _ _ _ H).
Qed.

(** One iteration either gets through its item or is aborted by a rejected
    failure reply. *)
Lemma iteration_run item s :
  (fst (iteration env item s) = Returned tt
   /\ exists block, servedBlock item block
                    /\ trace (snd (iteration env item s)) = trace s ++ block)
  \/ (fst (iteration env item s) = Thrown
      /\ exists block, abortedBlock item block
                       /\ trace (snd (iteration env item s)) = trace s ++ block).
Proof.
  destruct (tryBlock_emits item s) as (N1 & evs & E & F).
  pose proof (tryBlock_continue item s) as Hcont.
  unfold iteration, bind, tryCatch.
  destruct (tryBlock env item s) as [[[|] | |] s1]; simpl in *.
  - left. split; [reflexivity |]. eexists. split; [| exact E].
    exists evs, []. rewrite app_nil_r.
    split; [reflexivity |]. split; [exact F |]. right. split; [reflexivity |].
    apply Hcont. reflexivity.
  - left. split; [reflexivity |]. eexists. split.
    + exists evs, [Sleep 500]. split; [reflexivity | auto].
    + rewrite E, <- app_assoc. reflexivity.
  - unfold catchBlock. run.
    assert (Hserved : forall r,
              exists block,
                servedBlock item block
                /\ (trace s1 ++ [Called (BridgeText (chatGuid item) PROCESSING_FAILED) r])
                   ++ [Sleep 500] = trace s ++ block).
    { intros r. eexists. split.
      - exists (evs ++ [Called (BridgeText (chatGuid item) PROCESSING_FAILED) r]), [Sleep 500].
        split; [reflexivity |]. split; [| left; reflexivity].
        apply Forall_app. split; [exact F |]. constructor; [reflexivity | constructor].
      - rewrite E, <- !app_assoc. reflexivity. }
    destruct (env (trace s1) (BridgeText (chatGuid item) PROCESSING_FAILED)) eqn:Hr;
      simpl; try (left; split; [reflexivity | apply Hserved]).
    right. split; [reflexivity |]. eexists. split.
    + exists evs. split; [reflexivity | exact F].
    + rewrite E, <- app_assoc. reflexivity.
  - contradiction.
Qed.

Lemma queue_settled q b :
  settled (fun s => messageQueue s = q /\ isProcessingQueue s = b).
Proof. unfold settled, traceBlind. split; [| split]; intros ? ? HI; exact HI. Qed.

Lemma queue_flagBlind q b :
  flagBlind (fun s => messageQueue s = q /\ isProcessingQueue s = b).
Proof. unfold flagBlind. intros ? ? H. exact H. Qed.

Lemma iteration_keeps_queue item s :
  messageQueue (snd (iteration env item s)) = messageQueue s
  /\ isProcessingQueue (snd (iteration env item s)) = isProcessingQueue s.
Proof.
  exact (triple_final _ _ _
           (iteration_settled env _ (queue_settled _ _) item
              (or_intror (queue_flagBlind _ _))) s (conj eq_refl eq_refl)).
Qed.

(** The loop with fuel for every queued item: it never runs out, it
    serves the items in queue order, and it stops early only at an item
    whose failure reply was rejected, leaving the rest queued. *)
Lemma drain_run fuel s :
  (length (messageQueue s) <= fuel)%nat ->
  isProcessingQueue (snd (drain env fuel s)) = isProcessingQueue s
  /\ ((fst (drain env fuel s) = Returned tt
       /\ messageQueue (snd (drain env fuel s)) = []
       /\ exists blocks,
            Forall2 servedBlock (messageQueue s) blocks
            /\ trace (snd (drain env fuel s)) = trace s ++ concat blocks)
      \/ (fst (drain env fuel s) = Thrown
          /\ exists served item blocks block,
               messageQueue s = served ++ item :: messageQueue (snd (drain env fuel s))
               /\ Forall2 servedBlock served blocks
               /\ abortedBlock item block
               /\ trace (snd (drain env fuel s)) = trace s ++ concat blocks ++ block)).
Proof.
  revert s. induction fuel as [| fuel IH]; intros s Hlen.
  - simpl. destruct (messageQueue s) as [| item rest] eqn:Hq; [| simpl in Hlen; lia].
    simpl. split; [reflexivity |]. left. split; [reflexivity |].
    split; [exact Hq |].
    exists []. split; [constructor | simpl; rewrite app_nil_r; reflexivity].
  - simpl. destruct (messageQueue s) as [| item rest] eqn:Hq.
    + simpl. split; [reflexivity |]. left. split; [reflexivity |].
      split; [exact Hq |].
      exists []. split; [constructor | simpl; rewrite app_nil_r; reflexivity].
    + simpl in Hlen.
      destruct (iteration_keeps_queue item (set_messageQueue rest s)) as (Hkq & Hkg).
      simpl in Hkq, Hkg.
      destruct (iteration_run item (set_messageQueue rest s)) as [(Hr & block & Hb & Ht)
                                                                 | (Hr & block & Hb & Ht)];
        unfold bind;
        destruct (iteration env item (set_messageQueue rest s)) as [o s1];
        simpl in Hr, Ht, Hkq, Hkg; subst o.
      * assert (Hlen1 : (length (messageQueue s1) <= fuel)%nat) by (rewrite Hkq; lia).
        destruct (IH s1 Hlen1) as (Hg & Hcases). split; [congruence |].
        destruct Hcases as [(Hr1 & Hq1 & blocks & Hf & Ht1)
                           | (Hr1 & served & item1 & blocks & block1 & Hq1 & Hf & Hab & Ht1)].
        -- left. split; [exact Hr1 |]. split; [exact Hq1 |].
           exists (block :: blocks). split.
           ++ constructor; [exact Hb |]. rewrite <- Hkq. exact Hf.
           ++ rewrite Ht1, Ht. simpl. rewrite <- app_assoc. reflexivity.
        -- right. split; [exact Hr1 |].
           exists (item :: served), item1, (block :: blocks), block1.
           split; [simpl; rewrite <- Hq1, Hkq; reflexivity |].
           split; [constructor; assumption |]. split; [exact Hab |].
           rewrite Ht1, Ht. simpl. rewrite <- !app_assoc. reflexivity.
      * split; [exact Hkg |]. right. split; [reflexivity |].
        exists [], item, [], block. simpl.
        split; [rewrite Hkq; reflexivity |].
        split; [constructor |]. split; [exact Hb | exact Ht].
Qed.

End Drain.

Section DrainClaims.

Variable env : Env.

Lemma itemsStarted_app t1 t2 : itemsStarted (t1 ++ t2) = itemsStarted t1 ++ itemsStarted t2.
Proof.
  induction t1 as [| e t1 IH]; simpl; [reflexivity |].
  destruct e; simpl; rewrite IH; reflexivity.
Qed.

Lemma itemsStarted_requests chat evs :
  Forall (requestFor chat) evs -> itemsStarted evs = [].
Proof.
  induction 1 as [| e evs He _ IH]; simpl; [reflexivity |].
  destruct e; simpl in *; [exact IH | contradiction | contradiction].
Qed.

Lemma servedBlock_started item block : servedBlock item block -> itemsStarted block = [item].
Proof.
  intros (evs & tail & -> & F & Ht). simpl. rewrite itemsStarted_app.
  rewrite (itemsStarted_requests _ _ F). simpl.
  destruct Ht as [-> | [-> _]]; reflexivity.
Qed.

Lemma servedBlocks_started items blocks :
  Forall2 servedBlock items blocks -> itemsStarted (concat blocks) = items.
Proof.
  induction 1 as [| item block items blocks Hb _ IH]; simpl; [reflexivity |].
  rewrite itemsStarted_app, (servedBlock_started _ _ Hb), IH. reflexivity.
Qed.

(** While the guard is set, [processMessageQueue] returns at once. *)
Lemma processMessageQueue_guarded s :
  isProcessingQueue s = true -> processMessageQueue env s = (Returned tt, s).
Proof. intros Hg. unfold processMessageQueue. rewrite Hg. reflexivity. Qed.

Lemma processMessageQueue_entered s :
  isProcessingQueue s = false ->
  messageQueue s <> [] ->
  processMessageQueue env s
  = match drain env (length (messageQueue s)) (set_isProcessingQueue true s) with
    | (Returned _, s1) => (Returned tt, set_isProcessingQueue false s1)
    | (o, s1) => (o, s1)
    end.
Proof.
  intros Hg Hne. unfold processMessageQueue. rewrite Hg.
  rewrite bool_decide_eq_false_2 by exact Hne. simpl.
  unfold bind, modify.
  destruct (drain env (length (messageQueue s)) (set_isProcessingQueue true s))
    as [[[] | |] s1]; reflexivity.
Qed.

(** What [processMessageQueue] does when it is entered with the guard
    clear: either the loop gets through the whole queue and the guard is
    cleared again, or a failure reply is rejected, the exception leaves
    the function, and the guard stays set with the rest still queued. *)
Lemma processMessageQueue_run s :
  isProcessingQueue s = false ->
  (fst (processMessageQueue env s) = Returned tt
   /\ isProcessingQueue (snd (processMessageQueue env s)) = false
   /\ messageQueue (snd (processMessageQueue env s)) = []
   /\ exists blocks,
        Forall2 servedBlock (messageQueue s) blocks
        /\ trace (snd (processMessageQueue env s)) = trace s ++ concat blocks)
  \/ (fst (processMessageQueue env s) = Thrown
      /\ isProcessingQueue (snd (processMessageQueue env s)) = true
      /\ exists served item blocks block,
           messageQueue s
           = served ++ item :: messageQueue (snd (processMessageQueue env s))
           /\ Forall2 servedBlock served blocks
           /\ abortedBlock item block
           /\ trace (snd (processMessageQueue env s)) = trace s ++ concat blocks ++ block).
Proof.
  intros Hg. destruct (messageQueue s) as [| item0 rest0] eqn:Hempty.
  - left. unfold processMessageQueue. rewrite Hg, Hempty. simpl.
    split; [reflexivity |]. split; [exact Hg |]. split; [exact Hempty |].
    exists []. split; [constructor | simpl; rewrite app_nil_r; reflexivity].
  - rewrite <- Hempty. rewrite processMessageQueue_entered by (rewrite ?Hempty; auto; discriminate).
    destruct (drain_run env (length (messageQueue s)) (set_isProcessingQueue true s)
                (Nat.le_refl _)) as (Hkeep & Hcases).
    simpl in Hkeep, Hcases.
    destruct (drain env (length (messageQueue s)) (set_isProcessingQueue true s))
      as [o s1]. simpl in Hkeep, Hcases.
    destruct Hcases as [(-> & Hq & blocks & Hf & Ht)
                       | (-> & served & item & blocks & block & Hq & Hf & Hab & Ht)].
    + left. simpl. split; [reflexivity |]. split; [reflexivity |]. split; [exact Hq |].
      exists blocks. split; assumption.
    + right. simpl. split; [reflexivity |]. split; [exact Hkeep |].
      exists served, item, blocks, block. repeat split; assumption.
Qed.

(** C9, amended.  A drain that runs to its end serves the queued items in
    queue order, one after the other: the trace it adds is the
    concatenation, in queue order, of one block per item; a block opens
    with the item's start mark, holds the requests made for it (texts only
    to the item's own chat, so replies reach the bridge in enqueue order),
    and closes with the 500 ms delay for every item whose text is not a
    command, whether its processing succeeded or failed. *)
Theorem drain_is_fifo_and_paced s s' :
  isProcessingQueue s = false ->
  processMessageQueue env s = (Returned tt, s') ->
  exists blocks,
    Forall2 servedBlock (messageQueue s) blocks
    /\ trace s' = trace s ++ concat blocks
    /\ itemsStarted (concat blocks) = messageQueue s
    /\ messageQueue s' = [].
Proof.
  intros Hg Hrun.
  destruct (processMessageQueue_run s Hg) as [(_ & _ & Hq & blocks & Hf & Ht) | (Hthrown & _)].
  - rewrite Hrun in Hq, Ht. simpl in Hq, Ht.
    exists blocks. split; [exact Hf |]. split; [exact Ht |].
    split; [apply servedBlocks_started, Hf | exact Hq].
  - rewrite Hrun in Hthrown. discriminate Hthrown.
Qed.

End DrainClaims.

Lemma drain_is_fifo_and_paced_witness :
  isProcessingQueue Scenario.twoQueued = false
  /\ processMessageQueue Scenario.worldUp Scenario.twoQueued
     = (Returned tt, snd (processMessageQueue Scenario.worldUp Scenario.twoQueued))
  /\ exists blocks,
       Forall2 servedBlock (messageQueue Scenario.twoQueued) blocks
       /\ trace (snd (processMessageQueue Scenario.worldUp Scenario.twoQueued))
          = trace Scenario.twoQueued ++ concat blocks
       /\ itemsStarted (concat blocks) = messageQueue Scenario.twoQueued
       /\ messageQueue (snd (processMessageQueue Scenario.worldUp Scenario.twoQueued)) = [].
Proof.
  assert (Hg : isProcessingQueue Scenario.twoQueued = false) by reflexivity.
  assert (Hr : processMessageQueue Scenario.worldUp Scenario.twoQueued
               = (Returned tt, snd (processMessageQueue Scenario.worldUp Scenario.twoQueued)))
    by (vm_compute; reflexivity).
  split; [exact Hg | split; [exact Hr |]].
  exact (drain_is_fifo_and_paced Scenario.worldUp Scenario.twoQueued _ Hg Hr).
Defined.

(** C9 as stated fails: after the handled command "@unhinge true" the loop
    starts the next item at once; the two items share a single delay. *)
Lemma no_delay_after_handled_command :
  (exists rest,
     trace (snd (processMessageQueue Scenario.worldUp Scenario.commandThenMessage))
     = Processing (Scenario.item Scenario.chatA "@unhinge true")
       :: Processing (Scenario.item Scenario.chatB "@ava hi") :: rest)
  /\ itemsStarted (trace (snd (processMessageQueue Scenario.worldUp Scenario.commandThenMessage)))
     = messageQueue Scenario.commandThenMessage
  /\ delays (trace (snd (processMessageQueue Scenario.worldUp Scenario.commandThenMessage)))
     = 1%nat.
Proof.
  split; [eexists; vm_compute; reflexivity |].
  split; vm_compute; reflexivity.
Qed.

(** C2: the code at a failing input.  With the bridge rejecting texts, the
    reply to the first item fails, the failure reply in the [catch] block
    fails too, and the exception leaves [processMessageQueue]: the guard
    stays set, the second item stays queued, and from then on every call of
    [processMessageQueue], also after further enqueues and with the bridge
    back, returns at once without processing anything. *)
Theorem rejected_failure_reply_wedges_queue :
  fst (processMessageQueue Scenario.bridgeDown Scenario.twoQueued) = Thrown
  /\ isProcessingQueue (snd (processMessageQueue Scenario.bridgeDown Scenario.twoQueued)) = true
  /\ messageQueue (snd (processMessageQueue Scenario.bridgeDown Scenario.twoQueued))
     = [ Scenario.item Scenario.chatB "@ava second" ]
  /\ textsSent (trace (snd (processMessageQueue Scenario.bridgeDown Scenario.twoQueued)))
     = [ (Scenario.chatA, lit "hi there " ++ SIGNATURE); (Scenario.chatA, PROCESSING_FAILED) ]
  /\ forall env chat text,
       processMessageQueue env
         (snd (queueMessageProcessing chat text
                 (snd (processMessageQueue Scenario.bridgeDown Scenario.twoQueued))))
       = (Returned tt,
          snd (queueMessageProcessing chat text
                 (snd (processMessageQueue Scenario.bridgeDown Scenario.twoQueued)))).
Proof.
  split; [vm_compute; reflexivity |].
  assert (Hg : isProcessingQueue
                 (snd (processMessageQueue Scenario.bridgeDown Scenario.twoQueued)) = true)
    by (vm_compute; reflexivity).
  split; [exact Hg |].
  split; [vm_compute; reflexivity |].
  split; [vm_compute; reflexivity |].
  intros env chat text. apply processMessageQueue_guarded. exact Hg.
Qed.

(** ** What the poller asks of the outside *)

Section PollEmits.

Variable env : Env.
Variable TRIGGER : jsstring.
Variable startupTime : N.

(** A visit makes no request and ends normally. *)
Lemma visitMessage_silent chat msg s :
  fst (visitMessage TRIGGER startupTime chat msg s) = Returned tt
  /\ trace (snd (visitMessage TRIGGER startupTime chat msg s)) = trace s.
Proof.
  unfold visitMessage.
  destruct (guid msg) as [[| c g] |]; try (split; reflexivity).
  destruct (Ordered.has (c :: g) (seen s)); [split; reflexivity |].
  destruct (messageTime msg <? startupTime); [split; reflexivity |].
  match goal with |- context [if ?b then _ else _] => destruct b end;
    split; reflexivity.
Qed.

Lemma emits_forEach {A} ok (f : A -> M unit) (l : list A) :
  (forall x, emits ok (f x)) -> emits ok (forEach f l).
Proof.
  intros Hf. induction l as [| x l IH]; simpl.
  - apply emits_ret.
  - apply emits_bind; [apply Hf | intros _; exact IH].
Qed.

Lemma emits_visitMessage chat msg :
  emits isQuery (visitMessage TRIGGER startupTime chat msg).
Proof.
  intros s. destruct (visitMessage_silent chat msg s) as (Hr & Ht).
  split; [rewrite Hr; discriminate |].
  exists []. rewrite Ht, app_nil_r. split; [reflexivity | constructor].
Qed.

Lemma emits_pollScan : emits isQuery (pollScan env TRIGGER startupTime).
Proof.
  unfold pollScan. apply emits_bind.
  - apply emits_quiet, quiet_call. intros r. exact I.
  - intros r. apply emits_forEach. intros chat. unfold visitChat.
    apply emits_bind.
    + apply emits_quiet, quiet_call. intros r0. exact I.
    + intros r0. apply emits_forEach. intros msg. apply emits_visitMessage.
Qed.

Lemma emits_pollCycle : emits isQuery (pollCycle env TRIGGER startupTime).
Proof.
  unfold pollCycle. apply emits_tryCatch; [| apply emits_ret].
  unfold pollBody. apply emits_bind; [apply emits_pollScan | intros _].
  unfold cleanUp.
  apply emits_bind; [apply emits_modify; reflexivity | intros _].
  apply emits_bind; [apply emits_modify; reflexivity | intros _].
  apply emits_modify. reflexivity.
Qed.

End PollEmits.

(** ** The dedup ledgers *)

Section Ledgers.

Import Ordered.

Lemma has_false g l : has g l = false -> g ∉ l.
Proof. unfold has. intros H. exact (bool_decide_eq_false_1 _ H). Qed.

Lemma add_fresh g l : g ∉ l -> add g l = l ++ [g].
Proof.
  intros H. unfold add, has. rewrite bool_decide_eq_false_2 by exact H. reflexivity.
Qed.

Lemma add_nodup g l : NoDup l -> NoDup (add g l).
Proof.
  intros Hl. unfold add. destruct (has g l) eqn:Hh; [exact Hl |].
  apply NoDup_app. split; [exact Hl |]. split.
  - intros x Hx Hg. apply list_elem_of_singleton in Hg. subst x.
    exact (has_false _ _ Hh Hx).
  - apply NoDup_singleton.
Qed.

Lemma add_length g l : (length (add g l) <= S (length l))%nat.
Proof.
  unfold add. destruct (has g l); [lia |]. rewrite length_app. simpl. lia.
Qed.

Lemma refill_from acc xs :
  NoDup (acc ++ xs) -> fold_left (fun a g => add g a) xs acc = acc ++ xs.
Proof.
  revert acc. induction xs as [| x xs IH]; intros acc Hn; simpl.
  - rewrite app_nil_r. reflexivity.
  - assert (Hx : x ∉ acc).
    { apply NoDup_app in Hn as (_ & Hd & _). intros Hin.
      apply (Hd x Hin). left. }
    rewrite (add_fresh _ _ Hx). rewrite IH.
    + rewrite <- app_assoc. reflexivity.
    + rewrite <- app_assoc. exact Hn.
Qed.

Lemma refill_nodup xs : NoDup xs -> refill xs = xs.
Proof. intros H. unfold refill. rewrite refill_from; [reflexivity | exact H]. Qed.

Lemma refill_from_length acc xs :
  (length (fold_left (fun a g => add g a) xs acc) <= length acc + length xs)%nat.
Proof.
  revert acc. induction xs as [| x xs IH]; intros acc; simpl; [lia |].
  specialize (IH (add x acc)). pose proof (add_length x acc). lia.
Qed.

Lemma lastN_nodup {A} n (l : list A) : NoDup l -> NoDup (lastN n l).
Proof. intros H. unfold lastN. exact (sublist_NoDup _ _ H (sublist_drop _ _)). Qed.

(** The clean-up of a ledger: never more than a thousand afterwards. *)
Lemma prune_bound l : (length (prune l) <= 1000)%nat.
Proof.
  unfold prune. destruct (1000 <? length l)%nat eqn:Hl.
  - unfold refill. pose proof (refill_from_length [] (lastN 500 l)) as H.
    pose proof (lastN_length 500 l). simpl in H. lia.
  - apply Nat.ltb_ge in Hl. exact Hl.
Qed.

(** Past the threshold, exactly the last five hundred remain, in order. *)
Lemma prune_keeps_last l :
  NoDup l -> (1000 < length l)%nat ->
  prune l = lastN 500 l /\ length (prune l) = 500%nat.
Proof.
  intros Hn Hl. unfold prune.
  rewrite (proj2 (Nat.ltb_lt _ _) Hl).
  rewrite (refill_nodup _ (lastN_nodup 500 l Hn)).
  split; [reflexivity |]. unfold lastN. rewrite length_drop. lia.
Qed.

Lemma prune_nodup l : NoDup l -> NoDup (prune l).
Proof.
  intros Hn. unfold prune. destruct (1000 <? length l)%nat; [| exact Hn].
  rewrite (refill_nodup _ (lastN_nodup 500 l Hn)). apply lastN_nodup, Hn.
Qed.

End Ledgers.

Section LedgerClaims.

Variable env : Env.
Variable TRIGGER : jsstring.
Variable startupTime : N.

Lemma visitMessage_distinct chat msg :
  triple ledgersDistinct (visitMessage TRIGGER startupTime chat msg)
         (fun _ => ledgersDistinct) ledgersDistinct.
Proof.
  intros s [Hs Hp]. unfold visitMessage.
  destruct (guid msg) as [[| c g] |]; try (split; assumption).
  destruct (Ordered.has (c :: g) (seen s)); [split; assumption |].
  assert (Hs1 : NoDup (Ordered.add (c :: g) (seen s))) by apply add_nodup, Hs.
  destruct (messageTime msg <? startupTime); [split; assumption |].
  match goal with |- context [if ?b then _ else _] => destruct b end;
    [| split; assumption].
  unfold queueMessageProcessing. run. split; [exact Hs1 | apply add_nodup, Hp].
Qed.

Lemma pollScan_distinct :
  triple ledgersDistinct (pollScan env TRIGGER startupTime)
         (fun _ => ledgersDistinct) ledgersDistinct.
Proof.
  unfold pollScan. apply triple_bind with (Q := fun _ => ledgersDistinct).
  - eapply triple_quiet;
      [apply (@quiet_call env (fun _ => True)); intros; exact I
      | intros t s H; exact H].
  - intros r. apply triple_forEach. intros chat. unfold visitChat.
    apply triple_bind with (Q := fun _ => ledgersDistinct).
    + eapply triple_quiet;
        [apply (@quiet_call env (fun _ => True)); intros; exact I
        | intros t s H; exact H].
    + intros r0. apply triple_forEach. intros msg. apply visitMessage_distinct.
Qed.

Lemma prune_below l : (length l <= 1000)%nat -> Ordered.prune l = l.
Proof.
  intros H. unfold Ordered.prune. rewrite (proj2 (Nat.ltb_ge _ _) H). reflexivity.
Qed.

(** C8, amended.  A poll cycle whose scan runs to its end ends with each
    ledger cleaned up: a ledger the scan left with more than a thousand
    entries holds exactly the five hundred most recently added of them,
    in insertion order; one the scan left with a thousand or fewer is as
    the scan left it; either way it holds at most a thousand.  A cycle
    whose scan is cut short by a rejected bridge query skips the
    clean-up: it ends in the state in which the scan stopped, whatever
    the size of the ledgers.  In both cases the ledgers stay free of
    duplicates. *)
Theorem ledgers_pruned_when_cycle_completes s :
  ledgersDistinct s ->
  let scanned := snd (pollScan env TRIGGER startupTime s) in
  let s' := snd (pollCycle env TRIGGER startupTime s) in
  (fst (pollScan env TRIGGER startupTime s) = Returned tt ->
   (length (seen s') <= 1000)%nat
   /\ (length (processedMessages s') <= 1000)%nat
   /\ ((1000 < length (seen scanned))%nat ->
       seen s' = Ordered.lastN 500 (seen scanned) /\ length (seen s') = 500%nat)
   /\ ((length (seen scanned) <= 1000)%nat -> seen s' = seen scanned)
   /\ ((1000 < length (processedMessages scanned))%nat ->
       processedMessages s' = Ordered.lastN 500 (processedMessages scanned)
       /\ length (processedMessages s') = 500%nat)
   /\ ((length (processedMessages scanned) <= 1000)%nat ->
       processedMessages s' = processedMessages scanned))
  /\ (fst (pollScan env TRIGGER startupTime s) = Thrown -> s' = scanned)
  /\ fst (pollScan env TRIGGER startupTime s) <> OutOfFuel
  /\ ledgersDistinct s'.
Proof.
  intros Hd scanned s'.
  pose proof (triple_final _ _ _ pollScan_distinct s Hd) as [Hs Hp].
  fold scanned in Hs, Hp.
  assert (Hfuel : fst (pollScan env TRIGGER startupTime s) <> OutOfFuel).
  { destruct (emits_pollScan env TRIGGER startupTime s) as (H & _). exact H. }
  subst s' scanned. unfold pollCycle, tryCatch, pollBody, bind in *.
  destruct (pollScan env TRIGGER startupTime s) as [[[] | |] scanned]; simpl in *.
  - unfold cleanUp. run.
    split; [| split; [discriminate | split; [discriminate |]]].
    + intros _. split; [apply prune_bound |]. split; [apply prune_bound |].
      split; [intros Hl; apply prune_keeps_last; assumption |].
      split; [apply prune_below |].
      split; [intros Hl; apply prune_keeps_last; assumption | apply prune_below].
    + split; apply prune_nodup; assumption.
  - split; [discriminate |]. split; [reflexivity |]. split; [discriminate |].
    split; assumption.
  - contradiction.
Qed.

End LedgerClaims.

Lemma fullLedger_distinct : NoDup Scenario.fullLedger.
Proof.
  unfold Scenario.fullLedger.
  assert (Hinj : Inj eq eq (fun n : nat => [N.of_nat n])).
  { intros a b H. injection H as H. apply Nat2N.inj, H. }
  change (NoDup ((fun n : nat => [N.of_nat n]) <$> seq 1 1000)).
  apply (NoDup_fmap_2 _). apply NoDup_seq.
Qed.

Lemma ledgers_pruned_when_cycle_completes_witness :
  ledgersDistinct Scenario.ledgerFull
  /\ fst (pollScan Scenario.oneFresh (lit "@ava") 0 Scenario.ledgerFull) = Returned tt
  /\ length (seen (snd (pollScan Scenario.oneFresh (lit "@ava") 0 Scenario.ledgerFull)))
     = 1001%nat
  /\ length (seen (snd (pollCycle Scenario.oneFresh (lit "@ava") 0 Scenario.ledgerFull)))
     = 500%nat
  /\ seen (snd (pollCycle Scenario.oneFresh (lit "@ava") 0 Scenario.ledgerFull))
     = List.map (fun n => [N.of_nat n]) (seq 502 499) ++ [lit "fresh"].
Proof.
  assert (Hd : ledgersDistinct Scenario.ledgerFull).
  { split; [exact fullLedger_distinct | constructor]. }
  assert (Hr : fst (pollScan Scenario.oneFresh (lit "@ava") 0 Scenario.ledgerFull)
               = Returned tt) by (vm_compute; reflexivity).
  assert (Hlen : length (seen (snd (pollScan Scenario.oneFresh (lit "@ava") 0
                                      Scenario.ledgerFull))) = 1001%nat)
    by (vm_compute; reflexivity).
  split; [exact Hd |]. split; [exact Hr |]. split; [exact Hlen |].
  pose proof (ledgers_pruned_when_cycle_completes Scenario.oneFresh (lit "@ava") 0
                Scenario.ledgerFull Hd) as H.
  cbv zeta in H. destruct H as (Hdone & _).
  destruct (Hdone Hr) as (_ & _ & Hover & _).
  assert (Hgt : (1000 < length (seen (snd (pollScan Scenario.oneFresh (lit "@ava") 0
                                             Scenario.ledgerFull))))%nat)
    by (rewrite Hlen; apply Nat.lt_succ_diag_r).
  destruct (Hover Hgt) as (Hlast & H500).
  split; [exact H500 |]. rewrite Hlast. vm_compute. reflexivity.
Defined.

(** C8 as stated fails: a cycle that starts with a thousand seen
    identifiers, records one more and then has a message query rejected
    ends, its clean-up skipped, with a thousand and one. *)
Lemma aborted_cycle_leaves_ledger_over_threshold :
  length (seen Scenario.ledgerFull) = 1000%nat
  /\ length (seen (snd (pollCycle Scenario.flakyBridge (lit "@ava") 0 Scenario.ledgerFull)))
     = 1001%nat
  /\ ~ (length (seen (snd (pollCycle Scenario.flakyBridge (lit "@ava") 0
                             Scenario.ledgerFull))) <= 1000)%nat.
Proof.
  assert (H : length (seen (snd (pollCycle Scenario.flakyBridge (lit "@ava") 0
                                   Scenario.ledgerFull))) = 1001%nat)
    by (vm_compute; reflexivity).
  split; [vm_compute; reflexivity |]. split; [exact H | rewrite H; lia].
Qed.

(** ** What the command patterns match *)

Section Matcher.

Lemma matchKeyword_sound kw s rest :
  matchKeyword kw s = Some rest -> exists k, s = k ++ rest /\ sameLetters kw k.
Proof.
  revert s. induction kw as [| a kw IH]; intros s; simpl.
  - intros [= ->]. exists []. split; [reflexivity | constructor].
  - destruct s as [| b s]; [discriminate |].
    destruct (canonicalize a =? canonicalize b) eqn:Hab; [| discriminate].
    intros H. destruct (IH s H) as (k & -> & Hk).
    exists (b :: k). split; [reflexivity |].
    constructor; [apply N.eqb_eq, Hab | exact Hk].
Qed.

Lemma matchKeyword_complete kw k rest :
  sameLetters kw k -> matchKeyword kw (k ++ rest) = Some rest.
Proof.
  induction 1 as [| a b kw k Hab _ IH]; simpl; [reflexivity |].
  rewrite (proj2 (N.eqb_eq _ _) Hab). exact IH.
Qed.

Lemma spaceStarThen_sound {A} (k : jsstring -> option A) s r :
  spaceStarThen k s = Some r ->
  exists ws s', s = ws ++ s' /\ whiteSpaces ws /\ k s' = Some r.
Proof.
  revert r. induction s as [| c s IH]; intros r; simpl.
  - intros H. exists [], []. split; [reflexivity |]. split; [constructor | exact H].
  - destruct (isWhiteSpace c) eqn:Hc.
    + destruct (spaceStarThen k s) as [r' |] eqn:Hs.
      * intros [= ->]. destruct (IH r eq_refl) as (ws & s' & -> & Hws & Hk).
        exists (c :: ws), s'. split; [reflexivity |].
        split; [constructor; assumption | exact Hk].
      * intros H. exists [], (c :: s). split; [reflexivity |].
        split; [constructor | exact H].
    + intros H. exists [], (c :: s). split; [reflexivity |].
      split; [constructor | exact H].
Qed.

Lemma spaceStarThen_here {A} (k : jsstring -> option A) s r :
  k s = Some r -> exists r', spaceStarThen k s = Some r'.
Proof.
  intros H. destruct s as [| c s]; simpl; [eauto |].
  destruct (isWhiteSpace c); [| eauto].
  destruct (spaceStarThen k s); eauto.
Qed.

Lemma spaceStarThen_complete {A} (k : jsstring -> option A) ws s' r :
  whiteSpaces ws -> k s' = Some r -> exists r', spaceStarThen k (ws ++ s') = Some r'.
Proof.
  intros Hws Hk. induction Hws as [| w ws Hw _ IH]; simpl.
  - exact (spaceStarThen_here k s' r Hk).
  - rewrite Hw. destruct IH as (r' & ->). eauto.
Qed.

Lemma captureDotPlus_some s :
  (exists r, captureDotPlus s = Some r)
  <-> exists c rest, s = c :: rest /\ isLineTerminator c = false.
Proof.
  unfold captureDotPlus. destruct s as [| c s]; simpl.
  - split; [intros [r H]; discriminate H | intros (c & rest & H & _); discriminate H].
  - destruct (isLineTerminator c) eqn:Hc.
    + split; [intros [r H]; discriminate H |].
      intros (c' & rest & [= <- <-] & H). congruence.
    + split; [intros _; eauto | intros _; eauto].
Qed.

Lemma matchAt_some kw s :
  (exists r, matchAt kw s = Some r) <-> describedAt kw s.
Proof.
  unfold matchAt, describedAt. split.
  - intros [r H]. destruct (matchKeyword kw s) as [rest |] eqn:Hk; [| discriminate].
    apply matchKeyword_sound in Hk as (k & -> & Hsame).
    unfold spacePlusThen in H. destruct rest as [| w rest]; [discriminate |].
    destruct (isWhiteSpace w) eqn:Hw; [| discriminate].
    apply spaceStarThen_sound in H as (ws & s' & -> & Hws & Hcap).
    destruct (proj1 (captureDotPlus_some s') (ex_intro _ r Hcap)) as (c & tl & -> & Hc).
    exists k, (w :: ws), c, tl. split; [reflexivity |]. split; [exact Hsame |].
    split; [discriminate |]. split; [constructor; assumption | exact Hc].
  - intros (k & ws & c & rest & -> & Hsame & Hne & Hws & Hc).
    rewrite (matchKeyword_complete kw k _ Hsame).
    destruct ws as [| w ws]; [congruence |].
    inversion Hws as [| ? ? Hw Hws']; subst. simpl. rewrite Hw.
    destruct (proj2 (captureDotPlus_some (c :: rest))) as (r & Hr); [eauto |].
    exact (spaceStarThen_complete _ ws (c :: rest) r Hws' Hr).
Qed.

(** The pattern finds a match exactly in the texts where the keyword is
    followed by a description. *)
Lemma matchCommand_some kw text :
  (exists r, matchCommand kw text = Some r) <-> described kw text.
Proof.
  unfold described. split.
  - induction text as [| c text IH]; simpl.
    + destruct (matchAt kw []) eqn:Hm; [| intros [r H]; discriminate H].
      intros _. exists [], []. split; [reflexivity |]. apply matchAt_some. eauto.
    + destruct (matchAt kw (c :: text)) eqn:Hm.
      * intros _. exists [], (c :: text). split; [reflexivity |].
        apply matchAt_some. eauto.
      * intros H. destruct (IH H) as (pre & s & -> & Hs).
        exists (c :: pre), s. split; [reflexivity | exact Hs].
  - intros (pre & s & -> & Hs). apply matchAt_some in Hs as (r & Hr).
    induction pre as [| c pre IH]; simpl.
    + destruct s; simpl; rewrite Hr; eauto.
    + destruct (matchAt kw (c :: pre ++ s)); [eauto | exact IH].
Qed.

Lemma matchCommand_none kw text : ~ described kw text -> matchCommand kw text = None.
Proof.
  intros H. destruct (matchCommand kw text) eqn:Hm; [| reflexivity].
  exfalso. apply H, matchCommand_some. eauto.
Qed.

End Matcher.

(** ** A bare [@character] *)

Section BareCharacter.

Variable env : Env.
Variable TRIGGER : jsstring.
Variable startupTime : N.

Lemma containsTrigger_character txt :
  includes KW_CHARACTER (toLowerCase txt) = true -> containsTrigger TRIGGER txt = true.
Proof.
  intros H. unfold containsTrigger, TRIGGERS. cbn [existsb].
  replace (toLowerCase KW_CHARACTER) with KW_CHARACTER by (vm_compute; reflexivity).
  rewrite H. rewrite orb_true_r. reflexivity.
Qed.

Lemma prepared_facts item s :
  trace (prepared item s) = trace s ++ [Processing item]
  /\ USE_OLLAMA (prepared item s) = USE_OLLAMA s
  /\ chatCharacters (prepared item s) = chatCharacters s
  /\ getContext (chatGuid item) (prepared item s) = getContext (chatGuid item) s.
Proof.
  unfold prepared, emit, ensureContext. run. unfold getContext. simpl.
  destruct (Ordered.get (chatGuid item) (chatContexts s)) eqn:Hg; simpl.
  - rewrite Hg. auto.
  - rewrite OrderedFacts.get_set_eq. auto.
Qed.

(** C10, amended.  Take a text that contains "@character" (in any letter
    case) and in which neither "@character" nor "@unhinge" is followed by
    white space and then a unit other than a line terminator; the text
    "@character" alone is one.  A new message with that text is recorded in
    both ledgers and enqueued by the poller; the command interpreter
    returns not-handled and changes nothing; and the item then takes the
    ordinary path: its text becomes a user turn of the chat's context, and
    the window ending in that turn goes to the backend the flag selects. *)
Theorem bare_character_falls_through chat msg g txt s :
  includes KW_CHARACTER (toLowerCase txt) = true ->
  ~ described KW_CHARACTER txt ->
  ~ described KW_UNHINGE txt ->
  guid msg = Some g -> g <> [] -> text msg = Some txt ->
  g ∉ seen s -> g ∉ processedMessages s ->
  startupTime <= messageTime msg ->
  let item := {| chatGuid := chat; itemText := txt |} in
  visitMessage TRIGGER startupTime chat msg s
  = (Returned tt,
     set_messageQueue (messageQueue s ++ [item])
       (set_processedMessages (processedMessages s ++ [g])
          (set_seen (seen s ++ [g]) s)))
  /\ (forall s1, parseCommand env txt chat s1 = (Returned false, s1))
  /\ (forall s1,
        let sent := Ordered.lastN 10
                      (getContext chat s1 ++ [ {| role := user; content := txt |} ]) in
        exists r rest,
          trace (snd (tryBlock env item s1))
          = trace s1 ++ Processing item
                     :: Called (chatRequest (USE_OLLAMA s1) (personaOf chat s1) sent) r
                     :: rest).
Proof.
  intros Hin Hc Hu Hg Hne Ht Hseen Hproc Htime item.
  apply matchCommand_none in Hc. apply matchCommand_none in Hu.
  split; [| split].
  - unfold visitMessage. rewrite Hg. destruct g as [| c g']; [congruence |].
    unfold Ordered.has. rewrite bool_decide_eq_false_2 by exact Hseen.
    rewrite (proj2 (N.ltb_ge _ _) Htime). rewrite Ht.
    rewrite (containsTrigger_character txt Hin). simpl.
    rewrite (add_fresh _ _ Hseen).
    rewrite bool_decide_eq_false_2 by exact Hproc. simpl.
    unfold queueMessageProcessing. run. rewrite (add_fresh _ _ Hproc). reflexivity.
  - intros s1. unfold parseCommand. rewrite Hc, Hu. reflexivity.
  - intros s1 sent.
    rewrite (tryBlock_not_command env item s1 Hc Hu).
    destruct (converse_request env item (prepared item s1)) as (rest & Hr).
    destruct (prepared_facts item s1) as (Htr & Hfl & Hch & Hctx).
    simpl in Hctx. unfold personaOf in *. simpl in Hr.
    rewrite Htr, Hfl, Hch, Hctx in Hr.
    do 2 eexists. rewrite Hr, <- app_assoc. reflexivity.
Qed.

End BareCharacter.

Lemma bare_character_falls_through_witness :
  includes KW_CHARACTER (toLowerCase (lit "@character")) = true
  /\ ~ described KW_CHARACTER (lit "@character")
  /\ ~ described KW_UNHINGE (lit "@character")
  /\ forall s1,
       parseCommand Scenario.worldUp (lit "@character") Scenario.chatA s1
       = (Returned false, s1).
Proof.
  assert (Hin : includes KW_CHARACTER (toLowerCase (lit "@character")) = true)
    by (vm_compute; reflexivity).
  assert (Hc : ~ described KW_CHARACTER (lit "@character")).
  { intros H. apply matchCommand_some in H as (r & Hr). vm_compute in Hr. discriminate Hr. }
  assert (Hu : ~ described KW_UNHINGE (lit "@character")).
  { intros H. apply matchCommand_some in H as (r & Hr). vm_compute in Hr. discriminate Hr. }
  split; [exact Hin | split; [exact Hc | split; [exact Hu |]]].
  refine (proj1 (proj2 (bare_character_falls_through Scenario.worldUp (lit "@ava") 3
                          Scenario.chatA
                          {| guid := Some (lit "m1"); dateCreated := Some 5;
                             dateDelivered := None; text := Some (lit "@character") |}
                          (lit "m1") (lit "@character") initialState
                          Hin Hc Hu eq_refl _ eq_refl _ _ _))).
  - discriminate.
  - simpl. apply not_elem_of_nil.
  - simpl. apply not_elem_of_nil.
  - vm_compute. discriminate.
Defined.

(** C10 as stated fails, at two texts that hold the token "@character"
    with no description after it.  "@character" followed by two spaces:
    the pattern matches (the white space gives back one space to the
    capture), so the interpreter returns handled, with an empty
    description, and nothing reaches the context.  "@unhinge true
    @character": the interpreter returns handled through its [@unhinge]
    case. *)
Lemma bare_character_can_be_handled :
  (lit "@character  " = KW_CHARACTER ++ lit "  "
   /\ whiteSpaces (lit "  ")
   /\ fst (parseCommand Scenario.worldUp (lit "@character  ") Scenario.chatA initialState)
      = Returned true
   /\ textsSent (trace (snd (tryBlock Scenario.worldUp
                               (Scenario.item Scenario.chatA "@character  ") initialState)))
      = [ (Scenario.chatA, characterUpdated []) ]
   /\ getContext Scenario.chatA
        (snd (tryBlock Scenario.worldUp
                (Scenario.item Scenario.chatA "@character  ") initialState)) = [])
  /\ (lit "@unhinge true @character" = lit "@unhinge true " ++ KW_CHARACTER
      /\ parseCommand Scenario.worldUp (lit "@unhinge true @character") Scenario.chatA
           initialState
         = (Returned true, set_USE_OLLAMA false initialState)).
Proof.
  split.
  - split; [reflexivity |].
    split; [repeat constructor |].
    split; [vm_compute; reflexivity |].
    split; vm_compute; reflexivity.
  - split; [reflexivity | vm_compute; reflexivity].
Qed.

(** The bare token end to end: the bridge lists a new message
    "@character", a poll cycle enqueues it, and the drain then serves it
    as an ordinary message. *)
Lemma bare_character_end_to_end :
  messageQueue (snd (pollCycle Scenario.bareCharacterListed (lit "@ava") 3 initialState))
  = [ {| chatGuid := Scenario.chatA; itemText := lit "@character" |} ]
  /\ processedMessages
       (snd (pollCycle Scenario.bareCharacterListed (lit "@ava") 3 initialState))
     = [ lit "m1" ]
  /\ textsSent
       (trace (snd (processMessageQueue Scenario.bareCharacterListed
                      (snd (pollCycle Scenario.bareCharacterListed (lit "@ava") 3
                              initialState)))))
     = [ (Scenario.chatA, lit "hi there " ++ SIGNATURE) ]
  /\ getContext Scenario.chatA
       (snd (processMessageQueue Scenario.bareCharacterListed
               (snd (pollCycle Scenario.bareCharacterListed (lit "@ava") 3 initialState))))
     = [ {| role := user; content := lit "@character" |};
         {| role := assistant; content := lit "hi there" |} ].
Proof. repeat split; vm_compute; reflexivity. Qed.

(** ** The poller: further properties *)

Section PollerFacts.

Variable env : Env.
Variable TRIGGER : jsstring.
Variable startupTime : N.

(** X1.  The interval callback never lets an exception out, whatever the
    bridge answers: it always returns.  All the poller itself asks of the
    outside are the two bridge queries (texts and backend calls are the
    drain's), the chat list first; and when the chat list is rejected the
    cycle ends there: nothing but the trace changes. *)
Theorem poll_cycle_always_returns s :
  fst (pollCycle env TRIGGER startupTime s) = Returned tt
  /\ (exists rest,
        trace (snd (pollCycle env TRIGGER startupTime s))
        = trace s ++ Called BridgeChats (env (trace s) BridgeChats) :: rest
        /\ Forall isQuery rest)
  /\ (env (trace s) BridgeChats = Rejected ->
      snd (pollCycle env TRIGGER startupTime s)
      = set_trace (trace s ++ [Called BridgeChats Rejected]) s).
Proof.
  split; [| split].
  - destruct (emits_pollCycle env TRIGGER startupTime s) as (Hfuel & _).
    unfold pollCycle, tryCatch in *.
    destruct (pollBody env TRIGGER startupTime s) as [[[] | |] s1];
      simpl in *; [reflexivity | reflexivity | contradiction].
  - assert (Hrest : emits isQuery
              (forEach (visitChat env TRIGGER startupTime)
                       match env (trace s) BridgeChats with
                       | Chats l => l
                       | _ => []
                       end ;;; cleanUp)).
    { apply emits_bind.
      - apply emits_forEach. intros chat. unfold visitChat.
        apply emits_bind; [apply emits_quiet, quiet_call; intros r; exact I |].
        intros r. apply emits_forEach. intros msg. apply emits_visitMessage.
      - intros _. unfold cleanUp.
        apply emits_bind; [apply emits_modify; reflexivity | intros _].
        apply emits_bind; [apply emits_modify; reflexivity | intros _].
        apply emits_modify. reflexivity. }
    destruct (Hrest (set_trace (trace s ++ [Called BridgeChats (env (trace s) BridgeChats)]) s))
      as (_ & evs & Hevs & Hq).
    unfold pollCycle, tryCatch, pollBody, pollScan. unfold bind at 1 2. unfold call.
    destruct (env (trace s) BridgeChats) as [| | | | | | chats |] eqn:Hr; simpl.
    all: try solve [exists []; split; [reflexivity | constructor]].
    exists evs. split; [| exact Hq].
    unfold bind in Hevs |- *.
    destruct (forEach (visitChat env TRIGGER startupTime) chats
                (set_trace (trace s ++ [Called BridgeChats (Chats chats)]) s))
      as [[[] | |] s1]; simpl in *; rewrite Hevs, <- app_assoc; reflexivity.
  - intros Hr. unfold pollCycle, tryCatch, pollBody, pollScan, bind, call.
    rewrite Hr. reflexivity.
Qed.

End PollerFacts.

Section ScanFacts.

Variable env : Env.
Variable TRIGGER : jsstring.
Variable startupTime : N.

Lemma has_true g l : g ∈ l -> Ordered.has g l = true.
Proof. intros H. unfold Ordered.has. apply bool_decide_eq_true_2, H. Qed.

Lemma enqueuedSince_refl s : enqueuedSince TRIGGER s s.
Proof.
  exists [], []. rewrite !app_nil_r. repeat split; constructor.
Qed.

Lemma visitMessage_enqueued s0 chat msg :
  triple (enqueuedSince TRIGGER s0) (visitMessage TRIGGER startupTime chat msg)
         (fun _ => enqueuedSince TRIGGER s0) (enqueuedSince TRIGGER s0).
Proof.
  intros s Hs. unfold visitMessage.
  destruct (guid msg) as [[| c g] |]; try exact Hs.
  destruct (Ordered.has (c :: g) (seen s)); [exact Hs |].
  destruct (messageTime msg <? startupTime); [exact Hs |].
  simpl.
  destruct (containsTrigger TRIGGER match text msg with Some t => t | None => [] end)
    eqn:Htrig; simpl; [| exact Hs].
  destruct (Ordered.has (c :: g) (processedMessages s)) eqn:Hproc; simpl; [exact Hs |].
  destruct Hs as (ids & items & Hp & Hq & Hlen & Hall).
  unfold queueMessageProcessing. run.
  exists (ids ++ [c :: g]),
         (items ++ [ {| chatGuid := chat;
                        itemText := match text msg with Some t => t | None => [] end |} ]).
  rewrite (add_fresh _ _ (has_false _ _ Hproc)), Hp, Hq, <- !app_assoc.
  split; [reflexivity |]. split; [reflexivity |].
  split; [rewrite !length_app; simpl; lia |].
  apply Forall_app. split; [exact Hall |]. constructor; [exact Htrig | constructor].
Qed.

Lemma pollScan_enqueued s0 :
  triple (enqueuedSince TRIGGER s0) (pollScan env TRIGGER startupTime)
         (fun _ => enqueuedSince TRIGGER s0) (enqueuedSince TRIGGER s0).
Proof.
  unfold pollScan. apply triple_bind with (Q := fun _ => enqueuedSince TRIGGER s0).
  - eapply triple_quiet;
      [apply (@quiet_call env (fun _ => True)); intros; exact I
      | intros t s H; exact H].
  - intros r. apply triple_forEach. intros chat. unfold visitChat.
    apply triple_bind with (Q := fun _ => enqueuedSince TRIGGER s0).
    + eapply triple_quiet;
        [apply (@quiet_call env (fun _ => True)); intros; exact I
        | intros t s H; exact H].
    + intros r0. apply triple_forEach. intros msg. apply visitMessage_enqueued.
Qed.

(** The queue a poll cycle leaves is the queue its scan leaves. *)
Lemma pollCycle_queue s :
  messageQueue (snd (pollCycle env TRIGGER startupTime s))
  = messageQueue (snd (pollScan env TRIGGER startupTime s)).
Proof.
  unfold pollCycle, tryCatch, pollBody, bind.
  destruct (pollScan env TRIGGER startupTime s) as [[[] | |] s1]; reflexivity.
Qed.

(** X2.  What the poller itself enqueues: it only pushes at the tail of
    the queue (taking items off the head is the drain's), every item
    pushed carries a trigger, and each addition is matched by one
    identifier newly entered in the processed ledger, distinct from every
    identifier already there, so within a scan no message is enqueued
    twice and none that is recorded as processed is enqueued again. *)
Theorem scan_enqueues_each_trigger_once s :
  ledgersDistinct s ->
  exists ids items,
    processedMessages (snd (pollScan env TRIGGER startupTime s))
    = processedMessages s ++ ids
    /\ NoDup (processedMessages s ++ ids)
    /\ length ids = length items
    /\ Forall (fun it => containsTrigger TRIGGER (itemText it) = true) items
    /\ messageQueue (snd (pollScan env TRIGGER startupTime s)) = messageQueue s ++ items
    /\ messageQueue (snd (pollCycle env TRIGGER startupTime s)) = messageQueue s ++ items.
Proof.
  intros Hd.
  pose proof (triple_final _ _ _ (pollScan_enqueued s) s (enqueuedSince_refl s))
    as (ids & items & Hp & Hq & Hlen & Hall).
  pose proof (triple_final _ _ _ (pollScan_distinct env TRIGGER startupTime) s Hd)
    as (_ & Hnd).
  exists ids, items. rewrite pollCycle_queue, <- Hp.
  repeat split; assumption.
Qed.

Lemma add_has g l : g ∈ Ordered.add g l.
Proof.
  unfold Ordered.add. destruct (Ordered.has g l) eqn:Hh.
  - exact (bool_decide_eq_true_1 _ Hh).
  - apply elem_of_app. right. left.
Qed.

(** X3.  Visiting a message a second time changes nothing: after the first
    visit its identifier is in the seen ledger (or it has none), so the
    second visit stops at the ledger check. *)
Theorem second_visit_is_noop chat msg s :
  visitMessage TRIGGER startupTime chat msg
    (snd (visitMessage TRIGGER startupTime chat msg s))
  = (Returned tt, snd (visitMessage TRIGGER startupTime chat msg s)).
Proof.
  assert (Hadd : forall g l, Ordered.has g (Ordered.add g l) = true)
    by (intros g l; apply has_true, add_has).
  destruct (guid msg) as [[| c g] |] eqn:Hg.
  - unfold visitMessage. rewrite Hg. simpl. rewrite ?Hg. reflexivity.
  - destruct (Ordered.has (c :: g) (seen s)) eqn:Hh.
    + unfold visitMessage. rewrite Hg, Hh. simpl. rewrite ?Hg, ?Hh. reflexivity.
    + assert (Hs1 : Ordered.has (c :: g)
                      (seen (snd (visitMessage TRIGGER startupTime chat msg s))) = true).
      { unfold visitMessage. rewrite Hg, Hh.
        destruct (messageTime msg <? startupTime); simpl; [apply Hadd |].
        match goal with |- context [if ?b then _ else _] => destruct b end;
          simpl; apply Hadd. }
      unfold visitMessage at 1. rewrite Hg, Hs1. reflexivity.
  - unfold visitMessage. rewrite Hg. simpl. rewrite ?Hg. reflexivity.
Qed.

Lemma add_keeps g x l : x ∈ l -> x ∈ Ordered.add g l.
Proof.
  intros H. unfold Ordered.add. destruct (Ordered.has g l); [exact H |].
  apply elem_of_app. left. exact H.
Qed.

(** An old message is marked seen and otherwise ignored. *)
Lemma visitMessage_old chat msg s :
  isOld startupTime msg ->
  fst (visitMessage TRIGGER startupTime chat msg s) = Returned tt
  /\ messageQueue (snd (visitMessage TRIGGER startupTime chat msg s)) = messageQueue s
  /\ processedMessages (snd (visitMessage TRIGGER startupTime chat msg s))
     = processedMessages s
  /\ guidIn (seen (snd (visitMessage TRIGGER startupTime chat msg s))) msg
  /\ (forall x, x ∈ seen s -> x ∈ seen (snd (visitMessage TRIGGER startupTime chat msg s))).
Proof.
  intros Hold. unfold isOld in Hold. unfold visitMessage, guidIn.
  destruct (guid msg) as [[| c g] |]; simpl.
  - repeat split; auto.
  - destruct (Ordered.has (c :: g) (seen s)) eqn:Hh; simpl.
    + repeat split; auto. exact (bool_decide_eq_true_1 _ Hh).
    + rewrite (proj2 (N.ltb_lt _ _) Hold). simpl.
      repeat split; [apply add_has | intros x; apply add_keeps].
  - repeat split; auto.
Qed.

Lemma visitMessages_old chat msgs s :
  Forall (isOld startupTime) msgs ->
  fst (forEach (visitMessage TRIGGER startupTime chat) msgs s) = Returned tt
  /\ messageQueue (snd (forEach (visitMessage TRIGGER startupTime chat) msgs s))
     = messageQueue s
  /\ processedMessages (snd (forEach (visitMessage TRIGGER startupTime chat) msgs s))
     = processedMessages s
  /\ Forall (guidIn (seen (snd (forEach (visitMessage TRIGGER startupTime chat) msgs s))))
            msgs
  /\ (forall x, x ∈ seen s ->
        x ∈ seen (snd (forEach (visitMessage TRIGGER startupTime chat) msgs s))).
Proof.
  intros Hold. revert s. induction Hold as [| msg msgs Hm _ IH]; intros s; simpl.
  - repeat split; auto.
  - destruct (visitMessage_old chat msg s Hm) as (Hr & Hq & Hp & Hg & Hmono).
    unfold bind.
    destruct (visitMessage TRIGGER startupTime chat msg s) as [o s1].
    simpl in Hr, Hq, Hp, Hg, Hmono. subst o.
    destruct (IH s1) as (Hr1 & Hq1 & Hp1 & Hg1 & Hmono1).
    split; [exact Hr1 |]. split; [congruence |]. split; [congruence |].
    split; [| intros x Hx; apply Hmono1, Hmono, Hx].
    constructor; [| exact Hg1].
    unfold guidIn in *. destruct (guid msg) as [[| c g] |]; auto.
Qed.

(** X4.  History is not replayed: when the bridge lists for a chat only
    messages that predate the poller's start, the visit of that chat
    enqueues nothing and records nothing as processed, whatever their
    text; it does mark every one of them that has an identifier as
    seen. *)
Theorem history_is_not_replayed chat msgs s :
  env (trace s) (BridgeMessages chat) = Messages msgs ->
  Forall (isOld startupTime) msgs ->
  fst (visitChat env TRIGGER startupTime chat s) = Returned tt
  /\ messageQueue (snd (visitChat env TRIGGER startupTime chat s)) = messageQueue s
  /\ processedMessages (snd (visitChat env TRIGGER startupTime chat s))
     = processedMessages s
  /\ Forall (guidIn (seen (snd (visitChat env TRIGGER startupTime chat s)))) msgs.
Proof.
  intros Hr Hold. unfold visitChat, bind, call. rewrite Hr.
  assert (Hrev : Forall (isOld startupTime) (rev msgs)) by apply List.Forall_rev, Hold.
  destruct (visitMessages_old chat (rev msgs)
              (set_trace (trace s ++ [Called (BridgeMessages chat) (Messages msgs)]) s) Hrev)
    as (H1 & H2 & H3 & H4 & _).
  split; [exact H1 |]. split; [exact H2 |]. split; [exact H3 |].
  pose proof (List.Forall_rev H4) as H5. rewrite rev_involutive in H5. exact H5.
Qed.

End ScanFacts.

Lemma scan_enqueues_each_trigger_once_witness :
  ledgersDistinct initialState
  /\ exists ids items,
       processedMessages (snd (pollScan Scenario.bareCharacterListed (lit "@ava") 3 initialState))
       = processedMessages initialState ++ ids
       /\ NoDup (processedMessages initialState ++ ids)
       /\ length ids = length items
       /\ Forall (fun it => containsTrigger (lit "@ava") (itemText it) = true) items
       /\ messageQueue (snd (pollScan Scenario.bareCharacterListed (lit "@ava") 3 initialState))
          = messageQueue initialState ++ items
       /\ messageQueue (snd (pollCycle Scenario.bareCharacterListed (lit "@ava") 3 initialState))
          = messageQueue initialState ++ items.
Proof.
  assert (Hd : ledgersDistinct initialState) by (split; constructor).
  split; [exact Hd |].
  exact (scan_enqueues_each_trigger_once Scenario.bareCharacterListed (lit "@ava") 3
           initialState Hd).
Defined.

Lemma history_is_not_replayed_witness :
  Scenario.historyOnly (trace initialState) (BridgeMessages Scenario.chatA)
  = Messages [Scenario.yesterday]
  /\ Forall (isOld 3) [Scenario.yesterday]
  /\ messageQueue (snd (visitChat Scenario.historyOnly (lit "@ava") 3 Scenario.chatA
                          initialState)) = messageQueue initialState.
Proof.
  assert (Hr : Scenario.historyOnly (trace initialState) (BridgeMessages Scenario.chatA)
               = Messages [Scenario.yesterday]) by reflexivity.
  assert (Hold : Forall (isOld 3) [Scenario.yesterday]).
  { constructor; [| constructor]. unfold isOld. vm_compute. reflexivity. }
  split; [exact Hr | split; [exact Hold |]].
  exact (proj1 (proj2 (history_is_not_replayed Scenario.historyOnly (lit "@ava") 3
                         Scenario.chatA [Scenario.yesterday] initialState Hr Hold))).
Defined.

(** ** The context store clean-up *)

Section ContextStore.

Lemma delete_front {V} (pre post : list (jsstring * V)) :
  fold_left (fun acc k => Ordered.delete k acc) (List.map fst pre) (pre ++ post) = post.
Proof.
  induction pre as [| [k v] pre IH]; simpl; [reflexivity |].
  rewrite bool_decide_eq_true_2 by reflexivity. exact IH.
Qed.

(** Deleting the keys of all entries but the last twenty leaves exactly
    the last twenty entries, in order (also when a key occurs twice). *)
Lemma pruneMap_lastN {V} (m : list (jsstring * V)) :
  Ordered.pruneMap m = Ordered.lastN 20 m.
Proof.
  unfold Ordered.pruneMap, Ordered.lastN.
  destruct (20 <? length m)%nat eqn:Hlen.
  - rewrite length_map, List.firstn_map.
    pose proof (delete_front (take (length m - 20) m) (drop (length m - 20) m)) as H.
    rewrite take_drop in H. exact H.
  - apply Nat.ltb_ge in Hlen.
    replace (length m - 20)%nat with 0%nat by lia. reflexivity.
Qed.

(** X5.  The clean-up at the end of a poll cycle leaves in the context
    store exactly the twenty most recently inserted chats of the store
    it found (all of them when there were at most twenty), in insertion
    order, each with the context it had.  It never raises and asks
    nothing of the outside, and it touches neither the character
    registry nor the backend flag, the queue or the guard, so an evicted
    chat loses its history but keeps its persona. *)
Theorem clean_up_keeps_last_twenty_chats s :
  fst (cleanUp s) = Returned tt
  /\ chatContexts (snd (cleanUp s)) = Ordered.lastN 20 (chatContexts s)
  /\ (length (chatContexts (snd (cleanUp s))) <= 20)%nat
  /\ chatCharacters (snd (cleanUp s)) = chatCharacters s
  /\ USE_OLLAMA (snd (cleanUp s)) = USE_OLLAMA s
  /\ messageQueue (snd (cleanUp s)) = messageQueue s
  /\ isProcessingQueue (snd (cleanUp s)) = isProcessingQueue s
  /\ trace (snd (cleanUp s)) = trace s.
Proof.
  unfold cleanUp. run. rewrite pruneMap_lastN.
  split; [reflexivity |]. split; [reflexivity |]. split; [apply lastN_length |].
  repeat split; reflexivity.
Qed.

End ContextStore.

(** ** The picture pipeline and the tool calls *)

Section Pictures.

Variable env : Env.

Ltac flatten_trace :=
  unfold set_trace; simpl; rewrite <- ?app_assoc; simpl.

(** X6.  [generateAndSendPicture] never raises.  Everything it asks of the
    outside is the image request, the download and an attachment for the
    given chat; it reports success exactly when these three were made in
    that order, the download being of the URL the image request returned
    and the attachment carrying the bytes downloaded, and the bridge did
    not reject the attachment. *)
Theorem picture_pipeline_reports_what_happened chat description s :
  exists success evs,
    generateAndSendPicture env chat description s
    = (Returned success, set_trace (trace s ++ evs) s)
    /\ Forall (pictureEvent chat) evs
    /\ (success = true
        <-> exists url bytes r,
              evs = [ Called (OpenAIImage description) (ImageUrl url);
                      Called (Download url) (Body bytes);
                      Called (BridgeAttachment chat bytes) r ]
              /\ r <> Rejected).
Proof.
  unfold generateAndSendPicture. run.
  destruct (env (trace s) (OpenAIImage description)) as [| | | url | | | |] eqn:H1; simpl;
    try (exists false; eexists [Called (OpenAIImage description) _];
         split; [reflexivity |]; split; [repeat constructor |];
         split; [discriminate | intros (u & b & r & E & _); discriminate E]).
  run.
  match goal with
  | |- context [env ?h (Download url)] =>
      destruct (env h (Download url)) as [| | | | bytes | | |] eqn:H2
  end; simpl;
    try (exists false;
         eexists [Called (OpenAIImage description) _; Called (Download url) _];
         split; [flatten_trace; reflexivity |]; split; [repeat constructor |];
         split; [discriminate | intros (u & b & r & E & _); discriminate E]).
  run.
  match goal with
  | |- context [env ?h (BridgeAttachment chat bytes)] =>
      destruct (env h (BridgeAttachment chat bytes)) eqn:H3
  end; simpl.
  1: { exists false.
       eexists [Called (OpenAIImage description) _; Called (Download url) _;
                Called (BridgeAttachment chat bytes) Rejected].
       split; [flatten_trace; reflexivity |]. split; [repeat constructor |].
       split; [discriminate |].
       intros (u & b & r & E & Hr). injection E as _ _ _ _ Er. congruence. }
  all: exists true;
    eexists [Called (OpenAIImage description) _; Called (Download url) _;
             Called (BridgeAttachment chat bytes) _];
    (split; [flatten_trace; reflexivity |]); (split; [repeat constructor |]);
    (split; [| reflexivity]); intros _;
    do 3 eexists; (split; [reflexivity | discriminate]).
Qed.

Lemma imageAttempts_app t1 t2 : imageAttempts (t1 ++ t2) = (imageAttempts t1 + imageAttempts t2)%nat.
Proof. unfold imageAttempts. rewrite filter_app, length_app. reflexivity. Qed.

Lemma pictureCalls_cons c calls :
  pictureCalls (c :: calls)
  = if isPictureCall c then S (pictureCalls calls) else pictureCalls calls.
Proof. unfold pictureCalls. simpl. destruct (isPictureCall c); reflexivity. Qed.

(** X7.  The tool-call loop, when the arguments of every picture request
    parse: it never raises and sends no text itself; it makes one picture
    attempt per [request_picture] call and none for a call of any other
    name; with no picture request the reply is left as it was and nothing
    is asked of the outside, and otherwise the reply becomes one of the
    two picture confirmations. *)
Theorem tool_calls_make_one_attempt_per_picture_request chat calls reply s :
  parsable calls ->
  exists reply' evs,
    resolveToolCalls env chat calls reply s
    = (Returned reply', set_trace (trace s ++ evs) s)
    /\ imageAttempts evs = pictureCalls calls
    /\ textsSent evs = []
    /\ (pictureCalls calls = 0%nat -> reply' = reply /\ evs = [])
    /\ (pictureCalls calls <> 0%nat -> reply' = PICTURE_SENT \/ reply' = PICTURE_FAILED).
Proof.
  intros Hp. revert reply s.
  induction Hp as [| c calls Hc _ IH]; intros reply s.
  - exists reply, []. simpl. rewrite set_trace_nil.
    repeat split; auto. intros H. exfalso. apply H. reflexivity.
  - cbn [resolveToolCalls]. rewrite pictureCalls_cons. unfold isPictureCall in Hc |- *.
    destruct (eqb (fn_name c) REQUEST_PICTURE) eqn:Hname.
    + destruct (fn_arguments c) as [| d] eqn:Hargs; [exfalso; exact (Hc eq_refl eq_refl) |].
      destruct (generateAndSendPicture_trace env chat d s) as (ok & evs1 & Hg & Hi1 & Ht1).
      unfold bind. rewrite Hg.
      destruct (IH (if ok then PICTURE_SENT else PICTURE_FAILED)
                   (set_trace (trace s ++ Called (OpenAIImage d) (env (trace s) (OpenAIImage d))
                                         :: evs1) s))
        as (reply' & evs2 & Hr & Hi2 & Ht2 & Hzero & Hpos).
      exists reply', (Called (OpenAIImage d) (env (trace s) (OpenAIImage d)) :: evs1 ++ evs2).
      rewrite Hr. split; [unfold set_trace; simpl; rewrite <- app_assoc; reflexivity |].
      split.
      { change (Called (OpenAIImage d) (env (trace s) (OpenAIImage d)) :: evs1 ++ evs2)
          with ([Called (OpenAIImage d) (env (trace s) (OpenAIImage d))] ++ evs1 ++ evs2).
        rewrite !imageAttempts_app, Hi1, Hi2. reflexivity. }
      split.
      { simpl. rewrite textsSent_split, Ht1, Ht2. reflexivity. }
      split; [simpl; intros H; discriminate H |].
      intros _.
      destruct (Nat.eq_dec (pictureCalls calls) 0%nat) as [Hz | Hnz].
      * destruct (Hzero Hz) as (-> & _). destruct ok; auto.
      * exact (Hpos Hnz).
    + destruct (IH reply s) as (reply' & evs & Hr & Hi & Ht & Hzero & Hpos).
      exists reply', evs. split; [exact Hr |]. split; [exact Hi |]. split; [exact Ht |]. split; assumption.
Qed.

End Pictures.

Lemma tool_calls_make_one_attempt_per_picture_request_witness :
  parsable Scenario.mixedCalls
  /\ exists reply' evs,
       resolveToolCalls Scenario.worldUp Scenario.chatA Scenario.mixedCalls (lit "ok")
         initialState
       = (Returned reply', set_trace (trace initialState ++ evs) initialState)
       /\ imageAttempts evs = pictureCalls Scenario.mixedCalls
       /\ textsSent evs = []
       /\ (pictureCalls Scenario.mixedCalls = 0%nat -> reply' = lit "ok" /\ evs = [])
       /\ (pictureCalls Scenario.mixedCalls <> 0%nat ->
           reply' = PICTURE_SENT \/ reply' = PICTURE_FAILED).
Proof.
  assert (Hp : parsable Scenario.mixedCalls).
  { repeat constructor; simpl; intros H; discriminate. }
  split; [exact Hp |].
  exact (tool_calls_make_one_attempt_per_picture_request Scenario.worldUp Scenario.chatA
           Scenario.mixedCalls (lit "ok") initialState Hp).
Defined.

(** ** The two ends of a conversation turn *)

Section Replies.

Variable env : Env.

(** [converse], up to the gateway's answer. *)
Lemma converse_value item s :
  let chat := chatGuid item in
  let t := {| role := user; content := itemText item |} in
  let sent := Ordered.lastN 10 (getContext chat s ++ [t]) in
  let q := chatRequest (USE_OLLAMA s) (personaOf chat s) sent in
  let r := env (trace s) q in
  let s3 := set_trace (trace s ++ [Called q r]) (spliced chat (pushed chat t s)) in
  converse env item s
  = match gatewayResult (USE_OLLAMA s) r with
    | Some m => respond env chat m s3
    | None => (Thrown, s3)
    end
  /\ getContext chat s3 = sent.
Proof.
  intros chat t sent q r s3.
  set (s2 := spliced chat (pushed chat t s)).
  assert (Hctx : getContext chat s2 = sent) by apply pushTrim_context.
  assert (Hsame : USE_OLLAMA s2 = USE_OLLAMA s /\ chatCharacters s2 = chatCharacters s
                  /\ trace s2 = trace s).
  { unfold s2, spliced, pushed.
    destruct (10 <? length _)%nat; simpl; auto. }
  destruct Hsame as (Hflag & Hchar & Htrace).
  split; [| exact Hctx].
  assert (Hq : chatRequest (USE_OLLAMA s2) (personaOf chat s2) (getContext chat s2) = q).
  { unfold q, personaOf. rewrite Hflag, Hchar, Hctx. reflexivity. }
  pose proof (complete_value env chat s2) as Hc. simpl in Hc.
  rewrite Hq, Htrace, Hflag in Hc.
  change (converse env item s)
    with ((response <- complete env chat ;; respond env chat response) s2).
  unfold bind. rewrite Hc. fold r.
  destruct (gatewayResult (USE_OLLAMA s) r); reflexivity.
Qed.

Lemma isCommandText_false text :
  isCommandText text = false ->
  matchCommand KW_CHARACTER text = None /\ matchCommand KW_UNHINGE text = None.
Proof.
  unfold isCommandText.
  destruct (matchCommand KW_CHARACTER text); [discriminate |].
  destruct (matchCommand KW_UNHINGE text); [discriminate | auto].
Qed.

(** The [try] block of an item that is not a command, up to the gateway's
    answer. *)
Lemma tryBlock_value item s :
  isCommandText (itemText item) = false ->
  let chat := chatGuid item in
  let t := {| role := user; content := itemText item |} in
  let sent := Ordered.lastN 10 (getContext chat s ++ [t]) in
  let q := chatRequest (USE_OLLAMA s) (personaOf chat s) sent in
  let r := env (trace s ++ [Processing item]) q in
  let s3 := set_trace (trace s ++ [Processing item; Called q r])
              (spliced chat (pushed chat t (prepared item s))) in
  tryBlock env item s
  = match gatewayResult (USE_OLLAMA s) r with
    | Some m => respond env chat m s3
    | None => (Thrown, s3)
    end
  /\ getContext chat s3 = sent.
Proof.
  intros Hn chat t sent q r s3.
  destruct (isCommandText_false _ Hn) as (Hc & Hu).
  rewrite (tryBlock_not_command env item s Hc Hu).
  destruct (prepared_facts item s) as (Htr & Hflag & Hchar & Hctx).
  pose proof (converse_value item (prepared item s)) as Hv. simpl in Hv.
  unfold personaOf in Hv. rewrite Htr, Hflag, Hchar, Hctx in Hv.
  rewrite <- app_assoc in Hv. exact Hv.
Qed.

Lemma resolveToolCalls_plain chat calls reply s :
  pictureCalls calls = 0%nat -> resolveToolCalls env chat calls reply s = (Returned reply, s).
Proof.
  induction calls as [| c calls IH]; intros Hz; [reflexivity |].
  rewrite pictureCalls_cons in Hz. cbn [resolveToolCalls].
  unfold isPictureCall in Hz.
  destruct (eqb (fn_name c) REQUEST_PICTURE); [discriminate Hz |].
  exact (IH Hz).
Qed.

Lemma resolve_plain chat m s :
  plain m -> resolve env chat m s = (Returned (replyText m), s).
Proof.
  unfold plain, resolve. destruct (tool_calls m) as [calls |]; intros Hp.
  - apply resolveToolCalls_plain, Hp.
  - reflexivity.
Qed.

(** X8.  When the backend's answer to an item that is not a command is
    unusable (the request is rejected, or the answer has no message), the
    item ends as follows: the user turn stays in the chat's context, cut
    to the ten most recent turns, and no assistant turn is added; the one
    text posted is the fixed failure text, to the item's chat; the
    half-second pause follows if the bridge accepted that text, and the
    iteration raises if it did not.  The persona registry, the backend
    flag and the queue are as before. *)
Theorem backend_failure_is_answered_with_fixed_text item s :
  isCommandText (itemText item) = false ->
  let chat := chatGuid item in
  let sent := Ordered.lastN 10
                (getContext chat s ++ [ {| role := user; content := itemText item |} ]) in
  let q := chatRequest (USE_OLLAMA s) (personaOf chat s) sent in
  let r := env (trace s ++ [Processing item]) q in
  gatewayResult (USE_OLLAMA s) r = None ->
  let f := BridgeText chat PROCESSING_FAILED in
  let r2 := env (trace s ++ [Processing item; Called q r]) f in
  let s' := snd (iteration env item s) in
  fst (iteration env item s) = match r2 with Rejected => Thrown | _ => Returned tt end
  /\ trace s' = trace s ++ [Processing item; Called q r; Called f r2]
                        ++ match r2 with Rejected => [] | _ => [Sleep 500] end
  /\ getContext chat s' = sent
  /\ chatCharacters s' = chatCharacters s
  /\ USE_OLLAMA s' = USE_OLLAMA s
  /\ messageQueue s' = messageQueue s.
Proof.
  intros Hn chat sent q r Hg f r2 s'.
  destruct (tryBlock_value item s Hn) as (Ht & Hctx).
  fold chat sent q r in Ht, Hctx. rewrite Hg in Ht.
  set (s3 := set_trace (trace s ++ [Processing item; Called q r])
               (spliced chat
                  (pushed chat {| role := user; content := itemText item |}
                     (prepared item s)))) in *.
  assert (Hrest : chatCharacters s3 = chatCharacters s /\ USE_OLLAMA s3 = USE_OLLAMA s
                  /\ messageQueue s3 = messageQueue s).
  { unfold s3, spliced, pushed, prepared, emit, ensureContext. run.
    destruct (Ordered.get _ _); simpl; destruct (10 <? _)%nat; simpl; auto. }
  destruct Hrest as (Hchar & Hflag & Hqueue).
  assert (Hit : iteration env item s
                = match r2 with
                  | Rejected =>
                      (Thrown, set_trace (trace s3 ++ [Called f r2]) s3)
                  | _ =>
                      (Returned tt, set_trace (trace s3 ++ [Called f r2; Sleep 500]) s3)
                  end).
  { unfold iteration, bind at 1, tryCatch. rewrite Ht.
    unfold catchBlock. run. fold chat f. change (trace s ++ [Processing item; Called q r])
      with (trace s3). subst r2. change (trace s ++ [Processing item; Called q r])
      with (trace s3).
    destruct (env (trace s3) f); simpl; unfold set_trace; simpl;
      rewrite <- ?app_assoc; reflexivity. }
  subst s'. rewrite Hit.
  destruct r2; simpl; rewrite <- ?app_assoc; simpl;
    (split; [reflexivity |]); (split; [reflexivity |]);
    (split; [exact Hctx |]); auto.
Qed.

(** X9.  When the backend's message asks for no picture, the reply is the
    message's text, trimmed, or the empty text when the message has none.
    With the bridge accepting the post, the item ends as follows: the
    chat's context is the window sent followed by the assistant turn
    holding that reply; the one text posted is the signed reply, to the
    item's chat; the half-second pause follows.  An empty reply still goes
    out, as a space and the signature. *)
Theorem plain_reply_is_trimmed_model_text item m s :
  isCommandText (itemText item) = false ->
  let chat := chatGuid item in
  let sent := Ordered.lastN 10
                (getContext chat s ++ [ {| role := user; content := itemText item |} ]) in
  let q := chatRequest (USE_OLLAMA s) (personaOf chat s) sent in
  let r := env (trace s ++ [Processing item]) q in
  gatewayResult (USE_OLLAMA s) r = Some m ->
  plain m ->
  let reply := match msg_content m with Some c => trim c | None => [] end in
  let out := BridgeText chat (signed reply) in
  let r2 := env (trace s ++ [Processing item; Called q r]) out in
  r2 <> Rejected ->
  let s' := snd (iteration env item s) in
  fst (iteration env item s) = Returned tt
  /\ trace s' = trace s ++ [Processing item; Called q r; Called out r2; Sleep 500]
  /\ getContext chat s' = sent ++ [ {| role := assistant; content := reply |} ]
  /\ (reply = [] -> signed reply = lit " " ++ SIGNATURE).
Proof.
  intros Hn chat sent q r Hg Hp reply out r2 Hr2 s'.
  destruct (tryBlock_value item s Hn) as (Ht & Hctx).
  fold chat sent q r in Ht, Hctx. rewrite Hg in Ht.
  set (s3 := set_trace (trace s ++ [Processing item; Called q r])
               (spliced chat
                  (pushed chat {| role := user; content := itemText item |}
                     (prepared item s)))) in *.
  assert (Hit : iteration env item s
                = (Returned tt,
                   set_trace (trace s3 ++ [Called out r2; Sleep 500])
                     (pushed chat {| role := assistant; content := reply |} s3))).
  { unfold iteration, bind at 1, tryCatch. rewrite Ht.
    unfold respond, bind at 1. rewrite (resolve_plain chat m s3 Hp).
    change (replyText m) with reply.
    rewrite deliver_value. fold out.
    change (trace s3) with (trace s ++ [Processing item; Called q r]). fold r2.
    destruct r2; try (exfalso; apply Hr2; reflexivity);
      unfold emit, modify; simpl; unfold set_trace, pushed; simpl;
      rewrite <- ?app_assoc; reflexivity. }
  subst s'. rewrite Hit. split; [reflexivity |]. split.
  { simpl. rewrite <- app_assoc. reflexivity. }
  split.
  { unfold pushed. cbn [snd]. unfold getContext at 1. simpl.
    rewrite OrderedFacts.get_set_eq.
    change (getContext chat s3) with (getContext chat s3) . rewrite Hctx. reflexivity. }
  intros ->. reflexivity.
Qed.

End Replies.

Lemma backend_failure_is_answered_with_fixed_text_witness :
  isCommandText (itemText Scenario.hello) = false
  /\ fst (iteration Scenario.backendsDown Scenario.hello initialState) = Returned tt
  /\ textsSent (trace (snd (iteration Scenario.backendsDown Scenario.hello initialState)))
     = [ (Scenario.chatA, PROCESSING_FAILED) ].
Proof.
  assert (Hn : isCommandText (itemText Scenario.hello) = false) by (vm_compute; reflexivity).
  split; [exact Hn |].
  pose proof (backend_failure_is_answered_with_fixed_text Scenario.backendsDown
                Scenario.hello initialState Hn eq_refl) as H.
  cbv zeta in H. destruct H as (Hf & Ht & _).
  split; [exact Hf |]. rewrite Ht. reflexivity.
Defined.

Lemma plain_reply_is_trimmed_model_text_witness :
  isCommandText (itemText Scenario.hello) = false
  /\ plain {| msg_content := Some (lit "hi there"); tool_calls := None |}
  /\ textsSent (trace (snd (iteration Scenario.worldUp Scenario.hello initialState)))
     = [ (Scenario.chatA, lit "hi there " ++ SIGNATURE) ].
Proof.
  assert (Hn : isCommandText (itemText Scenario.hello) = false) by (vm_compute; reflexivity).
  split; [exact Hn |]. split; [exact I |].
  assert (Hr : Accepted <> Rejected) by discriminate.
  pose proof (plain_reply_is_trimmed_model_text Scenario.worldUp Scenario.hello
                {| msg_content := Some (lit "hi there"); tool_calls := None |}
                initialState Hn eq_refl I Hr) as H.
  cbv zeta in H. destruct H as (_ & Ht & _).
  rewrite Ht. vm_compute. reflexivity.
Defined.

(** ** What the work on one chat leaves alone *)

Section Footprint.

Variable env : Env.

Section Local.

Variable I : State -> Prop.

Ltac keep_bind := apply triple_bind with (Q := fun _ => I); [| intros ?].

Lemma parseCommand_local text chat :
  chatLocal chat I ->
  matchCommand KW_CHARACTER text = None \/ registryLocal chat I ->
  triple I (parseCommand env text chat) (fun _ => I) I.
Proof.
  intros (Ht & Hf & Hc) Hr. unfold parseCommand.
  destruct (matchCommand KW_CHARACTER text) as [cap |].
  - destruct Hr as [Hr | Hr]; [discriminate Hr |].
    keep_bind; [eapply triple_quiet; [apply (quiet_generateCharacterPrompt env chat) | exact Ht] |].
    keep_bind; [apply triple_modify; intros s Hs; apply Hr, Hs |].
    keep_bind; [apply triple_modify; intros s Hs; apply Hc, Hs |].
    keep_bind; [eapply triple_quiet; [apply (quiet_sendText env chat) | exact Ht] |].
    apply triple_ret.
  - destruct (matchCommand KW_UNHINGE text) as [val |]; [| apply triple_ret].
    keep_bind; [apply triple_modify; intros s Hs; apply Hf, Hs |].
    apply triple_ret.
Qed.

Lemma converse_local item :
  chatLocal (chatGuid item) I -> triple I (converse env item) (fun _ => I) I.
Proof.
  intros (Ht & Hf & Hc). unfold converse, pushTurn, trimContext.
  keep_bind; [unfold pushed; apply triple_modify; intros s Hs; apply Hc, Hs |].
  keep_bind.
  { apply triple_modify. intros s Hs. unfold spliced.
    destruct (10 <? length (getContext (chatGuid item) s))%nat; [| exact Hs].
    apply Hc, Hs. }
  keep_bind; [eapply triple_quiet; [apply (quiet_complete env (chatGuid item)) | exact Ht] |].
  unfold respond.
  keep_bind; [eapply triple_quiet; [apply (quiet_resolve env (chatGuid item)) | exact Ht] |].
  unfold deliver, pushTurn.
  keep_bind; [unfold pushed; apply triple_modify; intros s Hs; apply Hc, Hs |].
  keep_bind; [eapply triple_quiet; [apply (quiet_sendText env (chatGuid item)) | exact Ht] |].
  apply triple_ret.
Qed.

Lemma iteration_local item :
  chatLocal (chatGuid item) I ->
  noCharacterCommand item \/ registryLocal (chatGuid item) I ->
  triple I (iteration env item) (fun _ => I) I.
Proof.
  intros Hl Hr. pose proof Hl as (Ht & Hf & Hc). unfold iteration. keep_bind.
  - apply triple_tryCatch with (E1 := I); [| | auto].
    + unfold tryBlock, emit, ensureContext.
      keep_bind; [apply triple_modify; intros s Hs; apply Ht, Hs |].
      keep_bind.
      { apply triple_modify. intros s Hs.
        destruct (Ordered.get (chatGuid item) (chatContexts s)); [exact Hs |].
        apply Hc, Hs. }
      keep_bind; [apply parseCommand_local; assumption |].
      destruct a1; [apply triple_ret | apply converse_local, Hl].
    + unfold catchBlock.
      keep_bind; [eapply triple_quiet; [apply (quiet_sendText env (chatGuid item)) | exact Ht] |].
      apply triple_ret.
  - destruct a; [apply triple_ret |].
    unfold emit. apply triple_modify. intros s Hs. apply Ht, Hs.
Qed.

Variable ok : QueueItem -> Prop.
Hypothesis I_queueBlind : queueBlind I.
Hypothesis ok_local : forall item, ok item -> triple I (iteration env item) (fun _ => I) I.

Lemma drain_local fuel :
  triple (fun s => I s /\ Forall ok (messageQueue s)) (drain env fuel) (fun _ => I) I.
Proof.
  induction fuel as [| fuel IH]; intros s (Hs & Hq); simpl.
  - destruct (messageQueue s); exact Hs.
  - destruct (messageQueue s) as [| item rest] eqn:Hqueue; [exact Hs |].
    apply Forall_cons_1 in Hq. destruct Hq as (Hitem & Hrest).
    set (s1 := set_messageQueue rest s).
    assert (H1 : I s1) by (apply (proj1 I_queueBlind), Hs).
    pose proof (ok_local item Hitem s1 H1) as Hit.
    destruct (iteration_keeps_queue env item s1) as (Hkeep & _).
    unfold bind. destruct (iteration env item s1) as [[[] | |] s2]; try exact Hit.
    apply IH. split; [exact Hit |]. simpl in Hkeep. rewrite Hkeep. exact Hrest.
Qed.

Lemma processMessageQueue_local :
  triple (fun s => I s /\ Forall ok (messageQueue s)) (processMessageQueue env)
    (fun _ => I) I.
Proof.
  intros s (Hs & Hq). unfold processMessageQueue.
  destruct (isProcessingQueue s || bool_decide (messageQueue s = [])); [exact Hs |].
  assert (Ht : triple (fun s => I s /\ Forall ok (messageQueue s))
                 (modify (set_isProcessingQueue true) ;;;
                  drain env (length (messageQueue s)) ;;;
                  modify (set_isProcessingQueue false))
                 (fun _ => I) I).
  { apply triple_bind with (Q := fun _ s => I s /\ Forall ok (messageQueue s)).
    { apply triple_modify. intros s0 (H0 & Hq0).
      split; [apply (proj2 I_queueBlind), H0 | exact Hq0]. }
    intros _. apply triple_bind with (Q := fun _ => I); [apply drain_local |].
    intros _. apply triple_modify. intros s0 H0. apply (proj2 I_queueBlind), H0. }
  apply (Ht s). split; assumption.
Qed.

End Local.

Lemma aboutChat_local other chat x :
  chat <> other ->
  chatLocal chat (fun s => aboutChat other s = x)
  /\ registryLocal chat (fun s => aboutChat other s = x)
  /\ queueBlind (fun s => aboutChat other s = x).
Proof.
  intros Hne. unfold chatLocal, registryLocal, queueBlind, traceBlind, flagBlind, aboutChat.
  split; [split; [| split] |split; [| split]]; intros ? s Hs; simpl; try exact Hs.
  - rewrite OrderedFacts.get_set_ne by exact Hne. exact Hs.
  - rewrite lookup_insert_ne by exact Hne. exact Hs.
Qed.

(** X10.  Serving one item leaves every other chat as it was: the context
    stored for another chat (or its absence), the persona registered for
    it, the two ledgers of the poller, the queue and the guard are the
    same after the item as before, whatever the item is and however the
    services answer. *)
Theorem item_leaves_other_chats_alone item other s :
  other <> chatGuid item ->
  let s' := snd (iteration env item s) in
  Ordered.get other (chatContexts s') = Ordered.get other (chatContexts s)
  /\ chatCharacters s' !! other = chatCharacters s !! other
  /\ seen s' = seen s
  /\ processedMessages s' = processedMessages s
  /\ messageQueue s' = messageQueue s
  /\ isProcessingQueue s' = isProcessingQueue s.
Proof.
  intros Hne s'.
  assert (Hne' : chatGuid item <> other) by congruence.
  destruct (aboutChat_local other (chatGuid item) (aboutChat other s) Hne') as (Hl & Hr & _).
  pose proof (triple_final _ _ _ (iteration_local _ item Hl (or_intror Hr)) s eq_refl) as H.
  fold s' in H. unfold aboutChat in H. injection H as H1 H2 H3 H4.
  destruct (iteration_keeps_queue env item s) as (Hq & Hg).
  repeat split; assumption.
Qed.

(** X11.  A run of [processMessageQueue] leaves alone every chat that has
    no item in the queue: the context stored for it, the persona
    registered for it and the two ledgers of the poller are the same
    after the run as before, whether the run drains the queue or is cut
    short. *)
Theorem drain_leaves_idle_chats_alone other s :
  Forall (fun it => chatGuid it <> other) (messageQueue s) ->
  let s' := snd (processMessageQueue env s) in
  Ordered.get other (chatContexts s') = Ordered.get other (chatContexts s)
  /\ chatCharacters s' !! other = chatCharacters s !! other
  /\ seen s' = seen s
  /\ processedMessages s' = processedMessages s.
Proof.
  intros Hq s'.
  set (I := fun x => aboutChat other x = aboutChat other s).
  assert (Hblind : queueBlind I).
  { unfold queueBlind, I, aboutChat. split; intros ? ? H; exact H. }
  assert (Hok : forall item, chatGuid item <> other ->
                             triple I (iteration env item) (fun _ => I) I).
  { intros item Hne.
    destruct (aboutChat_local other (chatGuid item) (aboutChat other s) Hne) as (Hl & Hr & _).
    apply iteration_local; [exact Hl | right; exact Hr]. }
  pose proof (triple_final _ _ _
                (processMessageQueue_local I (fun it => chatGuid it <> other) Hblind Hok)
                s (conj eq_refl Hq)) as H.
  fold s' in H. unfold I, aboutChat in H. injection H as H1 H2 H3 H4.
  repeat split; assumption.
Qed.

(** X12.  The persona registry changes only through [@character]: an item
    whose text does not reach that branch leaves the whole registry as it
    was, and so does a run of [processMessageQueue] over a queue with no
    such item. *)
Theorem registry_changes_only_by_character_command s :
  (forall item, noCharacterCommand item ->
                chatCharacters (snd (iteration env item s)) = chatCharacters s)
  /\ (Forall noCharacterCommand (messageQueue s) ->
      chatCharacters (snd (processMessageQueue env s)) = chatCharacters s).
Proof.
  set (I := fun x => chatCharacters x = chatCharacters s).
  assert (Hl : forall chat, chatLocal chat I).
  { intros chat. unfold chatLocal, traceBlind, flagBlind, I.
    split; [| split]; intros ? ? H; exact H. }
  assert (Hblind : queueBlind I).
  { unfold queueBlind, I. split; intros ? ? H; exact H. }
  assert (Hok : forall item, noCharacterCommand item ->
                             triple I (iteration env item) (fun _ => I) I).
  { intros item Hn. apply iteration_local; [apply Hl | left; exact Hn]. }
  split.
  - intros item Hn. exact (triple_final _ _ _ (Hok item Hn) s eq_refl).
  - intros Hq.
    exact (triple_final _ _ _
             (processMessageQueue_local I noCharacterCommand Hblind Hok) s (conj eq_refl Hq)).
Qed.

End Footprint.

Lemma item_leaves_other_chats_alone_witness :
  Scenario.chatB <> chatGuid Scenario.hello
  /\ Ordered.get Scenario.chatB
       (chatContexts (snd (iteration Scenario.worldUp Scenario.hello initialState)))
     = Ordered.get Scenario.chatB (chatContexts initialState).
Proof.
  assert (Hne : Scenario.chatB <> chatGuid Scenario.hello) by (vm_compute; discriminate).
  split; [exact Hne |].
  exact (proj1 (item_leaves_other_chats_alone Scenario.worldUp Scenario.hello Scenario.chatB
                  initialState Hne)).
Defined.

Lemma drain_leaves_idle_chats_alone_witness :
  Forall (fun it => chatGuid it <> Scenario.chatC) (messageQueue Scenario.twoQueued)
  /\ Ordered.get Scenario.chatC
       (chatContexts (snd (processMessageQueue Scenario.worldUp Scenario.twoQueued)))
     = Ordered.get Scenario.chatC (chatContexts Scenario.twoQueued).
Proof.
  assert (Hq : Forall (fun it => chatGuid it <> Scenario.chatC)
                 (messageQueue Scenario.twoQueued)).
  { repeat constructor; vm_compute; discriminate. }
  split; [exact Hq |].
  exact (proj1 (drain_leaves_idle_chats_alone Scenario.worldUp Scenario.chatC
                  Scenario.twoQueued Hq)).
Defined.

(** ** The persona after [@character] *)

Section Persona.

Variable env : Env.

Lemma iteration_extends item s :
  exists more,
    trace (snd (iteration env item s)) = trace (snd (tryBlock env item s)) ++ more.
Proof.
  unfold iteration, bind, tryCatch.
  destruct (tryBlock env item s) as [[[] | |] s1]; simpl.
  - exists []. rewrite app_nil_r. reflexivity.
  - exists [Sleep 500]. reflexivity.
  - unfold catchBlock. run.
    destruct (env (trace s1) (BridgeText (chatGuid item) PROCESSING_FAILED)); simpl;
      eexists; rewrite <- ?app_assoc; reflexivity.
  - exists []. rewrite app_nil_r. reflexivity.
Qed.

(** X13.  After a [@character] command the chat starts afresh under the
    new persona: the registry holds for the chat the text the synthesis
    returned (the trimmed completion, or the fallback text when the
    backend failed), the chat's context is empty, and the request of the
    chat's next message that is not a command carries that persona and
    the one new user turn, to the backend the flag selects.  A
    synthesized persona that is empty counts as none: the request then
    carries the default persona. *)
Theorem new_persona_governs_next_request text chat cap item s :
  matchCommand KW_CHARACTER text = Some cap ->
  chatGuid item = chat ->
  isCommandText (itemText item) = false ->
  let s1 := snd (parseCommand env text chat s) in
  let synthesized :=
    match completionText (USE_OLLAMA s)
            (env (trace s) (personaRequest (USE_OLLAMA s) (trim cap))) with
    | Some c => trim c
    | None => fallbackPersona (trim cap)
    end in
  let persona := match synthesized with [] => DEFAULT_PERSONA | _ => synthesized end in
  let q := chatRequest (USE_OLLAMA s) persona [ {| role := user; content := itemText item |} ] in
  chatCharacters s1 !! chat = Some synthesized
  /\ getContext chat s1 = []
  /\ exists rest,
       trace (snd (iteration env item s1))
       = trace s1 ++ Processing item :: Called q (env (trace s1 ++ [Processing item]) q) :: rest.
Proof.
  intros Hm Hchat Hn s1 synthesized persona q.
  pose proof (generateCharacterPrompt_value env (trim cap) s) as Hg. cbv zeta in Hg.
  fold synthesized in Hg.
  pose proof (parseCommand_character env text chat s cap _ _ Hm Hg) as Hp. cbv zeta in Hp.
  assert (Hs1 : chatCharacters s1 !! chat = Some synthesized
                /\ getContext chat s1 = []
                /\ USE_OLLAMA s1 = USE_OLLAMA s).
  { unfold s1. rewrite Hp. unfold getContext. simpl.
    rewrite lookup_insert_eq, OrderedFacts.get_set_eq. auto. }
  destruct Hs1 as (Hreg & Hctx & Hflag).
  split; [exact Hreg |]. split; [exact Hctx |].
  destruct (tryBlock_value env item s1 Hn) as (Ht & _).
  rewrite Hchat, Hflag, Hctx in Ht.
  assert (Hpersona : personaOf chat s1 = persona).
  { unfold personaOf. rewrite Hreg. unfold persona. destruct synthesized; reflexivity. }
  rewrite Hpersona in Ht.
  change (Ordered.lastN 10 ([] ++ [ {| role := user; content := itemText item |} ]))
    with [ {| role := user; content := itemText item |} ] in Ht.
  fold q in Ht.
  destruct (iteration_extends item s1) as (more & Hmore). rewrite Hmore, Ht.
  destruct (gatewayResult (USE_OLLAMA s) (env (trace s1 ++ [Processing item]) q)) as [m |].
  - match goal with
    | |- context [respond env chat m ?st] =>
        destruct (emits_respond env chat m st) as (_ & evs & E & _); rewrite E
    end.
    exists (evs ++ more). simpl. rewrite <- !app_assoc. reflexivity.
  - exists more. simpl. rewrite <- !app_assoc. reflexivity.
Qed.

End Persona.

Lemma new_persona_governs_next_request_witness :
  matchCommand KW_CHARACTER (lit "@character pirate") = Some (lit "pirate")
  /\ chatGuid Scenario.hello = Scenario.chatA
  /\ isCommandText (itemText Scenario.hello) = false
  /\ chatCharacters
       (snd (parseCommand Scenario.worldUp (lit "@character pirate") Scenario.chatA
               Scenario.unhinged)) !! Scenario.chatA
     = Some (lit "Arr, matey.").
Proof.
  assert (Hm : matchCommand KW_CHARACTER (lit "@character pirate") = Some (lit "pirate"))
    by (vm_compute; reflexivity).
  assert (Hn : isCommandText (itemText Scenario.hello) = false) by (vm_compute; reflexivity).
  split; [exact Hm |]. split; [reflexivity |]. split; [exact Hn |].
  pose proof (new_persona_governs_next_request Scenario.worldUp (lit "@character pirate")
                Scenario.chatA (lit "pirate") Scenario.hello Scenario.unhinged
                Hm eq_refl Hn) as H.
  cbv zeta in H. destruct H as (Hreg & _).
  rewrite Hreg. vm_compute. reflexivity.
Defined.

(** ** What the command patterns capture *)

Section Capture.

Lemma dotRun_split s :
  exists rest, s = dotRun s ++ rest /\ oneLine (dotRun s) /\ atLineEnd rest.
Proof.
  induction s as [| c s IH]; simpl.
  - exists []. repeat split. constructor.
  - destruct (isLineTerminator c) eqn:Hc.
    + exists (c :: s). repeat split; [constructor | exact Hc].
    + destruct IH as (rest & E & Hone & Hend).
      exists rest. split; [simpl; f_equal; exact E |].
      split; [constructor; assumption | exact Hend].
Qed.

Lemma captureDotPlus_split s cap :
  captureDotPlus s = Some cap ->
  exists rest, s = cap ++ rest /\ cap <> [] /\ oneLine cap /\ atLineEnd rest.
Proof.
  unfold captureDotPlus. intros H.
  destruct (dotRun_split s) as (rest & E & Hone & Hend).
  destruct (dotRun s) as [| c r]; [discriminate H |].
  injection H as <-. exists rest. repeat split; try assumption. discriminate.
Qed.

Lemma matchAt_split kw s cap :
  matchAt kw s = Some cap ->
  exists k ws rest,
    s = k ++ ws ++ cap ++ rest
    /\ sameLetters kw k /\ ws <> [] /\ whiteSpaces ws
    /\ cap <> [] /\ oneLine cap /\ atLineEnd rest.
Proof.
  unfold matchAt. intros H.
  destruct (matchKeyword kw s) as [tl |] eqn:Hk; [| discriminate].
  apply matchKeyword_sound in Hk as (k & -> & Hsame).
  unfold spacePlusThen in H. destruct tl as [| w tl]; [discriminate |].
  destruct (isWhiteSpace w) eqn:Hw; [| discriminate].
  apply spaceStarThen_sound in H as (ws & s' & -> & Hws & Hcap).
  apply captureDotPlus_split in Hcap as (rest & -> & Hne & Hone & Hend).
  exists k, (w :: ws), rest. split; [reflexivity |]. split; [exact Hsame |].
  split; [discriminate |]. split; [constructor; assumption |]. auto.
Qed.

(** X14.  What a command pattern captures.  When [/KW\s+(.+)/i] matches a
    text, the text is: something, the keyword in any letter case, one or
    more white-space units, the capture, and a remainder.  The capture is
    not empty, holds no line terminator, and runs to the end of its line
    (the remainder is empty or begins with a line terminator); and it is
    the leftmost match that is taken: the keyword is followed by a
    description at no earlier position of the text. *)
Theorem command_argument_is_rest_of_line kw text cap :
  matchCommand kw text = Some cap ->
  exists pre k ws rest,
    text = pre ++ k ++ ws ++ cap ++ rest
    /\ sameLetters kw k /\ ws <> [] /\ whiteSpaces ws
    /\ cap <> [] /\ oneLine cap /\ atLineEnd rest
    /\ forall p1 p2, pre = p1 ++ p2 -> p2 <> [] ->
                     ~ describedAt kw (p2 ++ k ++ ws ++ cap ++ rest).
Proof.
  revert cap. induction text as [| c text IH]; intros cap; simpl.
  - destruct (matchAt kw []) as [r |] eqn:Hm; [| discriminate].
    intros [= ->]. apply matchAt_split in Hm as (k & ws & rest & E & H).
    exists [], k, ws, rest. split; [exact E |].
    destruct H as (H1 & H2 & H3 & H4 & H5 & H6). repeat split; try assumption.
    intros p1 p2 Hp Hne. destruct p1; [simpl in Hp; congruence | discriminate Hp].
  - destruct (matchAt kw (c :: text)) as [r |] eqn:Hm.
    + intros [= ->]. apply matchAt_split in Hm as (k & ws & rest & E & H).
      exists [], k, ws, rest. split; [exact E |].
      destruct H as (H1 & H2 & H3 & H4 & H5 & H6). repeat split; try assumption.
      intros p1 p2 Hp Hne. destruct p1; [simpl in Hp; congruence | discriminate Hp].
    + intros H. destruct (IH cap H) as (pre & k & ws & rest & E & H1 & H2 & H3 & H4 & H5 & H6 & Hleft).
      exists (c :: pre), k, ws, rest. split; [simpl; f_equal; exact E |].
      repeat split; try assumption.
      intros p1 p2 Hp Hne Hd. destruct p1 as [| c' p1].
      * simpl in Hp. subst p2. simpl in Hd. rewrite <- E in Hd.
        apply matchAt_some in Hd as (r & Hr). congruence.
      * injection Hp as _ Hp. exact (Hleft p1 p2 Hp Hne Hd).
Qed.

Lemma includes_middle p a b : includes p (a ++ p ++ b) = true.
Proof.
  induction a as [| c a IH]; simpl.
  - destruct (p ++ b) eqn:E; simpl; rewrite <- E, startsWith_app; reflexivity.
  - rewrite IH. apply orb_true_r.
Qed.

Lemma toLowerCase_app a b : toLowerCase (a ++ b) = toLowerCase a ++ toLowerCase b.
Proof. unfold toLowerCase. rewrite List.map_app, concat_app. reflexivity. Qed.

Lemma lowerUnit_folds a b :
  a = 64 \/ (97 <= a /\ a <= 122) ->
  canonicalize a = canonicalize b -> lowerUnit b = [a].
Proof.
  unfold canonicalize, lowerUnit. intros Ha Hab.
  destruct (97 <=? a) eqn:A1; destruct (a <=? 122) eqn:A2;
    destruct (97 <=? b) eqn:B1; destruct (b <=? 122) eqn:B2;
    destruct (65 <=? b) eqn:B3; destruct (b <=? 90) eqn:B4;
    destruct (192 <=? b) eqn:B5; destruct (b <=? 222) eqn:B6;
    destruct (b =? 215) eqn:B7; destruct (b =? 8490) eqn:B8;
    destruct (b =? 304) eqn:B9; simpl in *;
    rewrite ?N.leb_le, ?N.leb_gt, ?N.eqb_eq, ?N.eqb_neq in *;
    try lia; f_equal; lia.
Qed.

Lemma toLowerCase_keyword kw k :
  smallLetters kw -> sameLetters kw k -> toLowerCase k = kw.
Proof.
  intros Hsmall Hsame. induction Hsame as [| a b kw k Hab _ IH]; [reflexivity |].
  apply Forall_cons_1 in Hsmall. destruct Hsmall as (Ha & Hkw).
  unfold toLowerCase in *. simpl. rewrite (lowerUnit_folds a b Ha Hab), (IH Hkw).
  reflexivity.
Qed.

Lemma command_includes_keyword kw text cap :
  smallLetters kw -> matchCommand kw text = Some cap ->
  includes kw (toLowerCase text) = true.
Proof.
  intros Hsmall Hm.
  assert (Hd : described kw text) by (apply matchCommand_some; eauto).
  destruct Hd as (pre & tl & -> & k & ws & c & rest & -> & Hsame & _).
  rewrite !toLowerCase_app, (toLowerCase_keyword kw k Hsmall Hsame).
  apply includes_middle.
Qed.

(** X15.  Every text the command interpreter would handle is a text the
    poller picks up: a text that matches one of the two command patterns
    contains, lowered, the trigger word of that command, whatever the
    configured bot trigger is and in whatever letter case the command was
    written. *)
Theorem every_command_carries_a_trigger TRIGGER text :
  isCommandText text = true -> containsTrigger TRIGGER text = true.
Proof.
  unfold isCommandText, containsTrigger, TRIGGERS. cbn [existsb]. intros H.
  replace (toLowerCase KW_CHARACTER) with KW_CHARACTER by (vm_compute; reflexivity).
  replace (toLowerCase KW_UNHINGE) with KW_UNHINGE by (vm_compute; reflexivity).
  assert (Hc : smallLetters KW_CHARACTER) by (repeat constructor; vm_compute; intuition congruence).
  assert (Hu : smallLetters KW_UNHINGE) by (repeat constructor; vm_compute; intuition congruence).
  destruct (matchCommand KW_CHARACTER text) as [cap |] eqn:Hmc.
  - rewrite (command_includes_keyword _ _ _ Hc Hmc). rewrite orb_true_r. reflexivity.
  - destruct (matchCommand KW_UNHINGE text) as [val |] eqn:Hmu; [| discriminate H].
    rewrite (command_includes_keyword _ _ _ Hu Hmu). rewrite !orb_true_r. reflexivity.
Qed.

End Capture.

Lemma command_argument_is_rest_of_line_witness :
  matchCommand KW_CHARACTER (lit "say @Character  a pirate") = Some (lit "a pirate")
  /\ exists pre k ws rest,
       lit "say @Character  a pirate" = pre ++ k ++ ws ++ lit "a pirate" ++ rest
       /\ sameLetters KW_CHARACTER k /\ ws <> [] /\ whiteSpaces ws
       /\ lit "a pirate" <> [] /\ oneLine (lit "a pirate") /\ atLineEnd rest
       /\ forall p1 p2, pre = p1 ++ p2 -> p2 <> [] ->
                        ~ describedAt KW_CHARACTER (p2 ++ k ++ ws ++ lit "a pirate" ++ rest).
Proof.
  assert (Hm : matchCommand KW_CHARACTER (lit "say @Character  a pirate")
               = Some (lit "a pirate")) by (vm_compute; reflexivity).
  split; [exact Hm |].
  exact (command_argument_is_rest_of_line KW_CHARACTER (lit "say @Character  a pirate")
           (lit "a pirate") Hm).
Defined.

Lemma every_command_carries_a_trigger_witness :
  isCommandText (lit "@UNHINGE true") = true
  /\ containsTrigger (lit "@ava") (lit "@UNHINGE true") = true.
Proof.
  assert (H : isCommandText (lit "@UNHINGE true") = true) by (vm_compute; reflexivity).
  split; [exact H |].
  exact (every_command_carries_a_trigger (lit "@ava") (lit "@UNHINGE true") H).
Defined.

(** ** An [@unhinge] item *)

Section UnhingeItem.

Variable env : Env.

(** X16.  An item that reaches the [@unhinge] branch is served in silence:
    the iteration returns, nothing is asked of any service and nothing is
    posted to the chat, there is no pause, the text is not recorded as a
    user turn, and the persona registry is as before.  All that changes
    is the backend flag, which is set when the argument, trimmed and
    lowered, is "true" and cleared for every other argument. *)
Theorem unhinge_item_is_served_in_silence item val s :
  matchCommand KW_CHARACTER (itemText item) = None ->
  matchCommand KW_UNHINGE (itemText item) = Some val ->
  let s' := snd (iteration env item s) in
  fst (iteration env item s) = Returned tt
  /\ trace s' = trace s ++ [Processing item]
  /\ USE_OLLAMA s' = eqb (toLowerCase (trim val)) (lit "true")
  /\ (toLowerCase (trim val) <> lit "true" -> USE_OLLAMA s' = false)
  /\ getContext (chatGuid item) s' = getContext (chatGuid item) s
  /\ chatCharacters s' = chatCharacters s
  /\ messageQueue s' = messageQueue s.
Proof.
  intros Hc Hu s'.
  assert (Hit : iteration env item s
                = (Returned tt,
                   set_USE_OLLAMA (eqb (toLowerCase (trim val)) (lit "true"))
                     (prepared item s))).
  { unfold iteration, tryCatch, tryBlock, prepared, parseCommand. rewrite Hc, Hu.
    unfold emit, ensureContext. run. reflexivity. }
  destruct (prepared_facts item s) as (Htr & Hflag & Hchar & Hctx).
  subst s'. rewrite Hit. simpl.
  split; [reflexivity |]. split; [exact Htr |]. split; [reflexivity |].
  split.
  { intros Hne. unfold eqb. apply bool_decide_eq_false_2, Hne. }
  split; [exact Hctx |]. split; [exact Hchar |].
  unfold prepared, emit, ensureContext. run.
  destruct (Ordered.get (chatGuid item) (chatContexts s)); reflexivity.
Qed.

End UnhingeItem.

Lemma unhinge_item_is_served_in_silence_witness :
  matchCommand KW_CHARACTER (lit "@unhinge yes") = None
  /\ matchCommand KW_UNHINGE (lit "@unhinge yes") = Some (lit "yes")
  /\ USE_OLLAMA (snd (iteration Scenario.worldUp (Scenario.item Scenario.chatA "@unhinge yes")
                        Scenario.unhinged)) = false.
Proof.
  assert (Hc : matchCommand KW_CHARACTER (lit "@unhinge yes") = None) by (vm_compute; reflexivity).
  assert (Hu : matchCommand KW_UNHINGE (lit "@unhinge yes") = Some (lit "yes"))
    by (vm_compute; reflexivity).
  split; [exact Hc |]. split; [exact Hu |].
  pose proof (unhinge_item_is_served_in_silence Scenario.worldUp
                (Scenario.item Scenario.chatA "@unhinge yes") (lit "yes") Scenario.unhinged
                Hc Hu) as H.
  cbv zeta in H. destruct H as (_ & _ & _ & Hoff & _).
  apply Hoff. vm_compute. discriminate.
Defined.

(** ** The [@unhinge] command *)

Section UnhingeCommand.

Variable env : Env.

Lemma served_keeps_flag flag items s :
  Forall (fun it => isUnhingeCommand (itemText it) = false) items ->
  USE_OLLAMA s = flag -> USE_OLLAMA (served env items s) = flag.
Proof.
  intros Hitems. revert s. induction Hitems as [| item items Hn _ IH]; intros s Hf.
  - exact Hf.
  - simpl. apply IH.
    exact (triple_final _ _ _
             (iteration_settled env _ (flag_settled flag) item (or_introl Hn)) s Hf).
Qed.

(** C7, amended.  Take a text in which the [@unhinge] pattern matches, with
    argument [val], and the [@character] pattern, which is tried first,
    does not.  The command returns handled; it sets the process-wide flag
    to true exactly when the argument, trimmed and lowered, is "true", and
    to false otherwise; it asks nothing of any service, so no reply goes
    out, and it changes nothing else.  After it the flag keeps that value
    over every run of items none of which reaches the [@unhinge] branch,
    and the request of every message that is not a command, from whatever
    chat, then goes to the backend that value selects, with the chat's
    persona and window. *)
Theorem unhinge_sets_backend_for_all_chats text chat val s :
  matchCommand KW_CHARACTER text = None ->
  matchCommand KW_UNHINGE text = Some val ->
  let flag := eqb (toLowerCase (trim val)) (lit "true") in
  let s1 := snd (parseCommand env text chat s) in
  fst (parseCommand env text chat s) = Returned true
  /\ USE_OLLAMA s1 = flag
  /\ (flag = true <-> toLowerCase (trim val) = lit "true")
  /\ trace s1 = trace s
  /\ s1 = set_USE_OLLAMA flag s
  /\ forall items,
       Forall (fun it => isUnhingeCommand (itemText it) = false) items ->
       let s2 := served env items s1 in
       USE_OLLAMA s2 = flag
       /\ forall item,
            isCommandText (itemText item) = false ->
            let sent := Ordered.lastN 10
                          (getContext (chatGuid item) s2
                           ++ [ {| role := user; content := itemText item |} ]) in
            exists r rest,
              trace (snd (tryBlock env item s2))
              = trace s2
                ++ Processing item
                   :: Called (chatRequest flag (personaOf (chatGuid item) s2) sent) r :: rest.
Proof.
  intros Hc Hu flag s1.
  assert (Hp : parseCommand env text chat s = (Returned true, set_USE_OLLAMA flag s)).
  { unfold parseCommand. rewrite Hc, Hu. reflexivity. }
  subst s1. rewrite Hp. cbn [fst snd].
  split; [reflexivity |]. split; [reflexivity |]. split.
  { unfold flag, eqb. split; intros H.
    - apply bool_decide_eq_true_1 in H. exact H.
    - apply bool_decide_eq_true_2, H. }
  split; [reflexivity |]. split; [reflexivity |].
  intros items Hitems.
  set (s2 := served env items (set_USE_OLLAMA flag s)).
  assert (Hflag : USE_OLLAMA s2 = flag)
    by (apply served_keeps_flag; [exact Hitems | reflexivity]).
  split; [exact Hflag |].
  intros item Hn.
  set (sent := Ordered.lastN 10
                 (getContext (chatGuid item) s2
                  ++ [ {| role := user; content := itemText item |} ])).
  destruct (tryBlock_value env item s2 Hn) as (Ht & _).
  rewrite Hflag in Ht. fold sent in Ht. rewrite Ht.
  set (q := chatRequest flag (personaOf (chatGuid item) s2) sent).
  destruct (gatewayResult flag (env (trace s2 ++ [Processing item]) q)) as [m |].
  - match goal with
    | |- context [respond env (chatGuid item) m ?st] =>
        destruct (emits_respond env (chatGuid item) m st) as (_ & evs & E & _); rewrite E
    end.
    exists (env (trace s2 ++ [Processing item]) q), evs.
    simpl. rewrite <- !app_assoc. reflexivity.
  - exists (env (trace s2 ++ [Processing item]) q), []. simpl. reflexivity.
Qed.

End UnhingeCommand.

Lemma unhinge_sets_backend_for_all_chats_witness :
  matchCommand KW_CHARACTER (lit "@unhinge  TRUE ") = None
  /\ matchCommand KW_UNHINGE (lit "@unhinge  TRUE ") = Some (lit "TRUE ")
  /\ USE_OLLAMA (snd (parseCommand Scenario.worldUp (lit "@unhinge  TRUE ") Scenario.chatA
                        initialState)) = true
  /\ exists r rest,
       trace (snd (tryBlock Scenario.worldUp Scenario.hello
                     (served Scenario.worldUp []
                        (snd (parseCommand Scenario.worldUp (lit "@unhinge  TRUE ")
                                Scenario.chatA initialState)))))
       = [ Processing Scenario.hello;
           Called (OllamaChat [ {| role := system;
                                   content := DEFAULT_PERSONA ++ OLLAMA_PICTURE_HINT |};
                                {| role := user; content := lit "@ava hello" |} ]) r ]
         ++ rest.
Proof.
  assert (Hc : matchCommand KW_CHARACTER (lit "@unhinge  TRUE ") = None)
    by (vm_compute; reflexivity).
  assert (Hu : matchCommand KW_UNHINGE (lit "@unhinge  TRUE ") = Some (lit "TRUE "))
    by (vm_compute; reflexivity).
  assert (Hn : isCommandText (itemText Scenario.hello) = false) by (vm_compute; reflexivity).
  split; [exact Hc | split; [exact Hu |]].
  pose proof (unhinge_sets_backend_for_all_chats Scenario.worldUp
                (lit "@unhinge  TRUE ") Scenario.chatA (lit "TRUE ") initialState Hc Hu) as H.
  cbv zeta in H. destruct H as (_ & Hflag & _ & _ & _ & Hlater).
  split; [rewrite Hflag; vm_compute; reflexivity |].
  destruct (Hlater [] (Forall_nil_2 _)) as (_ & Hreq).
  destruct (Hreq Scenario.hello Hn) as (r & rest & Hr).
  exists r, rest. rewrite Hr. vm_compute. reflexivity.
Defined.

(** C7 as stated fails for a text in which the [@character] pattern
    matches too: that case of the switch is tried first, so the flag is
    left as it was and a reply is posted.  "@character pirate @unhinge
    true" leaves a cleared flag cleared, and "@unhinge false @character x"
    leaves a set flag set. *)
Lemma unhinge_beside_character_is_not_obeyed :
  matchCommand KW_UNHINGE (lit "@character pirate @unhinge true") = Some (lit "true")
  /\ USE_OLLAMA initialState = false
  /\ USE_OLLAMA (snd (parseCommand Scenario.worldUp (lit "@character pirate @unhinge true")
                        Scenario.chatA initialState)) = false
  /\ textsSent (trace (snd (parseCommand Scenario.worldUp
                              (lit "@character pirate @unhinge true")
                              Scenario.chatA initialState)))
     = [ (Scenario.chatA, characterUpdated (lit "pirate @unhinge true")) ]
  /\ matchCommand KW_UNHINGE (lit "@unhinge false @character x")
     = Some (lit "false @character x")
  /\ USE_OLLAMA Scenario.unhinged = true
  /\ USE_OLLAMA (snd (parseCommand Scenario.worldUp (lit "@unhinge false @character x")
                        Scenario.chatA Scenario.unhinged)) = true.
Proof. repeat split; vm_compute; reflexivity. Qed.
